(** * BigInteger: a shallow embedding of HighPrecision/BigInteger.hh

    The arbitrary-precision integer class of the template library is
    embedded function by function.  Limbs ([uint32_t]) and the 64-bit
    temporaries are integers of [Z] with their wrap-around written out;
    sizes and iterator positions ([size_t]) are natural numbers; the limb
    vector is a list, least-significant limb first. *)

From Stdlib Require Import ZArith List Bool Ascii Lia.
From Stdlib Require String.
Import ListNotations.
Local Open Scope Z_scope.

(** ** Machine integers *)

Definition wrap32 (x : Z) : Z := x mod 2 ^ 32.
Definition wrap64 (x : Z) : Z := x mod 2 ^ 64.

(** [~x] on a [uint32_t]. *)
Definition lnot32 (x : Z) : Z := wrap32 (Z.lnot x).

(** ** Class constants *)

(** [static_cast<uint64_t>(1) << 32] *)
Definition base : Z := wrap64 (Z.shiftl 1 32).
(** [(1u << 30) * 3 + 1]: the product is computed on [unsigned]. *)
Definition mod_ : Z := wrap32 (wrap32 (wrap32 (Z.shiftl 1 30) * 3) + 1).
Definition root : Z := 5.

(** ** The data model *)

Record BigInteger : Type := mkBig {
  value : list Z;      (* std::vector<uint32_t>, least-significant first *)
  negative : bool
}.

(** [BigInteger::BigInteger()] *)
Definition BigInteger_default : BigInteger := mkBig [0] false.

(** [BigInteger::BigInteger(int64_t)]; [%] and [/] truncate toward zero. *)
Definition BigInteger_of_int64 (v : Z) : BigInteger :=
  let b := base in
  let limb0 := wrap32 (Z.abs (Z.rem v b)) in
  let v' := Z.quot v b in
  mkBig (if v' =? 0 then [limb0] else [limb0; wrap32 (Z.abs v')]) (v <? 0).

(** ** Vector primitives *)

(** [std::vector::resize(n)]: truncate, or extend with zero limbs. *)
Definition resize (v : list Z) (n : nat) : list Z :=
  firstn n v ++ repeat 0 (n - length v).

(** [v[i]] as the machine executes it: the limb when [i] is in bounds, and
    otherwise the word [past] that happens to lie behind the vector's
    storage. *)
Definition vread (past : Z) (v : list Z) (i : nat) : Z := nth i v past.

(** [std::equal(first1, last1, first2, pred)]: [pred] must hold at every
    position of the first range. *)
Fixpoint std_equal (pred : Z -> Z -> bool) (l1 l2 : list Z) : bool :=
  match l1, l2 with
  | [], _ => true
  | x :: t1, y :: t2 => if pred x y then std_equal pred t1 t2 else false
  | _ :: _, [] => false   (* the callers compare the sizes first *)
  end.

(** ** Normalization *)

(** [BigInteger::eliminateNegativeZero_] *)
Definition eliminateNegativeZero_ (self : BigInteger) : BigInteger :=
  if (length (value self) =? 1)%nat && (hd 0 (value self) =? 0)
  then mkBig (value self) false
  else self.

(** The loop [while (!this->value[len] && len) --len;] of
    [trimLeadingZeros_], started at [len]; [rd] is the limb read.  It
    returns the final [len] and the indices it read, first read first. *)
Fixpoint trim_loop (rd : nat -> Z) (len : nat) : nat * list nat :=
  match len with
  | O => (O, [O])
  | S len' =>
      if rd len =? 0
      then let (r, reads) := trim_loop rd len' in (r, len :: reads)
      else (len, [len])
  end.

(** [BigInteger::trimLeadingZeros_]: [len] starts at [value.size()]. *)
Definition trimLeadingZeros_ (past : Z) (self : BigInteger) : BigInteger :=
  let len := fst (trim_loop (vread past (value self)) (length (value self))) in
  eliminateNegativeZero_ (mkBig (resize (value self) (len + 1)) (negative self)).

(** The limb indices [trimLeadingZeros_] reads. *)
Definition trimLeadingZeros_reads (past : Z) (v : list Z) : list nat :=
  snd (trim_loop (vread past v) (length v)).

(** ** Comparison operators *)

(** [operator==] *)
Definition operator_eq (lhs rhs : BigInteger) : bool :=
  if negb (Bool.eqb (negative lhs) (negative rhs)) then false
  else if negb (length (value lhs) =? length (value rhs))%nat then false
  else std_equal Z.eqb (value lhs) (value rhs).

(** [operator!=] *)
Definition operator_ne (lhs rhs : BigInteger) : bool := negb (operator_eq lhs rhs).

(** [operator<]: the limbs are walked through reverse iterators with
    [std::less] as the predicate of [std::equal]. *)
Definition operator_lt (lhs rhs : BigInteger) : bool :=
  if negb (Bool.eqb (negative lhs) (negative rhs)) then negative lhs
  else if negb (length (value lhs) =? length (value rhs))%nat
       then (length (value lhs) <? length (value rhs))%nat
  else xorb (negative lhs)
            (std_equal Z.ltb (rev (value lhs)) (rev (value rhs))).

(** [operator>=], [operator>], [operator<=] *)
Definition operator_ge (lhs rhs : BigInteger) : bool := negb (operator_lt lhs rhs).
Definition operator_gt (lhs rhs : BigInteger) : bool := operator_lt rhs lhs.
Definition operator_le (lhs rhs : BigInteger) : bool := negb (operator_lt rhs lhs).

(** ** Increment and decrement *)

(** [while (i != self.value.end() && !++*i++);] returning the vector and
    the number of limbs [i] has passed. *)
Fixpoint inc_loop (v : list Z) : list Z * nat :=
  match v with
  | [] => ([], O)
  | x :: t =>
      let x' := wrap32 (x + 1) in
      if x' =? 0
      then let (t', n) := inc_loop t in (x' :: t', S n)
      else (x' :: t, 1%nat)
  end.

(** [while (i != self.value.end() && !~--*i++);] *)
Fixpoint dec_loop (v : list Z) : list Z * nat :=
  match v with
  | [] => ([], O)
  | x :: t =>
      let x' := wrap32 (x - 1) in
      if lnot32 x' =? 0
      then let (t', n) := dec_loop t in (x' :: t', S n)
      else (x' :: t, 1%nat)
  end.

(** The magnitude-growing side: ripple, then
    [if (i[-1] == 0) self.value.push_back(1);] (the limb before [i]). *)
Definition ripple_up (v : list Z) : list Z :=
  let (v', i) := inc_loop v in
  if nth (i - 1) v' 0 =? 0 then v' ++ [1] else v'.

(** [operator++] (prefix) *)
Definition operator_inc (past : Z) (self : BigInteger) : BigInteger :=
  if negb (negative self)
  then mkBig (ripple_up (value self)) (negative self)
  else trimLeadingZeros_ past (mkBig (fst (dec_loop (value self))) (negative self)).

(** [operator--] (prefix) *)
Definition operator_dec (past : Z) (self : BigInteger) : BigInteger :=
  if negb (negative self)
  then trimLeadingZeros_ past (mkBig (fst (dec_loop (value self))) (negative self))
  else mkBig (ripple_up (value self)) (negative self).

(** [operator~]: copy, [++result], [result.negative ^= 1]. *)
Definition operator_not (past : Z) (self : BigInteger) : BigInteger :=
  let result := operator_inc past self in
  mkBig (value result) (xorb (negative result) true).

(** ** Addition and subtraction *)

(** The two loops of the equal-sign branch of [operator+=]: the first walks
    [rhs] (with [lhs] in step), the second propagates the carry [value]
    through the rest of [lhs].  They return the new limbs and the final
    [value]. *)
Fixpoint add_carry (lhs : list Z) (value : Z) : list Z * Z :=
  match lhs with
  | [] => ([], value)
  | x :: lt =>
      if value =? 0 then (lhs, value)
      else let value := wrap64 (value + x) in
           let (r, c) := add_carry lt (value / base) in
           (wrap32 (value mod base) :: r, c)
  end.

Fixpoint add_limbs (lhs rhs : list Z) (value : Z) : list Z * Z :=
  match rhs with
  | [] => add_carry lhs value
  | y :: rt =>
      match lhs with
      | x :: lt =>
          let value := wrap64 (value + x + y) in
          let (r, c) := add_limbs lt rt (value / base) in
          (wrap32 (value mod base) :: r, c)
      | [] => ([], value)   (* lhs was resized to at least rhs.size() *)
      end
  end.

(** The limb stored by the subtraction loops:
    [value < 0 ? value + BigInteger::base : value], converted to [uint32_t]. *)
Definition borrow_limb (value : Z) : Z :=
  wrap32 (if value <? 0 then wrap64 (value + base) else value).
Definition borrow_out (value : Z) : Z := if value <? 0 then -1 else 0.

Fixpoint sub_borrow (lhs : list Z) (value : Z) : list Z :=
  match lhs with
  | [] => []
  | x :: lt =>
      if value =? 0 then lhs
      else let value := value + x in
           borrow_limb value :: sub_borrow lt (borrow_out value)
  end.

(** [lhs - rhs], limb by limb (first branch). *)
Fixpoint sub_limbs (lhs rhs : list Z) (value : Z) : list Z :=
  match rhs with
  | [] => sub_borrow lhs value
  | y :: rt =>
      match lhs with
      | x :: lt =>
          let value := value + x - y in
          borrow_limb value :: sub_limbs lt rt (borrow_out value)
      | [] => []
      end
  end.

(** [rhs - lhs], limb by limb (second branch); only [rhs.size()] limbs are
    visited. *)
Fixpoint rsub_limbs (lhs rhs : list Z) (value : Z) : list Z :=
  match rhs with
  | [] => lhs
  | y :: rt =>
      match lhs with
      | x :: lt =>
          let value := value + y - x in
          borrow_limb value :: rsub_limbs lt rt (borrow_out value)
      | [] => []
      end
  end.

Definition flip_sign (b : BigInteger) : BigInteger :=
  mkBig (value b) (xorb (negative b) true).

(** The branch [lhs.negative == rhs.negative] of [operator+=]. *)
Definition add_same_sign (lhs rhs : BigInteger) : BigInteger :=
  let l := if (length (value lhs) <? length (value rhs))%nat
           then resize (value lhs) (length (value rhs)) else value lhs in
  let (l', c) := add_limbs l (value rhs) 0 in
  mkBig (if c =? 0 then l' else l' ++ [wrap32 c]) (negative lhs).

(** The branch [lhs.negative == rhs.negative] of [operator-=]; the
    comparison [lhs > rhs] sees the resized [lhs]. *)
Definition sub_same_sign (past : Z) (lhs rhs : BigInteger) : BigInteger :=
  let l := if (length (value lhs) <? length (value rhs))%nat
           then resize (value lhs) (length (value rhs)) else value lhs in
  let lhs := mkBig l (negative lhs) in
  trimLeadingZeros_ past
    (if xorb (operator_gt lhs rhs) (negative lhs)
     then mkBig (sub_limbs l (value rhs) 0) (negative lhs)
     else mkBig (rsub_limbs l (value rhs) 0) (negb (negative lhs))).

(** [operator+=] and [operator-=] call each other when the signs differ;
    [depth] bounds the nesting of these calls, and [None] is returned when
    it is exhausted. *)
Fixpoint operator_add_assign (depth : nat) (past : Z) (lhs rhs : BigInteger)
  : option BigInteger :=
  match depth with
  | O => None
  | S d =>
      if Bool.eqb (negative lhs) (negative rhs)
      then Some (add_same_sign lhs rhs)
      else match operator_sub_assign d past (flip_sign lhs) rhs with
           | Some l => Some (eliminateNegativeZero_ (flip_sign l))
           | None => None
           end
  end
with operator_sub_assign (depth : nat) (past : Z) (lhs rhs : BigInteger)
  : option BigInteger :=
  match depth with
  | O => None
  | S d =>
      if Bool.eqb (negative lhs) (negative rhs)
      then Some (sub_same_sign past lhs rhs)
      else match operator_add_assign d past (flip_sign lhs) rhs with
           | Some l => Some (flip_sign l)
           | None => None
           end
  end.

(** [operator+], [operator-]: the compound assignment on a copy. *)
Definition operator_add := operator_add_assign.
Definition operator_sub := operator_sub_assign.

(** ** Modular helpers

    Loops whose trip count is not the length of a list take a bound
    [fuel]; [None] means that the bound was reached before the loop ended. *)

(** [BigInteger::modpow_]: the [do ... while (expo >>= 1)] loop. *)
Fixpoint modpow_loop (fuel : nat) (retn b expo : Z) : option Z :=
  match fuel with
  | O => None
  | S fuel' =>
      let retn := if Z.land expo 1 =? 0 then retn else wrap64 (retn * b) mod mod_ in
      let b := if Z.lxor expo 1 =? 0 then b else wrap64 (b * b) mod mod_ in
      let expo := Z.shiftr expo 1 in
      if expo =? 0 then Some retn else modpow_loop fuel' retn b expo
  end.

Definition modpow_ (fuel : nat) (b expo : Z) : option Z :=
  modpow_loop fuel 1 b expo.

(** [BigInteger::modinv_]: signed 64-bit arithmetic, [%] and [/] truncating.
    The loop state is [(x, y, xp, yp, m, n, r, q)]. *)
Fixpoint modinv_loop (fuel : nat) (x y xp yp m n r q : Z) : option Z :=
  match fuel with
  | O => None
  | S fuel' =>
      if r =? 0 then Some x
      else
        let xt := xp - q * x in
        let yt := yp - q * y in
        let m' := n in
        let n' := r in
        modinv_loop fuel' xt yt x y m' n' (Z.rem m' n') (Z.quot m' n')
  end.

Definition modinv_ (fuel : nat) (m n : Z) : option Z :=
  match modinv_loop fuel 0 1 1 0 m n (Z.rem m n) (Z.quot m n) with
  | Some x => Some (wrap64 (x + n))     (* return x + mod; *)
  | None => None
  end.

(** ** The number-theoretic transform *)

(** [value[i]] and [value[i] = x] inside [NTT_]. *)
Definition vget (v : list Z) (i : nat) : Z := nth i v 0.

Fixpoint vset (v : list Z) (i : nat) (x : Z) : list Z :=
  match v, i with
  | [], _ => []
  | _ :: t, O => x :: t
  | y :: t, S i' => y :: vset t i' x
  end.

(** [std::swap(value[i], value[j])] *)
Definition vswap (v : list Z) (i j : nat) : list Z :=
  vset (vset v i (vget v j)) j (vget v i).

(** [w[i] = i ? w[i - 1] * g % mod : 1] for [i] in [0, n). *)
Fixpoint w_fill (count : nat) (prev g : Z) : list Z :=
  match count with
  | O => []
  | S c => let x := wrap64 (prev * g) mod mod_ in x :: w_fill c x g
  end.

Definition w_init (n : nat) (g : Z) : list Z :=
  match n with
  | O => []
  | S c => 1 :: w_fill c 1 g
  end.

(** [std::reverse(w + 1, w + n)] *)
Definition w_reverse (w : list Z) : list Z :=
  match w with
  | [] => []
  | x :: t => x :: rev t
  end.

(** [for (size_t k = n; j < k; j ^= k) k >>= 1;] returning [j]. *)
Fixpoint rev_step (fuel : nat) (j k : nat) : option nat :=
  match fuel with
  | O => None
  | S fuel' =>
      if (j <? k)%nat
      then let k := Nat.shiftr k 1 in rev_step fuel' (Nat.lxor j k) k
      else Some j
  end.

(** The bit-reversal loop [for (i = 0, j = 0; i != n; ++i)]; [count] is
    the number of iterations left, [n - i]. *)
Fixpoint bitrev_loop (fuel count : nat) (i j n : nat) (v : list Z)
  : option (list Z) :=
  match count with
  | O => Some v
  | S c =>
      let v := if (j <? i)%nat then vswap v i j else v in
      match rev_step fuel j n with
      | Some j' => bitrev_loop fuel c (S i) j' n v
      | None => None
      end
  end.

(** The body of the innermost butterfly loop. *)
Definition butterfly (w v : list Z) (i I j k : nat) : list Z :=
  let z := wrap64 (vget v (i + j + k) * vget w (I * k)) mod mod_ in
  let v := if vget v (j + k) <? z
           then vset v (i + j + k) (wrap32 (wrap64 (vget v (j + k) + mod_ - z)))
           else vset v (i + j + k) (wrap32 (wrap64 (vget v (j + k) - z))) in
  if wrap64 (vget v (j + k) + z) <? mod_
  then vset v (j + k) (wrap32 (wrap64 (vget v (j + k) + z)))
  else vset v (j + k) (wrap32 (wrap64 (wrap64 (vget v (j + k) + z) - mod_))).

(** [for (size_t k = 0; k != i; ++k)]; [count] is [i - k]. *)
Fixpoint k_loop (count : nat) (w : list Z) (i I j k : nat) (v : list Z) : list Z :=
  match count with
  | O => v
  | S c => k_loop c w i I j (S k) (butterfly w v i I j k)
  end.

(** [for (size_t j = 0; j != n; j += i << 1)] *)
Fixpoint j_loop (fuel : nat) (w : list Z) (i I j n : nat) (v : list Z)
  : option (list Z) :=
  match fuel with
  | O => None
  | S fuel' =>
      if (j =? n)%nat then Some v
      else j_loop fuel' w i I (j + Nat.shiftl i 1) n (k_loop i w i I j 0 v)
  end.

(** [for (size_t i = 1, I = n >> 1; I; i <<= 1, I >>= 1)]; the inner
    loops run on the bound [bound]. *)
Fixpoint stage_loop (bound fuel : nat) (w : list Z) (i I n : nat) (v : list Z)
  : option (list Z) :=
  match fuel with
  | O => None
  | S fuel' =>
      if (I =? 0)%nat then Some v
      else match j_loop bound w i I 0 n v with
           | Some v' => stage_loop bound fuel' w (Nat.shiftl i 1) (Nat.shiftr I 1) n v'
           | None => None
           end
  end.

(** [BigInteger::NTT_(logN, inverse)] on the limb vector [v]. *)
Definition NTT_ (fuel : nat) (logN : nat) (inverse : bool) (v : list Z)
  : option (list Z) :=
  let n := length v in
  match modpow_ fuel root (Z.shiftr mod_ (Z.of_nat logN)) with
  | None => None
  | Some g =>
      let w := w_init n g in
      match (if inverse
             then match modinv_ fuel (Z.of_nat n) mod_ with
                  | Some inv =>
                      Some (w_reverse w,
                            map (fun x => wrap32 (wrap64 (x * inv) mod mod_)) v)
                  | None => None
                  end
             else Some (w, v)) with
      | None => None
      | Some (w, v) =>
          match bitrev_loop fuel n 0 0 n v with
          | None => None
          | Some v => stage_loop fuel fuel w 1 (Nat.shiftr n 1) n v
          end
      end
  end.

(** ** Multiplication *)

(** [while (static_cast<size_t>(1) << logN < size << 1) ++logN;] *)
Fixpoint logN_loop (fuel : nat) (size logN : nat) : option nat :=
  match fuel with
  | O => None
  | S fuel' =>
      if (Nat.shiftl 1 logN <? Nat.shiftl size 1)%nat
      then logN_loop fuel' size (S logN)
      else Some logN
  end.

(** The pointwise product loop of [operator*=]. *)
Fixpoint pointwise (l r : list Z) : list Z :=
  match l, r with
  | x :: lt, y :: rt => wrap32 (wrap64 (x * y) mod mod_) :: pointwise lt rt
  | _, _ => []
  end.

(** [operator*=]: [l] is [lhs] itself, [r] a copy of [rhs]. *)
Definition operator_mul_assign (fuel : nat) (past : Z) (lhs rhs : BigInteger)
  : option BigInteger :=
  let size := Nat.max (length (value lhs)) (length (value rhs)) in
  match logN_loop fuel size 0 with
  | None => None
  | Some logN =>
      let n := Nat.shiftl 1 logN in
      match NTT_ fuel logN false (resize (value lhs) n),
            NTT_ fuel logN false (resize (value rhs) n) with
      | Some l, Some r =>
          match NTT_ fuel logN true (pointwise l r) with
          | Some l' => Some (trimLeadingZeros_ past (mkBig l' (negative lhs)))
          | None => None
          end
      | _, _ => None
      end
  end.

(** [operator*] *)
Definition operator_mul := operator_mul_assign.

(** ** Streams

    An input stream is its character sequence, split at the read position,
    with the three state bits and the [basefield] of its flags.  The
    operations follow [std::istream]: [get] and [peek] return the character
    code or [EOF]. *)

Inductive basefield : Type := Dec | Hex | Oct | NoBase.

Record istream : Type := mkIs {
  consumed : list ascii;     (* read so far, last read first *)
  pending : list ascii;      (* still to read *)
  failbit : bool;
  eofbit : bool;
  badbit : bool;
  iflags : basefield
}.

Definition EOF : Z := -1.
Definition code (c : ascii) : Z := Z.of_N (N_of_ascii c).

Definition good (s : istream) : bool :=
  negb (failbit s || eofbit s || badbit s).

Definition set_fail (s : istream) : istream :=
  mkIs (consumed s) (pending s) true (eofbit s) (badbit s) (iflags s).
Definition set_eof (s : istream) : istream :=
  mkIs (consumed s) (pending s) (failbit s) true (badbit s) (iflags s).
Definition set_bad (s : istream) : istream :=
  mkIs (consumed s) (pending s) (failbit s) (eofbit s) true (iflags s).

(** [is.get()] *)
Definition is_get (s : istream) : Z * istream :=
  if negb (good s) then (EOF, set_fail s)
  else match pending s with
       | [] => (EOF, set_fail (set_eof s))
       | c :: r => (code c, mkIs (c :: consumed s) r (failbit s) (eofbit s)
                                 (badbit s) (iflags s))
       end.

(** [is.peek()] *)
Definition is_peek (s : istream) : Z * istream :=
  if negb (good s) then (EOF, set_fail s)
  else match pending s with
       | [] => (EOF, set_eof s)
       | c :: _ => (code c, s)
       end.

(** [is.unget()]: clears [eofbit] first, then puts the last character back. *)
Definition is_unget (s : istream) : istream :=
  let s := mkIs (consumed s) (pending s) (failbit s) false (badbit s) (iflags s) in
  if negb (good s) then set_fail s
  else match consumed s with
       | [] => set_bad s
       | c :: b => mkIs b (c :: pending s) (failbit s) (eofbit s) (badbit s) (iflags s)
       end.

(** [is.clear(std::ios::failbit)] *)
Definition is_clear_failbit (s : istream) : istream :=
  mkIs (consumed s) (pending s) true false false (iflags s).

(** [isspace] and [isdigit] on a character code. *)
Definition isspace (c : Z) : bool := (c =? 32) || ((9 <=? c) && (c <=? 13)).
Definition isdigit (c : Z) : bool := (48 <=? c) && (c <=? 57).

(** Skipping of leading white space by a formatted extraction. *)
Fixpoint skipws (before after : list ascii) : list ascii * list ascii :=
  match after with
  | c :: r => if isspace (code c) then skipws (c :: before) r else (before, after)
  | [] => (before, [])
  end.

(** [is >> cursor] for a [char]: [None] when no character was extracted
    (the variable keeps its former contents). *)
Definition is_extract_char (s : istream) : option ascii * istream :=
  if negb (good s) then (None, set_fail s)
  else let (b, a) := skipws (consumed s) (pending s) in
       match a with
       | [] => (None, mkIs b [] true true (badbit s) (iflags s))
       | c :: r => (Some c, mkIs (c :: b) r (failbit s) (eofbit s) (badbit s) (iflags s))
       end.

(** An output stream: the characters written and the [basefield]. *)
Record ostream : Type := mkOs {
  written : list ascii;
  oflags : basefield
}.

(** [os.put(c)] *)
Definition os_put (os : ostream) (c : ascii) : ostream :=
  mkOs (written os ++ [c]) (oflags os).

(** The decimal digits of an unsigned number, as [os << x] writes them for
    a [uint32_t] (at most ten digits). *)
Definition digit_char (d : Z) : ascii := ascii_of_N (Z.to_N (48 + d)).

Fixpoint dec_digits (fuel : nat) (x : Z) (acc : list ascii) : list ascii :=
  match fuel with
  | O => acc
  | S fuel' =>
      let acc := digit_char (x mod 10) :: acc in
      if x / 10 =? 0 then acc else dec_digits fuel' (x / 10) acc
  end.

Definition os_put_uint32 (os : ostream) (x : Z) : ostream :=
  mkOs (written os ++ dec_digits 10 x []) (oflags os).

(** ** Base conversion *)

Definition logBase : nat := 9.
Definition pow10 : list Z :=
  [1; 10; 100; 1000; 10000; 100000; 1000000; 10000000; 100000000; 1000000000].

(** [while (is.peek() == '0') is.get();] *)
Fixpoint skip_zeros (fuel : nat) (s : istream) : option istream :=
  match fuel with
  | O => None
  | S fuel' =>
      let (c, s) := is_peek s in
      if c =? code "0" then skip_zeros fuel' (snd (is_get s)) else Some s
  end.

(** The digit loop of [getDec_]; the state is
    [(value, logLen, decimal)]. *)
Fixpoint read_digits (fuel : nat) (s : istream) (value : Z) (logLen : nat)
                     (decimal : list Z) : option (istream * Z * nat * list Z) :=
  match fuel with
  | O => None
  | S fuel' =>
      let (c, s) := is_peek s in
      if isdigit c
      then let (cursor, s) := is_get s in
           let value := wrap64 (value * 10 + cursor - code "0") in
           if (S logLen =? logBase)%nat
           then read_digits fuel' s 0 O (decimal ++ [wrap32 value])
           else read_digits fuel' s value (S logLen) decimal
      else Some (s, value, logLen, decimal)
  end.

(** The alignment loop, on the reverse iterators: [prev] is the chunk under
    [prev], [rest] the chunks from [next] on. *)
Fixpoint adjust_loop (shift len : Z) (prev : Z) (rest : list Z) : list Z :=
  match rest with
  | [] => [prev]
  | next :: rest' =>
      wrap32 (prev + wrap64 (next mod shift * len))
        :: adjust_loop shift len (next / shift) rest'
  end.

(** [if (logLen != 0) { decimal.push_back(value); ... }] *)
Definition adjust (decimal : list Z) (value : Z) (logLen : nat) : list Z :=
  if (logLen =? 0)%nat then decimal
  else let shift := nth (logBase - logLen) pow10 0 in
       let len := nth logLen pow10 0 in
       match rev (decimal ++ [wrap32 value]) with
       | [] => []
       | last :: rest => rev (adjust_loop shift len last rest)
       end.

(** The inner loop of the conversion to base [2^32]: one division of the
    chunks from [head] on, with [value] the running remainder. *)
Fixpoint conv_pass (chunks : list Z) (value : Z) : list Z * Z :=
  match chunks with
  | [] => ([], value)
  | d :: t =>
      let value := wrap64 (wrap64 (value * nth logBase pow10 0) + d) in
      let (t', r) := conv_pass t (value mod base) in
      (wrap32 (value / base) :: t', r)
  end.

(** [while (head + 1 != decimal.end())] and the final push; [h] is the
    chunk under [head], [rest] the chunks behind it. *)
Fixpoint convert (fuel : nat) (h : Z) (rest : list Z) (out : list Z)
  : option (list Z) :=
  match fuel with
  | O => None
  | S fuel' =>
      match rest with
      | [] => Some (if h =? 0 then out else out ++ [h])
      | _ :: _ =>
          match conv_pass rest h with
          | (h' :: rest', r) => convert fuel' h' rest' (out ++ [wrap32 r])
          | ([], _) => None
          end
      end
  end.

(** [BigInteger::getDec_] *)
Definition getDec_ (fuel : nat) (s : istream) (self : BigInteger)
  : option (istream * BigInteger) :=
  let (c, s) := is_peek s in
  if negb (isdigit c)
  then Some (is_clear_failbit s, mkBig [0] false)
  else
    match skip_zeros fuel s with
    | None => None
    | Some s =>
        match read_digits fuel s 0 O [] with
        | None => None
        | Some (s, value, logLen, decimal) =>
            match adjust decimal value logLen with
            | [] => Some (s, mkBig [0] false)
            | h :: rest =>
                match convert fuel h rest [] with
                | Some v => Some (s, mkBig v (negative self))
                | None => None
                end
            end
        end
    end.

(** [operator>>]; [cursor0] is what the uninitialised [cursor] holds. *)
Definition operator_in (fuel : nat) (cursor0 : ascii) (s : istream)
                       (self : BigInteger) : option (istream * BigInteger) :=
  let self := mkBig (value self) false in
  let (c, s) := is_extract_char s in
  let cursor := match c with Some c => c | None => cursor0 end in
  let (self, s) :=
    if (code cursor =? code "-") || (code cursor =? code "+")
    then (mkBig (value self) (code cursor =? code "-"), snd (is_get s))
    else (self, s) in
  let s := is_unget s in
  match iflags s with
  | Dec => getDec_ fuel s self
  | _ => Some (s, self)      (* not implemented *)
  end.

(** The inner loop of [putDec_]: one division by [10^9] of the limbs from
    [head] on, most-significant first. *)
Fixpoint div_pass (limbs : list Z) (value : Z) : list Z * Z :=
  match limbs with
  | [] => ([], value)
  | x :: t =>
      let value := Z.lor (wrap64 (value * base)) x in
      let (t', r) := div_pass t (value mod nth logBase pow10 0) in
      (wrap32 (value / nth logBase pow10 0) :: t', r)
  end.

(** [while (head + 1 != binary.rend())] and the final push; [limbs] is
    [binary] from [head] on, most-significant first. *)
Fixpoint putDec_loop (fuel : nat) (limbs : list Z) (decimal : list Z)
  : option (list Z) :=
  match fuel with
  | O => None
  | S fuel' =>
      match limbs with
      | [] => None
      | [h] => Some (if h =? 0 then decimal else decimal ++ [h])
      | _ :: _ :: _ =>
          let (limbs', r) := div_pass limbs 0 in
          putDec_loop fuel'
            (if hd 0 limbs' =? 0 then tl limbs' else limbs')
            (decimal ++ [wrap32 r])
      end
  end.

(** [for (int_fast8_t j = logBase - 1; j != 0; --j)
       if (x < pow10[j]) os.put('0'); else break;] *)
Fixpoint pad_loop (j : nat) (x : Z) (os : ostream) : ostream :=
  match j with
  | O => os
  | S j' => if x <? nth j pow10 0 then pad_loop j' x (os_put os "0") else os
  end.

(** The printing loop over [decimal.rbegin() .. decimal.rend()]. *)
Fixpoint print_chunks (chunks : list Z) (os : ostream) : ostream :=
  match chunks with
  | [] => os
  | x :: t => print_chunks t (os_put_uint32 (pad_loop (logBase - 1) x os) x)
  end.

(** [BigInteger::putDec_] *)
Definition putDec_ (fuel : nat) (os : ostream) (self : BigInteger)
  : option ostream :=
  if (length (value self) =? 1)%nat && (hd 0 (value self) =? 0)
  then Some (os_put os "0")
  else match putDec_loop fuel (rev (value self)) [] with
       | None => None
       | Some decimal =>
           match rev decimal with
           | [] => None                  (* decimal.back() of an empty vector *)
           | top :: others => Some (print_chunks others (os_put_uint32 os top))
           end
       end.

(** [operator<<] *)
Definition operator_out (fuel : nat) (os : ostream) (self : BigInteger)
  : option ostream :=
  let os := if negative self then os_put os "-" else os in
  match oflags os with
  | Dec => putDec_ fuel os self
  | _ => Some os              (* not implemented *)
  end.

(** * Specification-side definitions *)

(** The canonical zero of the data model: one limb [0], sign cleared. *)
Definition canonical_zero : BigInteger := mkBig [0] false.

(** The representation invariants: the limb sequence is not empty, its
    most-significant limb is zero only for the single limb [0], and a zero
    magnitude is not negative. *)
Definition normalized (b : BigInteger) : bool :=
  match rev (value b) with
  | [] => false
  | [top] => negb ((top =? 0) && negative b)
  | top :: _ :: _ => negb (top =? 0)
  end.

(** Lexicographic order on two limb sequences read from the front. *)
Fixpoint lex_lt (l1 l2 : list Z) : bool :=
  match l1, l2 with
  | _, [] => false
  | [], _ :: _ => true
  | x :: t1, y :: t2 => if x <? y then true else if y <? x then false else lex_lt t1 t2
  end.

(** Magnitude order as the data model states it: a longer normalized
    sequence is larger, equal lengths compare lexicographically from the
    most-significant limb. *)
Definition magnitude_lt (a b : BigInteger) : bool :=
  if negb (length (value a) =? length (value b))%nat
  then (length (value a) <? length (value b))%nat
  else lex_lt (rev (value a)) (rev (value b)).

(** The order of two values of equal sign: by magnitude, reversed when both
    are negative. *)
Definition spec_lt_same_sign (a b : BigInteger) : bool :=
  if negative a then magnitude_lt b a else magnitude_lt a b.

(** [a] added [k] times to a canonical zero. *)
Fixpoint repeated_sum (depth : nat) (past : Z) (a : BigInteger) (k : nat)
  : option BigInteger :=
  match k with
  | O => Some canonical_zero
  | S k' =>
      match repeated_sum depth past a k' with
      | Some s => operator_add depth past s a
      | None => None
      end
  end.

(** A fresh input stream in decimal mode holding [text], and an empty
    output stream in decimal mode. *)
Definition istream_of (text : list ascii) : istream :=
  mkIs [] text false false false Dec.
Definition ostream_empty : ostream := mkOs [] Dec.

(** The next token of an input: the characters after the leading white
    space, up to the next white space. *)
Fixpoint take_token (text : list ascii) : list ascii :=
  match text with
  | c :: r => if isspace (code c) then [] else c :: take_token r
  | [] => []
  end.
Definition next_token (text : list ascii) : list ascii :=
  take_token (snd (skipws [] text)).

(** A token without its optional sign. *)
Definition is_sign (c : ascii) : bool :=
  (code c =? code "-") || (code c =? code "+").
Definition unsigned_part (tok : list ascii) : list ascii :=
  match tok with
  | c :: t => if is_sign c then t else tok
  | [] => []
  end.
Definition no_digit (tok : list ascii) : bool :=
  forallb (fun c => negb (isdigit (code c))) tok.

(** Supported decimal text: an optional sign, then one or more digits. *)
Inductive sign : Type := NoSign | Plus | Minus.
Definition sign_text (sg : sign) : list ascii :=
  match sg with NoSign => [] | Plus => ["+"%char] | Minus => ["-"%char] end.
Definition all_digits (ds : list ascii) : bool :=
  forallb (fun c => isdigit (code c)) ds.

(** The canonical form of a supported text: no leading zeros, ["-"] only
    for a negative nonzero value, ["0"] for zero. *)
Fixpoint strip_zeros (ds : list ascii) : list ascii :=
  match ds with
  | c :: r => if code c =? code "0" then strip_zeros r else ds
  | [] => []
  end.
Definition canonicalForm (sg : sign) (ds : list ascii) : list ascii :=
  match strip_zeros ds with
  | [] => ["0"%char]
  | z => (match sg with Minus => ["-"%char] | _ => [] end) ++ z
  end.

(** What may follow a number in the input: nothing, or a character that is
    not a digit. *)
Definition ends_number (rest : list ascii) : bool :=
  match rest with
  | [] => true
  | c :: _ => negb (isdigit (code c))
  end.

(** * Further operators of the class *)

(** [operator++(BigInteger &, int)] and [operator--(BigInteger &, int)]:
    the value returned (a copy made before the update) and the updated
    operand. *)
Definition operator_post_inc (past : Z) (self : BigInteger)
  : BigInteger * BigInteger :=
  let result := self in (result, operator_inc past self).

Definition operator_post_dec (past : Z) (self : BigInteger)
  : BigInteger * BigInteger :=
  let result := self in (result, operator_dec past self).

(** [std::transform(first1, last1, first2, d_first, op)] with the first
    range [l] (also the destination) and the second range starting at the
    first limb of [r].  When [l] is longer than [r] the second operand is
    read behind the storage of [r]: [behind k] is the [k]-th word found
    there. *)
Fixpoint std_transform (op : Z -> Z -> Z) (behind : nat -> Z) (k : nat)
                       (l r : list Z) : list Z :=
  match l with
  | [] => []
  | x :: lt =>
      match r with
      | y :: rt => op x y :: std_transform op behind k lt rt
      | [] => op x (behind k) :: std_transform op behind (S k) lt []
      end
  end.

(** [operator&=]: [lhs] is cut to the size of [rhs] first, so the
    transform stays inside [rhs]. *)
Definition operator_and_assign (past : Z) (lhs rhs : BigInteger) : BigInteger :=
  let l := if (length (value rhs) <? length (value lhs))%nat
           then resize (value lhs) (length (value rhs)) else value lhs in
  trimLeadingZeros_ past
    (mkBig (std_transform Z.land (fun _ => 0) 0 l (value rhs))
           (negative lhs && negative rhs)).

(** [operator|=]: [lhs] is extended to the size of [rhs] when shorter, and
    left as it is when longer; there is no trimming. *)
Definition operator_or_assign (behind : nat -> Z) (lhs rhs : BigInteger)
  : BigInteger :=
  let l := if (length (value lhs) <? length (value rhs))%nat
           then resize (value lhs) (length (value rhs)) else value lhs in
  mkBig (std_transform Z.lor behind 0 l (value rhs))
        (negative lhs || negative rhs).

(** [operator^=]: the excess limbs of [rhs] are appended to [lhs], and the
    first [min] limbs are combined. *)
Definition operator_xor_assign (past : Z) (lhs rhs : BigInteger) : BigInteger :=
  let size := Nat.min (length (value lhs)) (length (value rhs)) in
  let l := if (length (value lhs) =? size)%nat
           then value lhs ++ skipn size (value rhs) else value lhs in
  trimLeadingZeros_ past
    (mkBig (std_transform Z.lxor (fun _ => 0) 0 (firstn size l) (value rhs)
              ++ skipn size l)
           (xorb (negative lhs) (negative rhs))).

(** [operator&], [operator|], [operator^]: the compound assignment on a
    copy. *)
Definition operator_and := operator_and_assign.
Definition operator_or := operator_or_assign.
Definition operator_xor := operator_xor_assign.

(** ** Values *)

(** Every limb fits a [uint32_t]. *)
Definition limb_ok (x : Z) : Prop := 0 <= x < 2 ^ 32.
Definition limbs_ok (v : list Z) : Prop := Forall limb_ok v.

(** The magnitude a limb sequence stands for, least-significant limb
    first, and the integer a [BigInteger] stands for. *)
Fixpoint magnitude (v : list Z) : Z :=
  match v with
  | [] => 0
  | x :: t => x + 2 ^ 32 * magnitude t
  end.

Definition to_Z (b : BigInteger) : Z :=
  if negative b then - magnitude (value b) else magnitude (value b).

(** ** The extended Euclidean loop of [modinv_]

    What the loop keeps for arguments [m0] and [n0]: the Bezout equations
    of [n] and [m], coprimality, alternating signs of [x] and [xp], and the
    size of the coefficients. *)
Definition euclid_inv (m0 n0 x y xp yp m n r q : Z) : Prop :=
  0 < m /\ 0 < n /\ r = m mod n /\ q = m / n
  /\ x * m0 + y * n0 = n /\ xp * m0 + yp * n0 = m
  /\ Z.gcd m n = 1
  /\ x * xp <= 0 /\ Z.abs xp * n + Z.abs x * m = n0.

(** ** Decimal text as numbers *)

(** The value of a digit character and of a digit string, most-significant
    digit first. *)
Definition digit_val (c : ascii) : Z := code c - code "0".
Definition dval (ds : list ascii) : Z :=
  fold_left (fun a c => a * 10 + digit_val c) ds 0.

(** The value of a sequence of digits in base [D], most-significant digit
    first, continuing from [acc]; and least-significant digit first. *)
Definition msval (D acc : Z) (l : list Z) : Z :=
  fold_left (fun a d => a * D + d) l acc.
Fixpoint lsval (D : Z) (l : list Z) : Z :=
  match l with
  | [] => 0
  | d :: t => d + D * lsval D t
  end.

(** The base of the decimal chunks, [pow10[logBase]]. *)
Definition chunk_base : Z := 1000000000.

(** An input stream in decimal mode with no state bit set. *)
Definition good_stream (before after : list ascii) : istream :=
  mkIs before after false false false Dec.

(** ** The transform as a sum *)

(** Congruence modulo [mod]. *)
Inductive cong (a b : Z) : Prop :=
  cong_intro : a mod mod_ = b mod mod_ -> cong a b.

(** [f 0 + ... + f (n - 1)], and powers with a natural exponent. *)
Fixpoint zsum (n : nat) (f : nat -> Z) : Z :=
  match n with
  | O => 0
  | S n' => zsum n' f + f n'
  end.
Definition zpow (x : Z) (e : nat) : Z := x ^ Z.of_nat e.

(** All entries are residues of [mod]. *)
Definition in_field (v : list Z) : Prop := Forall (fun x => 0 <= x < mod_) v.

(** The discrete Fourier transform of [v] at [zeta], reduced modulo [mod]:
    entry [k] is the sum of [v[m] * zeta^(k m)]. *)
Definition dft (zeta : Z) (v : list Z) (k : nat) : Z :=
  zsum (length v) (fun m => vget v m * zpow zeta (k * m)) mod mod_.

(** The reversal of the [t] low bits of [m]. *)
Fixpoint brev (t m : nat) : nat :=
  match t with
  | O => O
  | S t' => (brev t' (m / 2) + (m mod 2) * 2 ^ t')%nat
  end.

(** The two results of a butterfly, as the code computes them on unsigned
    numbers: sum and difference modulo [mod] for operands below [mod]. *)
Definition add_mod (a z : Z) : Z := if a + z <? mod_ then a + z else a + z - mod_.
Definition sub_mod (a z : Z) : Z := if a <? z then a + mod_ - z else a - z.

(** What one pass of the butterfly loops ([i] the half block size, [I] the
    stride in the table [w]) leaves at position [q]. *)
Definition stage_at (w : list Z) (i I : nat) (v : list Z) (q : nat) : Z :=
  let r := (q mod (2 * i))%nat in
  if (r <? i)%nat
  then add_mod (vget v q) ((vget v (q + i) * vget w (I * r)) mod mod_)
  else sub_mod (vget v (q - i)) ((vget v q * vget w (I * (r - i))) mod mod_).

(** All entries are below [B]. *)
Definition below (B : Z) (v : list Z) : Prop := Forall (fun x => 0 <= x < B) v.

(** [w] holds the powers of [zeta] as residues. *)
Definition is_table (zeta : Z) (w : list Z) : Prop :=
  forall k : nat, (k < length w)%nat ->
    0 <= vget w k < mod_ /\ cong (vget w k) (zpow zeta k).

(** Half the order of the multiplicative group, [(mod - 1) / 2]. *)
Definition half_order : Z := Z.shiftr mod_ 1.

(** The root of unity of the blocks of [2^t] entries inside a transform of
    [2^s] entries, and the transform of block [b] of the sequence [x]
    (taken in bit-reversed order) at that root. *)
Definition stage_root (zeta : Z) (s t : nat) : Z := zpow zeta (2 ^ (s - t)).
Definition block_dft (zeta : Z) (s t : nat) (x : nat -> Z) (b k : nat) : Z :=
  zsum (2 ^ t)
       (fun m => x (b * 2 ^ t + brev t m)%nat * zpow (stage_root zeta s t) (k * m)).

(** What the butterfly loops have established after [t] passes, on entries
    below [B]. *)
Definition stage_inv (B zeta : Z) (s t : nat) (x : nat -> Z) (v : list Z) : Prop :=
  length v = (2 ^ s)%nat /\ below B v
  /\ forall b k : nat, (b < 2 ^ (s - t))%nat -> (k < 2 ^ t)%nat ->
       cong (vget v (b * 2 ^ t + k)) (block_dft zeta s t x b k).

(** The root of unity [NTT_] computes for a transform of [2^logN] entries,
    and the factor its inverse transform scales by. *)
Definition unit_root (logN : nat) : Z :=
  match modpow_ 32 root (Z.shiftr mod_ (Z.of_nat logN)) with
  | Some g => g
  | None => 0
  end.
Definition scale_factor (logN : nat) : Z :=
  match modinv_ 3 (2 ^ Z.of_nat logN) mod_ with
  | Some inv => inv
  | None => 0
  end.

(** Coefficient [k] of the product of the polynomials with coefficient
    sequences [a] and [b]: the sum of [a[m] * b[k - m]]. *)
Definition conv (a b : list Z) (k : nat) : Z :=
  zsum (S k) (fun m => vget a m * vget b (k - m)).

(** * Normalization: what [trimLeadingZeros_] reads and returns *)

Lemma trim_loop_ext (rd rd' : nat -> Z) (len : nat) :
  (forall i, (i <= len)%nat -> rd i = rd' i) ->
  trim_loop rd len = trim_loop rd' len.
Proof.
  induction len as [|len IH]; intros E; simpl; [reflexivity|].
  rewrite (E (S len)) by lia.
  rewrite IH by (intros; apply E; lia). reflexivity.
Qed.

(** The word behind the storage matters only through being zero or not. *)
Lemma trim_loop_past (past : Z) (v : list Z) :
  trim_loop (vread past v) (length v)
  = trim_loop (vread (if past =? 0 then 0 else 1) v) (length v).
Proof.
  destruct (length v) as [|len] eqn:L; [reflexivity|].
  simpl. unfold vread at 1 3.
  rewrite !nth_overflow by lia.
  rewrite (trim_loop_ext (vread past v) (vread (if past =? 0 then 0 else 1) v) len).
  - destruct (past =? 0) eqn:E; [apply Z.eqb_eq in E; subst|]; reflexivity.
  - intros i Hi. unfold vread. apply nth_indep. lia.
Qed.

Lemma trimLeadingZeros_past (past : Z) (b : BigInteger) :
  trimLeadingZeros_ past b = trimLeadingZeros_ (if past =? 0 then 0 else 1) b.
Proof. unfold trimLeadingZeros_. rewrite trim_loop_past. reflexivity. Qed.

Lemma trim_loop_first_read (rd : nat -> Z) (len : nat) :
  hd_error (snd (trim_loop rd len)) = Some len.
Proof.
  destruct len as [|len]; simpl; [reflexivity|].
  destruct (rd (S len) =? 0); [destruct (trim_loop rd len)|]; reflexivity.
Qed.

(** When the word behind the storage is not zero the loop stops at once and
    the vector grows by a zero limb. *)
Lemma trimLeadingZeros_grows (past x : Z) (v : list Z) (neg : bool) :
  past <> 0 ->
  trimLeadingZeros_ past (mkBig (x :: v) neg) = mkBig ((x :: v) ++ [0]) neg.
Proof.
  intros Hp. unfold trimLeadingZeros_. cbn [value negative length trim_loop].
  unfold vread at 1. rewrite nth_overflow by (simpl; lia).
  apply Z.eqb_neq in Hp. rewrite Hp. cbn [fst].
  unfold resize. rewrite firstn_all2 by (simpl; lia).
  replace (S (length v) + 1 - length (x :: v))%nat with 1%nat by (simpl; lia).
  unfold eliminateNegativeZero_. cbn [value negative repeat].
  rewrite length_app. simpl length.
  replace (S (length v) + 1 =? 1)%nat with false
    by (symmetry; apply Nat.eqb_neq; lia).
  reflexivity.
Qed.

(** ** C8 *)

(** C8 (the code departs from the claim): for every non-empty limb vector
    the first limb index [trimLeadingZeros_] reads is [value.size()], one
    past the last limb, so the function does not stay in bounds; and when
    the word found there is not zero the vector returned ends in a zero
    limb. *)
Theorem C8_trimLeadingZeros_reads_past_the_end (past x : Z) (v : list Z) :
  hd_error (trimLeadingZeros_reads past (x :: v)) = Some (length (x :: v))
  /\ ~ (length (x :: v) < length (x :: v))%nat
  /\ (past <> 0 ->
      forall neg, value (trimLeadingZeros_ past (mkBig (x :: v) neg))
                  = (x :: v) ++ [0]).
Proof.
  split; [apply trim_loop_first_read|].
  split; [lia|].
  intros Hp neg. rewrite trimLeadingZeros_grows by assumption. reflexivity.
Qed.

(** * Comparison *)

(** ** C3 *)

(** C3 (the code departs from the claim): [a = 5 * 2^32 + 1] and
    [b = 6 * 2^32] are normalized and non-negative, the lexicographic order
    from the most-significant limb puts [a] before [b], and [operator<]
    answers [false]; for the negative pair [-(2^32)], [-1] the longer
    magnitude is answered to be the larger value. *)
Theorem C3_operator_lt_is_not_lexicographic :
  let a := BigInteger_of_int64 21474836481 in
  let b := BigInteger_of_int64 25769803776 in
  let c := BigInteger_of_int64 (-4294967296) in
  let d := BigInteger_of_int64 (-1) in
  value a = [1; 5] /\ value b = [0; 6]
  /\ normalized a = true /\ normalized b = true
  /\ negative a = negative b
  /\ spec_lt_same_sign a b = true /\ operator_lt a b = false
  /\ normalized c = true /\ normalized d = true /\ negative c = negative d
  /\ spec_lt_same_sign c d = true /\ operator_lt c d = false.
Proof. vm_compute. repeat split. Qed.

(** ** C4 *)

(** C4 (the code departs from the claim): for [a = 5 * 2^32 + 1] and
    [b = 6 * 2^32] none of [a < b], [a == b], [a > b] holds, and for
    [a = b = -1] all three hold. *)
Theorem C4_trichotomy_fails :
  let a := BigInteger_of_int64 21474836481 in
  let b := BigInteger_of_int64 25769803776 in
  let m := BigInteger_of_int64 (-1) in
  (operator_lt a b = false /\ operator_eq a b = false /\ operator_gt a b = false)
  /\ (operator_lt m m = true /\ operator_eq m m = true /\ operator_gt m m = true).
Proof. vm_compute. repeat split. Qed.

(** * Increment, decrement and NOT *)

(** ** C6 *)

(** C6 (the code departs from the claim): decrementing the canonical zero
    leaves the non-negative value [2^32 - 1] (or that value with a zero limb
    appended), and incrementing it again gives [2^32], which [operator==]
    tells apart from zero; this holds whatever word lies behind the
    storage. *)
Theorem C6_inc_dec_not_inverse_at_zero (past past' : Z) :
  negative (operator_dec past BigInteger_default) = false
  /\ hd 0 (value (operator_dec past BigInteger_default)) = 4294967295
  /\ value (operator_inc past' (operator_dec past BigInteger_default)) = [0; 1]
  /\ operator_eq (operator_inc past' (operator_dec past BigInteger_default))
                 BigInteger_default = false.
Proof.
  unfold operator_dec, BigInteger_default. cbn [negative negb value].
  rewrite trimLeadingZeros_past.
  destruct (past =? 0); vm_compute; repeat split.
Qed.

(** The other direction fails as well: [--(++a)] for [a = -1]. *)
Lemma dec_inc_not_inverse_at_minus_one (past past' : Z) :
  operator_eq (operator_dec past' (operator_inc past (BigInteger_of_int64 (-1))))
              (BigInteger_of_int64 (-1)) = false.
Proof.
  unfold operator_inc at 1.
  replace (negative (BigInteger_of_int64 (-1))) with true by reflexivity.
  cbn [negb]. rewrite trimLeadingZeros_past.
  destruct (past =? 0).
  - vm_compute (trimLeadingZeros_ _ _). unfold operator_dec. cbn [negative negb].
    rewrite trimLeadingZeros_past. destruct (past' =? 0); reflexivity.
  - vm_compute (trimLeadingZeros_ _ _). reflexivity.
Qed.

(** ** C7 *)

(** C7 (the code departs from the claim): [~(-1)] is not normalized and is
    not equal to the canonical zero, whatever word lies behind the storage:
    it is the single limb [0] with the sign flag set, or two zero limbs. *)
Theorem C7_not_of_minus_one_is_not_canonical (past : Z) :
  let r := operator_not past (BigInteger_of_int64 (-1)) in
  normalized r = false
  /\ operator_eq r canonical_zero = false
  /\ (r = mkBig [0] true \/ r = mkBig [0; 0] false).
Proof.
  unfold operator_not, operator_inc.
  replace (negative (BigInteger_of_int64 (-1))) with true by reflexivity.
  cbn [negb]. rewrite trimLeadingZeros_past.
  destruct (past =? 0); vm_compute; repeat split; auto.
Qed.

(** * Multiplication: sign and magnitude *)

Lemma operator_mul_assign_past (fuel : nat) (past : Z) (lhs rhs : BigInteger) :
  operator_mul_assign fuel past lhs rhs
  = operator_mul_assign fuel (if past =? 0 then 0 else 1) lhs rhs.
Proof.
  unfold operator_mul_assign.
  destruct (logN_loop fuel _ 0) as [logN|]; [|reflexivity].
  destruct (NTT_ fuel logN false _) as [l|]; [|reflexivity].
  destruct (NTT_ fuel logN false _) as [r|]; [|reflexivity].
  destruct (NTT_ fuel logN true _) as [l'|]; [|reflexivity].
  rewrite trimLeadingZeros_past. reflexivity.
Qed.

(** The sign flag after [*=] is the left operand's flag, cleared only by
    [eliminateNegativeZero_]; the right operand's flag is never read. *)
Lemma operator_mul_assign_sign (fuel : nat) (past : Z) (lhs rhs r : BigInteger) :
  operator_mul_assign fuel past lhs rhs = Some r ->
  negative r = negative lhs \/ (negative r = false /\ value r = [0]).
Proof.
  unfold operator_mul_assign.
  destruct (logN_loop fuel _ 0) as [logN|]; [|discriminate].
  destruct (NTT_ fuel logN false _) as [l|]; [|discriminate].
  destruct (NTT_ fuel logN false _) as [r0|]; [|discriminate].
  destruct (NTT_ fuel logN true _) as [l'|]; [|discriminate].
  intros H. injection H as <-.
  unfold trimLeadingZeros_, eliminateNegativeZero_. cbn [value negative].
  set (v := resize l' _).
  destruct ((length v =? 1)%nat && (hd 0 v =? 0)) eqn:E; cbn [value negative].
  - right. split; [reflexivity|].
    apply andb_prop in E. destruct E as [E1 E2].
    apply Nat.eqb_eq in E1. apply Z.eqb_eq in E2.
    destruct v as [|x [|y t]]; simpl in *; try discriminate. congruence.
  - left. reflexivity.
Qed.

Lemma operator_mul_assign_ignores_rhs_sign
      (fuel : nat) (past : Z) (lhs : BigInteger) (v : list Z) (s s' : bool) :
  operator_mul_assign fuel past lhs (mkBig v s)
  = operator_mul_assign fuel past lhs (mkBig v s').
Proof. reflexivity. Qed.

(** ** C5 *)

(** C5 (the code departs from the claim): [1 *= -1] returns with the sign
    flag cleared and a non-zero magnitude, although the exclusive-or of the
    operands' flags is set; this holds whatever word lies behind the
    storage. *)
Theorem C5_product_sign_is_not_xor (past : Z) :
  let a := BigInteger_of_int64 1 in
  let b := BigInteger_of_int64 (-1) in
  exists r, operator_mul_assign 64 past a b = Some r
            /\ negative r = false
            /\ hd 0 (value r) = 1
            /\ xorb (negative a) (negative b) = true.
Proof.
  intros a b. rewrite operator_mul_assign_past.
  destruct (past =? 0); vm_compute; eexists; repeat split.
Qed.

(** ** C1 *)

(** C1 (the code departs from the claim): for [a = 2^32 - 1] and [k = 1]
    the product [a * k] is the single limb [1073741822] (followed by zero
    limbs when the word behind the storage is not zero), while [a] added
    once to the canonical zero is [a]; [operator==] tells them apart. *)
Theorem C1_product_differs_from_repeated_sum (past past' : Z) :
  let a := BigInteger_of_int64 4294967295 in
  let k := BigInteger_of_int64 1 in
  exists r s, operator_mul 64 past a k = Some r
              /\ repeated_sum 2 past' a 1 = Some s
              /\ hd 0 (value r) = 1073741822
              /\ value s = [4294967295]
              /\ operator_eq r s = false.
Proof.
  intros a k. unfold operator_mul. rewrite operator_mul_assign_past.
  destruct (past =? 0); vm_compute; do 2 eexists; repeat split.
Qed.

(** The same defect without any limb at or above the modulus: [2^31 * 2]. *)
Lemma product_without_carry (past past' : Z) :
  let a := BigInteger_of_int64 2147483648 in
  let k := BigInteger_of_int64 2 in
  exists r s, operator_mul 64 past a k = Some r
              /\ repeated_sum 2 past' a 2 = Some s
              /\ hd 0 (value r) = 1073741823
              /\ value s = [0; 1]
              /\ operator_eq r s = false.
Proof.
  intros a k. unfold operator_mul. rewrite operator_mul_assign_past.
  destruct (past =? 0); vm_compute; do 2 eexists; repeat split.
Qed.

(** * Extraction of malformed input *)

Lemma skipws_head (before after b : list ascii) (c : ascii) (r : list ascii) :
  skipws before after = (b, c :: r) -> isspace (code c) = false.
Proof.
  revert before. induction after as [|x t IH]; intros before; simpl.
  - discriminate.
  - destruct (isspace (code x)) eqn:E.
    + apply IH.
    + intros H. injection H as _ -> _. exact E.
Qed.

Lemma isspace_not_digit (c : Z) : isspace c = true -> isdigit c = false.
Proof.
  unfold isspace, isdigit. intros H.
  apply orb_prop in H. destruct H as [H|H].
  - apply Z.eqb_eq in H. subst. reflexivity.
  - apply andb_prop in H. destruct H as [H1 H2].
    apply Z.leb_le in H1, H2. apply andb_false_iff. left. apply Z.leb_gt. lia.
Qed.

(** [getDec_] on a stream whose next character is not a digit, or which is
    not readable: canonical zero, and the state set to [failbit]. *)
Lemma getDec_fails (fuel : nat) (s : istream) (self : BigInteger) :
  isdigit (fst (is_peek s)) = false ->
  getDec_ fuel s self
  = Some (is_clear_failbit (snd (is_peek s)), mkBig [0] false).
Proof.
  intros H. unfold getDec_. destruct (is_peek s) as [c s']. simpl in H.
  rewrite H. reflexivity.
Qed.

(** ** C9 *)

(** C9: when the next token of the input, after its optional sign, holds no
    decimal digit, [operator>>] in decimal mode returns (for every loop
    bound and whatever the uninitialised [cursor] holds) with the value at
    the canonical zero, a single limb [0] with the sign flag cleared, and
    with the stream's [failbit] set. *)
Theorem C9_no_digit_yields_zero_and_failbit
        (fuel : nat) (cursor0 : ascii) (text : list ascii) (self : BigInteger) :
  no_digit (unsigned_part (next_token text)) = true ->
  exists s', operator_in fuel cursor0 (istream_of text) self
             = Some (s', mkBig [0] false)
             /\ failbit s' = true.
Proof.
  intros H. unfold operator_in, istream_of, is_extract_char.
  cbn [good failbit eofbit badbit orb negb consumed pending iflags value].
  unfold next_token in H.
  destruct (skipws [] text) as [b a] eqn:Hws. cbn [snd] in H.
  destruct a as [|c r].
  - (* nothing but white space: the extraction of [cursor] fails *)
    destruct ((code cursor0 =? code "-") || (code cursor0 =? code "+"));
      cbn; eexists; split; reflexivity.
  - pose proof (skipws_head _ _ _ _ _ Hws) as Hc.
    cbn [take_token] in H. rewrite Hc in H. cbn [unsigned_part] in H.
    unfold is_sign in H.
    destruct ((code c =? code "-") || (code c =? code "+")) eqn:Hs.
    + (* a sign: the character behind it is read and put back *)
      destruct r as [|c2 r2].
      * cbn. eexists; split; reflexivity.
      * assert (Hd : isdigit (code c2) = false).
        { cbn [take_token] in H. destruct (isspace (code c2)) eqn:E2.
          - apply isspace_not_digit; exact E2.
          - cbn [no_digit forallb] in H. apply andb_prop in H.
            destruct H as [H _]. apply negb_true_iff in H. exact H. }
        unfold is_get, is_unget.
        cbn [good failbit eofbit badbit orb negb consumed pending iflags snd].
        rewrite getDec_fails by (cbn; exact Hd).
        eexists; split; reflexivity.
    + (* no sign: the character itself is put back *)
      assert (Hd : isdigit (code c) = false).
      { cbn [no_digit forallb] in H. apply andb_prop in H.
        destruct H as [H _]. apply negb_true_iff in H. exact H. }
      unfold is_unget.
      cbn [good failbit eofbit badbit orb negb consumed pending iflags].
      rewrite getDec_fails by (cbn; exact Hd).
      eexists; split; reflexivity.
Qed.

Lemma C9_witness :
  no_digit (unsigned_part (next_token [" "; "-"; "a"; "b"; "c"; " "; "7"]%char)) = true
  /\ exists s', operator_in 0 "x"%char
                  (istream_of [" "; "-"; "a"; "b"; "c"; " "; "7"]%char)
                  (BigInteger_of_int64 5)
                = Some (s', mkBig [0] false) /\ failbit s' = true.
Proof.
  split; [reflexivity|].
  apply (C9_no_digit_yields_zero_and_failbit
           0 "x"%char [" "; "-"; "a"; "b"; "c"; " "; "7"]%char
           (BigInteger_of_int64 5)).
  reflexivity.
Defined.

(** * Values: constructor, equality and order *)

Lemma base_val : base = 2 ^ 32.
Proof. reflexivity. Qed.

Lemma wrap32_id (x : Z) : 0 <= x < 2 ^ 32 -> wrap32 x = x.
Proof. intros H. unfold wrap32. apply Z.mod_small. exact H. Qed.

Lemma wrap64_id (x : Z) : 0 <= x < 2 ^ 64 -> wrap64 x = x.
Proof. intros H. unfold wrap64. apply Z.mod_small. exact H. Qed.

Lemma wrap32_ok (x : Z) : limb_ok (wrap32 x).
Proof. unfold limb_ok, wrap32. apply Z.mod_pos_bound. lia. Qed.

Lemma magnitude_nonneg (v : list Z) : limbs_ok v -> 0 <= magnitude v.
Proof.
  induction 1 as [|x t Hx _ IH]; cbn [magnitude]; [lia|].
  unfold limb_ok in Hx. lia.
Qed.

Lemma magnitude_bound (v : list Z) :
  limbs_ok v -> magnitude v < 2 ^ (32 * Z.of_nat (length v)).
Proof.
  induction 1 as [|x t Hx _ IH]; cbn [magnitude length]; [simpl; lia|].
  rewrite Nat2Z.inj_succ.
  replace (32 * Z.succ (Z.of_nat (length t))) with (32 + 32 * Z.of_nat (length t)) by lia.
  rewrite Z.pow_add_r by lia. unfold limb_ok in Hx. lia.
Qed.

Lemma magnitude_app (v w : list Z) :
  magnitude (v ++ w) = magnitude v + 2 ^ (32 * Z.of_nat (length v)) * magnitude w.
Proof.
  induction v as [|x t IH]; cbn [magnitude length app].
  - change (Z.of_nat 0) with 0. rewrite Z.mul_0_r, Z.pow_0_r. lia.
  - rewrite IH. rewrite Nat2Z.inj_succ.
    replace (32 * Z.succ (Z.of_nat (length t))) with (32 + 32 * Z.of_nat (length t)) by lia.
    rewrite Z.pow_add_r by lia. lia.
Qed.

Lemma magnitude_repeat_0 (n : nat) : magnitude (repeat 0 n) = 0.
Proof. induction n as [|n IH]; cbn [repeat magnitude]; lia. Qed.

Lemma limbs_ok_app (v w : list Z) : limbs_ok v -> limbs_ok w -> limbs_ok (v ++ w).
Proof. intros Hv Hw. apply Forall_app. split; assumption. Qed.

Lemma limbs_ok_repeat_0 (n : nat) : limbs_ok (repeat 0 n).
Proof.
  induction n as [|n IH]; cbn [repeat]; constructor; try assumption.
  unfold limb_ok. lia.
Qed.

(** ** X1: the constructor *)

(** X1: for every [int64_t] value [v] the constructor builds a normalized
    value with limbs in range that stands for [v]. *)
Theorem X1_constructor_exact (v : Z) :
  - 2 ^ 63 <= v < 2 ^ 63 ->
  to_Z (BigInteger_of_int64 v) = v
  /\ normalized (BigInteger_of_int64 v) = true
  /\ limbs_ok (value (BigInteger_of_int64 v)).
Proof.
  intros Hv. unfold BigInteger_of_int64. rewrite base_val.
  assert (Hqr : exists q r, Z.quot v (2 ^ 32) = q /\ Z.rem v (2 ^ 32) = r
                 /\ v = 2 ^ 32 * q + r /\ Z.abs r < 2 ^ 32 /\ Z.abs q < 2 ^ 32
                 /\ (v < 0 -> q <= 0 /\ r <= 0) /\ (0 <= v -> 0 <= q /\ 0 <= r)).
  { destruct (Z.le_gt_cases 0 v) as [Hp|Hn].
    - exists (v / 2 ^ 32), (v mod 2 ^ 32).
      rewrite Z.quot_div_nonneg, Z.rem_mod_nonneg by lia.
      pose proof (Z.div_mod v (2 ^ 32) ltac:(lia)).
      pose proof (Z.mod_pos_bound v (2 ^ 32) ltac:(lia)).
      repeat split; try lia.
    - exists (- ((- v) / 2 ^ 32)), (- ((- v) mod 2 ^ 32)).
      assert (Eq : Z.quot v (2 ^ 32) = - ((- v) / 2 ^ 32)).
      { rewrite <- Z.quot_div_nonneg by lia. rewrite Z.quot_opp_l by lia. lia. }
      assert (Er : Z.rem v (2 ^ 32) = - ((- v) mod 2 ^ 32)).
      { rewrite <- Z.rem_mod_nonneg by lia. rewrite Z.rem_opp_l by lia. lia. }
      rewrite Eq, Er.
      pose proof (Z.div_mod (- v) (2 ^ 32) ltac:(lia)).
      pose proof (Z.mod_pos_bound (- v) (2 ^ 32) ltac:(lia)).
      repeat split; try lia. }
  destruct Hqr as (q & r & -> & -> & Hrec & Hr & Hq & Hneg & Hpos).
  rewrite (wrap32_id (Z.abs r)) by lia.
  rewrite (wrap32_id (Z.abs q)) by lia.
  unfold to_Z, normalized.
  destruct (q =? 0) eqn:Eq; [apply Z.eqb_eq in Eq|apply Z.eqb_neq in Eq];
    cbn [negative value magnitude rev app];
    destruct (v <? 0) eqn:Es;
    [apply Z.ltb_lt in Es|apply Z.ltb_ge in Es|apply Z.ltb_lt in Es|apply Z.ltb_ge in Es].
  - split; [lia|]. split.
    + replace (Z.abs r =? 0) with false; [reflexivity|].
      symmetry. apply Z.eqb_neq. lia.
    + repeat constructor; unfold limb_ok; lia.
  - split; [lia|]. split.
    + rewrite andb_false_r. reflexivity.
    + repeat constructor; unfold limb_ok; lia.
  - split; [lia|]. split.
    + replace (Z.abs q =? 0) with false; [reflexivity|].
      symmetry. apply Z.eqb_neq. lia.
    + repeat constructor; unfold limb_ok; lia.
  - split; [lia|]. split.
    + replace (Z.abs q =? 0) with false; [reflexivity|].
      symmetry. apply Z.eqb_neq. lia.
    + repeat constructor; unfold limb_ok; lia.
Qed.

Lemma X1_witness :
  - 2 ^ 63 <= -9223372036854775808 < 2 ^ 63
  /\ to_Z (BigInteger_of_int64 (-9223372036854775808)) = -9223372036854775808
  /\ normalized (BigInteger_of_int64 (-9223372036854775808)) = true
  /\ limbs_ok (value (BigInteger_of_int64 (-9223372036854775808))).
Proof.
  split; [lia|].
  apply (X1_constructor_exact (-9223372036854775808)). lia.
Defined.

(** ** X2: equality *)

Lemma std_equal_eqb (l1 l2 : list Z) :
  length l1 = length l2 -> (std_equal Z.eqb l1 l2 = true <-> l1 = l2).
Proof.
  revert l2. induction l1 as [|x t IH]; intros [|y u] L; simpl in L; try discriminate.
  - split; reflexivity.
  - cbn [std_equal]. destruct (Z.eqb_spec x y) as [->|Hne].
    + rewrite IH by lia. split; [intros ->; reflexivity|intros H; injection H; auto].
    + split; [discriminate|intros H; injection H; intros; contradiction].
Qed.

Lemma operator_eq_iff (a b : BigInteger) :
  operator_eq a b = true <-> a = b.
Proof.
  destruct a as [va na], b as [vb nb]. unfold operator_eq. cbn [value negative].
  destruct (Bool.eqb na nb) eqn:En; cbn [negb].
  - apply Bool.eqb_prop in En. subst nb.
    destruct (Nat.eqb_spec (length va) (length vb)) as [L|L]; cbn [negb].
    + rewrite std_equal_eqb by exact L.
      split; [intros ->; reflexivity|intros H; injection H; auto].
    + split; [discriminate|intros H; injection H; intros; subst; contradiction].
  - split; [discriminate|]. intros H. injection H as _ ->.
    rewrite Bool.eqb_reflx in En. discriminate.
Qed.

(** X2: [operator==] answers [true] exactly when the two values have the
    same sign flag and the same limb sequence. *)
Theorem X2_operator_eq_is_structural (a b : BigInteger) :
  operator_eq a b = true <-> a = b.
Proof. apply operator_eq_iff. Qed.

(** ** X3, X4: order *)

Lemma BigInteger_of_int64_small (x : Z) :
  - 2 ^ 32 < x < 2 ^ 32 ->
  BigInteger_of_int64 x = mkBig [Z.abs x] (x <? 0).
Proof.
  intros Hx. unfold BigInteger_of_int64. rewrite base_val.
  assert (Hq : Z.quot x (2 ^ 32) = 0) by (apply Z.quot_small_iff; lia).
  assert (Hr : Z.rem x (2 ^ 32) = x) by (apply Z.rem_small_iff; lia).
  rewrite Hq, Hr. cbn [Z.eqb]. rewrite wrap32_id by lia. reflexivity.
Qed.

(** X3: on integers of magnitude below [2^32] (one limb) [operator<] and
    [operator>] agree with the integer order, except that a negative value
    compares smaller than itself. *)
Theorem X3_one_limb_order (x y : Z) :
  - 2 ^ 32 < x < 2 ^ 32 -> - 2 ^ 32 < y < 2 ^ 32 ->
  x <> y \/ 0 <= x ->
  operator_lt (BigInteger_of_int64 x) (BigInteger_of_int64 y) = (x <? y)
  /\ operator_gt (BigInteger_of_int64 x) (BigInteger_of_int64 y) = (y <? x)
  /\ operator_eq (BigInteger_of_int64 x) (BigInteger_of_int64 y) = (x =? y).
Proof.
  intros Hx Hy Hd.
  rewrite !BigInteger_of_int64_small by assumption.
  unfold operator_gt, operator_lt, operator_eq.
  cbn [value negative length rev app std_equal Nat.eqb negb].
  destruct (Z.ltb_spec x 0), (Z.ltb_spec y 0); cbn [Bool.eqb negb xorb];
    destruct (Z.ltb_spec (Z.abs x) (Z.abs y)), (Z.ltb_spec (Z.abs y) (Z.abs x)),
             (Z.eqb_spec (Z.abs x) (Z.abs y)), (Z.ltb_spec x y), (Z.ltb_spec y x),
             (Z.eqb_spec x y);
    cbn [xorb negb]; try lia; repeat split; reflexivity.
Qed.

Lemma X3_witness :
  - 2 ^ 32 < -7 < 2 ^ 32 /\ - 2 ^ 32 < 4294967295 < 2 ^ 32
  /\ (-7 <> 4294967295 \/ 0 <= -7)
  /\ operator_lt (BigInteger_of_int64 (-7)) (BigInteger_of_int64 4294967295)
     = (-7 <? 4294967295)
  /\ operator_gt (BigInteger_of_int64 (-7)) (BigInteger_of_int64 4294967295)
     = (4294967295 <? -7)
  /\ operator_eq (BigInteger_of_int64 (-7)) (BigInteger_of_int64 4294967295)
     = (-7 =? 4294967295).
Proof.
  split; [lia|]. split; [lia|]. split; [left; lia|].
  apply (X3_one_limb_order (-7) 4294967295); [lia|lia|left; lia].
Defined.

Lemma std_equal_ltb_irrefl (x : Z) (v : list Z) :
  std_equal Z.ltb (x :: v) (x :: v) = false.
Proof. cbn [std_equal]. rewrite Z.ltb_irrefl. reflexivity. Qed.

(** X4: a value (with at least one limb) compares smaller than itself
    exactly when it is negative: [operator<] is irreflexive on the
    non-negative values only, and [a <= a], [a >= a] fail for every
    negative [a]. *)
Theorem X4_operator_lt_on_equal_operands (x : Z) (v : list Z) (neg : bool) :
  let a := mkBig (x :: v) neg in
  operator_lt a a = neg
  /\ operator_le a a = negb neg
  /\ operator_ge a a = negb neg.
Proof.
  intros a. assert (H : operator_lt a a = neg).
  { unfold operator_lt, a. cbn [value negative].
    rewrite Bool.eqb_reflx, Nat.eqb_refl. cbn [negb].
    destruct (rev (x :: v)) as [|y w] eqn:E.
    - apply (f_equal (@length Z)) in E. rewrite length_rev in E. discriminate.
    - rewrite std_equal_ltb_irrefl. apply xorb_false_r. }
  unfold operator_le, operator_ge. rewrite H. auto.
Qed.

(** * Normalization under every word behind the storage *)

Lemma trim_loop_spec (rd : nat -> Z) (n : nat) :
  let r := fst (trim_loop rd n) in
  (r <= n)%nat
  /\ (forall i, (r < i <= n)%nat -> rd i = 0)
  /\ (r = O \/ rd r <> 0).
Proof.
  induction n as [|n IH]; cbn [trim_loop].
  - cbn [fst]. repeat split; [lia|intros; lia|left; reflexivity].
  - destruct (Z.eqb_spec (rd (S n)) 0) as [Hz|Hnz].
    + destruct (trim_loop rd n) as [r reads]. cbn [fst] in *.
      destruct IH as (H1 & H2 & H3). repeat split; [lia| |exact H3].
      intros i Hi. destruct (Nat.eq_dec i (S n)) as [->|Hne]; [exact Hz|].
      apply H2. lia.
    + cbn [fst]. repeat split; [lia|intros; lia|right; exact Hnz].
Qed.

Lemma magnitude_zeros (v : list Z) :
  (forall i, (i < length v)%nat -> nth i v 0 = 0) -> magnitude v = 0.
Proof.
  induction v as [|x t IH]; intros H; cbn [magnitude]; [reflexivity|].
  rewrite IH.
  - pose proof (H O ltac:(simpl; lia)) as H0. simpl in H0. lia.
  - intros i Hi. apply (H (S i)). simpl. lia.
Qed.

Lemma magnitude_firstn (v : list Z) (m : nat) :
  (forall i, (m <= i < length v)%nat -> nth i v 0 = 0) ->
  magnitude (firstn m v) = magnitude v.
Proof.
  intros H. rewrite <- (firstn_skipn m v) at 2. rewrite magnitude_app.
  rewrite (magnitude_zeros (skipn m v)); [lia|].
  intros i Hi. rewrite length_skipn in Hi. rewrite nth_skipn. apply H. lia.
Qed.

Lemma magnitude_resize (v : list Z) (m : nat) :
  (forall i, (m <= i < length v)%nat -> nth i v 0 = 0) ->
  magnitude (resize v m) = magnitude v.
Proof.
  intros H. unfold resize. rewrite magnitude_app, magnitude_repeat_0.
  rewrite magnitude_firstn by exact H. lia.
Qed.

Lemma limbs_ok_firstn (v : list Z) (m : nat) : limbs_ok v -> limbs_ok (firstn m v).
Proof.
  revert m. induction v as [|x t IH]; intros [|m] H; cbn [firstn];
    try constructor.
  - inversion H; assumption.
  - apply IH. inversion H; assumption.
Qed.

Lemma limbs_ok_skipn (v : list Z) (m : nat) : limbs_ok v -> limbs_ok (skipn m v).
Proof.
  revert m. induction v as [|x t IH]; intros [|m] H; cbn [skipn];
    try assumption.
  apply IH. inversion H; assumption.
Qed.

Lemma firstn_snoc_nth (v : list Z) (n : nat) (d : Z) :
  (n < length v)%nat -> firstn (S n) v = firstn n v ++ [nth n v d].
Proof.
  revert n. induction v as [|x t IH]; intros n H; [simpl in H; lia|].
  destruct n as [|n]; [reflexivity|].
  cbn [firstn nth app]. f_equal. apply IH. simpl in H. lia.
Qed.

Lemma limbs_ok_resize (v : list Z) (m : nat) : limbs_ok v -> limbs_ok (resize v m).
Proof.
  intros H. unfold resize. apply limbs_ok_app.
  - apply limbs_ok_firstn. exact H.
  - apply limbs_ok_repeat_0.
Qed.

Lemma length_resize (v : list Z) (m : nat) : length (resize v m) = m.
Proof. unfold resize. rewrite length_app, length_firstn, repeat_length. lia. Qed.

Lemma eliminateNegativeZero_value (b : BigInteger) :
  value (eliminateNegativeZero_ b) = value b.
Proof.
  unfold eliminateNegativeZero_.
  destruct ((length (value b) =? 1)%nat && (hd 0 (value b) =? 0)); reflexivity.
Qed.

Lemma eliminateNegativeZero_to_Z (b : BigInteger) :
  to_Z (eliminateNegativeZero_ b) = to_Z b.
Proof.
  unfold eliminateNegativeZero_.
  destruct ((length (value b) =? 1)%nat && (hd 0 (value b) =? 0)) eqn:E;
    [|reflexivity].
  apply andb_prop in E. destruct E as [E1 E2].
  apply Nat.eqb_eq in E1. apply Z.eqb_eq in E2.
  destruct b as [[|x [|y t]] neg]; simpl in *; try discriminate.
  subst x. unfold to_Z. cbn [negative value magnitude]. destruct neg; lia.
Qed.

Lemma normalized_snoc (l : list Z) (top : Z) (neg : bool) :
  normalized (mkBig (l ++ [top]) neg)
  = match l with
    | [] => negb ((top =? 0) && neg)
    | _ :: _ => negb (top =? 0)
    end.
Proof.
  unfold normalized. cbn [value negative]. rewrite rev_app_distr. cbn [rev app].
  destruct l as [|x t]; [reflexivity|].
  destruct (rev (x :: t)) as [|y w] eqn:E; [|reflexivity].
  apply (f_equal (@length Z)) in E. rewrite length_rev in E. discriminate.
Qed.

Lemma normalized_eliminate (l : list Z) (top : Z) (neg : bool) :
  (l = [] \/ top <> 0) ->
  normalized (eliminateNegativeZero_ (mkBig (l ++ [top]) neg)) = true.
Proof.
  intros H. unfold eliminateNegativeZero_. cbn [value negative].
  destruct l as [|x t].
  - cbn [app length hd Nat.eqb andb].
    destruct (Z.eqb_spec top 0) as [->|Hne].
    + reflexivity.
    + unfold normalized. cbn [value negative rev app].
      apply Z.eqb_neq in Hne. rewrite Hne. reflexivity.
  - destruct H as [H|H]; [discriminate|].
    replace (length ((x :: t) ++ [top]) =? 1)%nat with false
      by (symmetry; apply Nat.eqb_neq; rewrite length_app; simpl; lia).
    cbn [andb]. rewrite normalized_snoc.
    apply Z.eqb_neq in H. rewrite H. reflexivity.
Qed.

Lemma trimLeadingZeros_spec (past : Z) (b : BigInteger) :
  value (trimLeadingZeros_ past b) <> []
  /\ to_Z (trimLeadingZeros_ past b) = to_Z b
  /\ (limbs_ok (value b) -> limbs_ok (value (trimLeadingZeros_ past b)))
  /\ (past = 0 -> value b <> [] -> normalized (trimLeadingZeros_ past b) = true).
Proof.
  unfold trimLeadingZeros_.
  pose proof (trim_loop_spec (vread past (value b)) (length (value b))) as Hs.
  set (r := fst (trim_loop (vread past (value b)) (length (value b)))) in *.
  cbn zeta in Hs. destruct Hs as (Hr & Hz & Hnz).
  assert (Hzero : forall i, (r + 1 <= i < length (value b))%nat ->
                            nth i (value b) 0 = 0).
  { intros i Hi. rewrite <- (Hz i) by lia. unfold vread. apply nth_indep. lia. }
  split; [|split; [|split]].
  - rewrite eliminateNegativeZero_value. cbn [value].
    intros E. apply (f_equal (@length Z)) in E. rewrite length_resize in E.
    simpl in E. lia.
  - rewrite eliminateNegativeZero_to_Z. unfold to_Z. cbn [negative value].
    rewrite magnitude_resize by exact Hzero. reflexivity.
  - intros Hok. rewrite eliminateNegativeZero_value. cbn [value].
    apply limbs_ok_resize. exact Hok.
  - intros Hp Hne.
    assert (Hlt : (r < length (value b))%nat).
    { destruct (Nat.eq_dec r (length (value b))) as [E|E]; [|lia].
      destruct Hnz as [H0|Hn].
      - destruct (value b); [contradiction|simpl in *; lia].
      - exfalso. apply Hn. rewrite E. unfold vread.
        rewrite nth_overflow by lia. exact Hp. }
    unfold resize. replace (r + 1 - length (value b))%nat with O by lia.
    cbn [repeat]. rewrite app_nil_r.
    replace (r + 1)%nat with (S r) by lia.
    rewrite (firstn_snoc_nth _ _ 0) by exact Hlt.
    apply normalized_eliminate.
    destruct Hnz as [H0|Hn].
    + left. rewrite H0. reflexivity.
    + right. intros E. apply Hn. unfold vread.
      rewrite (nth_indep _ past 0) by exact Hlt. exact E.
Qed.

(** ** X5 *)

(** X5: whatever word lies behind the storage, [trimLeadingZeros_] returns
    a non-empty limb sequence that stands for the same integer and keeps
    the limbs in range; when that word is zero and the vector is not empty,
    the result is normalized. *)
Theorem X5_trimLeadingZeros_keeps_the_value (past : Z) (b : BigInteger) :
  value (trimLeadingZeros_ past b) <> []
  /\ to_Z (trimLeadingZeros_ past b) = to_Z b
  /\ (limbs_ok (value b) -> limbs_ok (value (trimLeadingZeros_ past b)))
  /\ (past = 0 -> value b <> [] -> normalized (trimLeadingZeros_ past b) = true).
Proof. apply trimLeadingZeros_spec. Qed.

(** * Increment and decrement as integer operations *)

Lemma pow32_succ (n : nat) :
  2 ^ (32 * Z.of_nat (S n)) = 2 ^ 32 * 2 ^ (32 * Z.of_nat n).
Proof.
  rewrite Nat2Z.inj_succ.
  replace (32 * Z.succ (Z.of_nat n)) with (32 + 32 * Z.of_nat n) by lia.
  apply Z.pow_add_r; lia.
Qed.

Lemma pow32_pos (n : nat) : 0 < 2 ^ (32 * Z.of_nat n).
Proof. apply Z.pow_pos_nonneg; lia. Qed.

Lemma lnot32_val (x : Z) : 0 <= x < 2 ^ 32 -> lnot32 x = 2 ^ 32 - 1 - x.
Proof.
  intros H. unfold lnot32, wrap32, Z.lnot.
  symmetry. apply (Z.mod_unique _ _ (-1)); lia.
Qed.

Lemma wrap32_succ (x : Z) :
  limb_ok x -> wrap32 (x + 1) = if x =? 2 ^ 32 - 1 then 0 else x + 1.
Proof.
  unfold limb_ok. intros H. destruct (Z.eqb_spec x (2 ^ 32 - 1)) as [->|Hne].
  - reflexivity.
  - apply wrap32_id. lia.
Qed.

Lemma wrap32_pred (x : Z) :
  limb_ok x -> wrap32 (x - 1) = if x =? 0 then 2 ^ 32 - 1 else x - 1.
Proof.
  unfold limb_ok. intros H. destruct (Z.eqb_spec x 0) as [->|Hne].
  - reflexivity.
  - apply wrap32_id. lia.
Qed.

(** The carry ripple: either it leaves the vector (every limb wrapped to
    zero, the last limb written is zero) or the magnitude grew by one
    within the vector (the last limb written is not zero). *)
Lemma inc_loop_spec (v : list Z) :
  limbs_ok v ->
  let v' := fst (inc_loop v) in
  let i := snd (inc_loop v) in
  length v' = length v /\ limbs_ok v'
  /\ ((magnitude v' = 0 /\ magnitude v + 1 = 2 ^ (32 * Z.of_nat (length v))
       /\ i = length v /\ nth (i - 1) v' 0 = 0)
      \/ (magnitude v' = magnitude v + 1 /\ nth (i - 1) v' 0 <> 0
          /\ (1 <= i <= length v)%nat)).
Proof.
  induction 1 as [|x t Hx Ht IH]; cbn [inc_loop].
  - cbn. repeat split; [constructor|]. left. repeat split; reflexivity.
  - rewrite (wrap32_succ x Hx).
    destruct (Z.eqb_spec x (2 ^ 32 - 1)) as [->|Hne]; cbn [Z.eqb].
    + destruct (inc_loop t) as [t' n]. cbn [fst snd] in *.
      destruct IH as (HL & Hok & Hc).
      cbn [length magnitude]. split; [lia|].
      split; [constructor; [unfold limb_ok; lia|exact Hok]|].
      rewrite pow32_succ.
      destruct Hc as [(M0 & M1 & Hi & Hn)|(M1 & Hn & Hi)].
      * left. repeat split; try lia.
        replace (S n - 1)%nat with n by lia. subst n.
        destruct t as [|y u].
        -- reflexivity.
        -- cbn [length] in *. destruct t' as [|y' u']; [discriminate|].
           cbn [nth]. replace (S (length u) - 1)%nat with (length u) in Hn by lia.
           exact Hn.
      * right. repeat split; try lia.
        replace (S n - 1)%nat with n by lia.
        destruct n as [|n]; [lia|]. cbn [nth].
        replace (S n - 1)%nat with n in Hn by lia. exact Hn.
    + unfold limb_ok in Hx.
      replace (x + 1 =? 0) with false by (symmetry; apply Z.eqb_neq; lia).
      cbn [fst snd length magnitude nth]. split; [reflexivity|].
      split; [constructor; [unfold limb_ok; lia|exact Ht]|].
      right. repeat split; try lia. cbn [Nat.sub]. lia.
Qed.

Lemma ripple_up_spec (v : list Z) :
  limbs_ok v ->
  magnitude (ripple_up v) = magnitude v + 1
  /\ limbs_ok (ripple_up v)
  /\ (length v <= length (ripple_up v))%nat
  /\ (length (ripple_up v) = S (length v) ->
      magnitude v + 1 = 2 ^ (32 * Z.of_nat (length v))).
Proof.
  intros Hok. unfold ripple_up.
  pose proof (inc_loop_spec v Hok) as H. cbn zeta in H.
  destruct (inc_loop v) as [v' i]. cbn [fst snd] in H.
  destruct H as (HL & Hok' & [(M0 & M1 & Hi & Hn)|(M1 & Hn & Hi)]).
  - rewrite Hn. cbn [Z.eqb]. rewrite magnitude_app, M0. cbn [magnitude].
    rewrite HL. rewrite length_app. cbn [length].
    repeat split; try lia.
    apply limbs_ok_app; [exact Hok'|]. repeat constructor; unfold limb_ok; lia.
  - apply Z.eqb_neq in Hn. rewrite Hn.
    repeat split; try assumption; lia.
Qed.

Lemma dec_loop_spec (v : list Z) :
  limbs_ok v -> 1 <= magnitude v ->
  length (fst (dec_loop v)) = length v
  /\ limbs_ok (fst (dec_loop v))
  /\ magnitude (fst (dec_loop v)) = magnitude v - 1.
Proof.
  induction 1 as [|x t Hx Ht IH]; cbn [dec_loop magnitude]; intros Hm.
  - lia.
  - rewrite (wrap32_pred x Hx).
    destruct (Z.eqb_spec x 0) as [->|Hne].
    + rewrite lnot32_val by lia.
      replace (2 ^ 32 - 1 - (2 ^ 32 - 1) =? 0) with true by reflexivity.
      destruct (dec_loop t) as [t' n]. cbn [fst] in *.
      destruct IH as (HL & Hok & M); [lia|].
      cbn [length magnitude]. repeat split; try lia.
      constructor; [unfold limb_ok; lia|exact Hok].
    + unfold limb_ok in Hx. rewrite lnot32_val by lia.
      replace (2 ^ 32 - 1 - (x - 1) =? 0) with false
        by (symmetry; apply Z.eqb_neq; lia).
      cbn [fst length magnitude]. repeat split; try lia.
      constructor; [unfold limb_ok; lia|exact Ht].
Qed.

(** ** Normalized values by their magnitude *)

Lemma magnitude_snoc_bounds (l : list Z) (top : Z) :
  limbs_ok (l ++ [top]) ->
  (top <> 0 <-> 2 ^ (32 * Z.of_nat (length l)) <= magnitude (l ++ [top])).
Proof.
  intros H. apply Forall_app in H. destruct H as [Hl Ht].
  inversion Ht as [|? ? Htop _]; subst. unfold limb_ok in Htop.
  rewrite magnitude_app. cbn [magnitude].
  pose proof (magnitude_nonneg l Hl). pose proof (magnitude_bound l Hl).
  pose proof (pow32_pos (length l)). split; intros; nia.
Qed.

Lemma snoc_cases (v : list Z) : v = [] \/ exists l top, v = l ++ [top].
Proof.
  destruct v as [|x t]; [left; reflexivity|right].
  exists (removelast (x :: t)), (last (x :: t) 0).
  apply app_removelast_last. discriminate.
Qed.

(** A positive magnitude is normalized exactly when it fills its top limb. *)
Lemma normalized_positive (v : list Z) (neg : bool) :
  limbs_ok v -> 0 < magnitude v ->
  (normalized (mkBig v neg) = true
   <-> 2 ^ (32 * Z.of_nat (length v - 1)) <= magnitude v).
Proof.
  intros Hok Hm. destruct (snoc_cases v) as [->|(l & top & ->)].
  - cbn in Hm. lia.
  - rewrite normalized_snoc. rewrite length_app. cbn [length].
    replace (length l + 1 - 1)%nat with (length l) by lia.
    rewrite <- (magnitude_snoc_bounds l top Hok).
    destruct l as [|x t].
    + cbn [app magnitude] in Hm.
      assert (top <> 0) by lia.
      replace (top =? 0) with false by (symmetry; apply Z.eqb_neq; assumption).
      cbn. split; auto.
    + destruct (Z.eqb_spec top 0); cbn; split; intros; auto; try discriminate;
        try contradiction.
Qed.

(** A normalized value of magnitude zero is the canonical zero. *)
Lemma normalized_zero (v : list Z) (neg : bool) :
  limbs_ok v -> magnitude v = 0 -> normalized (mkBig v neg) = true ->
  v = [0] /\ neg = false.
Proof.
  intros Hok Hm Hn. destruct (snoc_cases v) as [->|(l & top & ->)].
  - discriminate.
  - rewrite normalized_snoc in Hn.
    pose proof (magnitude_snoc_bounds l top Hok) as Hb.
    pose proof (pow32_pos (length l)).
    assert (Ht : top = 0).
    { destruct (Z.eq_dec top 0) as [E|E]; [exact E|]. apply Hb in E. lia. }
    subst top. destruct l as [|x t].
    + cbn in Hn. destruct neg; [discriminate|]. auto.
    + cbn in Hn. discriminate.
Qed.

(** ** X6: the magnitude-growing side *)

Lemma ripple_up_length (v : list Z) :
  limbs_ok v ->
  length (ripple_up v) = length v
  \/ (length (ripple_up v) = S (length v)
      /\ magnitude v + 1 = 2 ^ (32 * Z.of_nat (length v))).
Proof.
  intros Hok. unfold ripple_up.
  pose proof (inc_loop_spec v Hok) as H. cbn zeta in H.
  destruct (inc_loop v) as [v' i]. cbn [fst snd] in H.
  destruct H as (HL & Hok' & [(M0 & M1 & Hi & Hn)|(M1 & Hn & Hi)]).
  - rewrite Hn. cbn [Z.eqb]. right. rewrite length_app. cbn [length].
    split; [lia|exact M1].
  - apply Z.eqb_neq in Hn. rewrite Hn. left. exact HL.
Qed.

Lemma ripple_up_normalized (v : list Z) (neg neg' : bool) :
  limbs_ok v -> normalized (mkBig v neg) = true ->
  normalized (mkBig (ripple_up v) neg') = true.
Proof.
  intros Hok Hn.
  destruct (ripple_up_spec v Hok) as (M & Hok' & _ & _).
  pose proof (magnitude_nonneg v Hok) as Hm.
  apply normalized_positive; [exact Hok'|lia|]. rewrite M.
  destruct (ripple_up_length v Hok) as [L|[L E]]; rewrite L.
  - destruct (Z.eq_dec (magnitude v) 0) as [Z0|Z0].
    + destruct (normalized_zero v neg Hok Z0 Hn) as [-> _]. cbn. lia.
    + apply (normalized_positive v neg Hok) in Hn; lia.
  - replace (S (length v) - 1)%nat with (length v) by lia. lia.
Qed.

Lemma operator_inc_nonneg (past : Z) (a : BigInteger) :
  limbs_ok (value a) -> negative a = false ->
  to_Z (operator_inc past a) = to_Z a + 1
  /\ limbs_ok (value (operator_inc past a))
  /\ (normalized a = true -> normalized (operator_inc past a) = true).
Proof.
  intros Hok Hneg. destruct a as [v neg]. cbn [value negative] in *. subst neg.
  unfold operator_inc, to_Z. cbn [negative negb value].
  destruct (ripple_up_spec v Hok) as (M & Hok' & _).
  repeat split; [exact M|exact Hok'|].
  apply ripple_up_normalized. exact Hok.
Qed.

Lemma operator_dec_neg (past : Z) (a : BigInteger) :
  limbs_ok (value a) -> negative a = true ->
  to_Z (operator_dec past a) = to_Z a - 1
  /\ limbs_ok (value (operator_dec past a))
  /\ (normalized a = true -> normalized (operator_dec past a) = true).
Proof.
  intros Hok Hneg. destruct a as [v neg]. cbn [value negative] in *. subst neg.
  unfold operator_dec, to_Z. cbn [negative negb value].
  destruct (ripple_up_spec v Hok) as (M & Hok' & _).
  repeat split; [lia|exact Hok'|].
  apply ripple_up_normalized. exact Hok.
Qed.

(** X6: away from zero the ripple is exact.  [++] on a non-negative value
    and [--] on a negative value (limbs in range) move the integer by one,
    keep the limbs in range and keep a normalized value normalized; the
    word behind the storage is not read. *)
Theorem X6_growing_ripple_is_exact (past : Z) (a : BigInteger) :
  limbs_ok (value a) ->
  (negative a = false ->
   to_Z (operator_inc past a) = to_Z a + 1
   /\ limbs_ok (value (operator_inc past a))
   /\ (normalized a = true -> normalized (operator_inc past a) = true))
  /\ (negative a = true ->
      to_Z (operator_dec past a) = to_Z a - 1
      /\ limbs_ok (value (operator_dec past a))
      /\ (normalized a = true -> normalized (operator_dec past a) = true)).
Proof.
  intros Hok. split; intros Hn.
  - apply operator_inc_nonneg; assumption.
  - apply operator_dec_neg; assumption.
Qed.

Lemma X6_witness :
  limbs_ok (value (mkBig [4294967295; 4294967295] false))
  /\ (negative (mkBig [4294967295; 4294967295] false) = false ->
      to_Z (operator_inc 7 (mkBig [4294967295; 4294967295] false))
      = to_Z (mkBig [4294967295; 4294967295] false) + 1
      /\ limbs_ok (value (operator_inc 7 (mkBig [4294967295; 4294967295] false)))
      /\ (normalized (mkBig [4294967295; 4294967295] false) = true ->
          normalized (operator_inc 7 (mkBig [4294967295; 4294967295] false)) = true)).
Proof.
  assert (H : limbs_ok (value (mkBig [4294967295; 4294967295] false)))
    by (repeat constructor; unfold limb_ok; lia).
  split; [exact H|].
  exact (proj1 (X6_growing_ripple_is_exact 7 (mkBig [4294967295; 4294967295] false) H)).
Defined.

(** ** X7: the magnitude-shrinking side *)

Lemma shrink_spec (past : Z) (v : list Z) (neg : bool) :
  limbs_ok v -> 1 <= magnitude v ->
  let r := trimLeadingZeros_ past (mkBig (fst (dec_loop v)) neg) in
  magnitude (value r) = magnitude v - 1
  /\ limbs_ok (value r)
  /\ (0 < magnitude (value r) -> negative r = neg)
  /\ (past = 0 -> normalized r = true).
Proof.
  intros Hok Hm r.
  destruct (dec_loop_spec v Hok Hm) as (HL & Hok' & M).
  destruct (trimLeadingZeros_spec past (mkBig (fst (dec_loop v)) neg))
    as (Hne & HZ & HO & HN).
  fold r in Hne, HZ, HO, HN. cbn [value] in *.
  assert (Hmag : magnitude (value r) = magnitude (fst (dec_loop v))).
  { unfold r, trimLeadingZeros_. rewrite eliminateNegativeZero_value. cbn [value].
    pose proof (trim_loop_spec (vread past (fst (dec_loop v)))
                  (length (fst (dec_loop v)))) as Hs.
    cbn zeta in Hs. destruct Hs as (_ & Hz & _).
    apply magnitude_resize. intros i Hi.
    rewrite <- (Hz i) by lia. unfold vread. apply nth_indep. lia. }
  repeat split.
  - lia.
  - apply HO. exact Hok'.
  - intros Hpos. unfold r, trimLeadingZeros_, eliminateNegativeZero_.
    cbn [value negative].
    destruct ((length _ =? 1)%nat && (hd 0 _ =? 0)) eqn:E; [|reflexivity].
    exfalso. apply andb_prop in E. destruct E as [E1 E2].
    apply Nat.eqb_eq in E1. apply Z.eqb_eq in E2.
    unfold r, trimLeadingZeros_ in Hpos.
    rewrite eliminateNegativeZero_value in Hpos. cbn [value] in Hpos.
    destruct (resize _ _) as [|x [|y t]]; simpl in *; try discriminate. lia.
  - intros Hp. apply HN; [exact Hp|].
    intros E. rewrite E in HL. destruct v; [cbn in Hm; lia|discriminate].
Qed.

(** X7: [--] on a non-negative value and [++] on a negative value, each of
    magnitude at least one and with limbs in range, move the integer by one
    whatever word lies behind the storage, keep the limbs in range, and
    return a normalized value when that word is zero. *)
Theorem X7_shrinking_ripple_is_exact (past : Z) (a : BigInteger) :
  limbs_ok (value a) -> 1 <= magnitude (value a) ->
  (negative a = false ->
   to_Z (operator_dec past a) = to_Z a - 1
   /\ limbs_ok (value (operator_dec past a))
   /\ (past = 0 -> normalized (operator_dec past a) = true))
  /\ (negative a = true ->
      to_Z (operator_inc past a) = to_Z a + 1
      /\ limbs_ok (value (operator_inc past a))
      /\ (past = 0 -> normalized (operator_inc past a) = true)).
Proof.
  intros Hok Hm. destruct a as [v neg]. cbn [value negative] in *.
  destruct (shrink_spec past v neg Hok Hm) as (M & HO & HS & HN).
  split; intros ->; unfold operator_dec, operator_inc; cbn [negative negb value].
  - repeat split; [|exact HO|exact HN].
    rewrite (proj1 (proj2 (trimLeadingZeros_spec past _))).
    unfold to_Z. cbn [negative value].
    destruct (dec_loop_spec v Hok Hm) as (_ & _ & M'). exact M'.
  - repeat split; [|exact HO|exact HN].
    rewrite (proj1 (proj2 (trimLeadingZeros_spec past _))).
    unfold to_Z. cbn [negative value].
    destruct (dec_loop_spec v Hok Hm) as (_ & _ & M'). lia.
Qed.

Lemma X7_witness :
  limbs_ok (value (mkBig [0; 1] false))
  /\ 1 <= magnitude (value (mkBig [0; 1] false))
  /\ (negative (mkBig [0; 1] false) = false ->
      to_Z (operator_dec 0 (mkBig [0; 1] false)) = to_Z (mkBig [0; 1] false) - 1
      /\ limbs_ok (value (operator_dec 0 (mkBig [0; 1] false)))
      /\ (0 = 0 -> normalized (operator_dec 0 (mkBig [0; 1] false)) = true)).
Proof.
  assert (H : limbs_ok (value (mkBig [0; 1] false)))
    by (repeat constructor; unfold limb_ok; lia).
  assert (M : 1 <= magnitude (value (mkBig [0; 1] false))) by (cbn; lia).
  split; [exact H|]. split; [exact M|].
  exact (proj1 (X7_shrinking_ripple_is_exact 0 (mkBig [0; 1] false) H M)).
Defined.

(** * Normalized values represent integers uniquely *)

Lemma magnitude_inj (v w : list Z) :
  limbs_ok v -> limbs_ok w -> length v = length w ->
  magnitude v = magnitude w -> v = w.
Proof.
  intros Hv. revert w. induction Hv as [|x t Hx Ht IH]; intros w Hw L M.
  - destruct w; [reflexivity|discriminate].
  - destruct w as [|y u]; [discriminate|].
    inversion Hw as [|? ? Hy Hu]; subst. cbn [magnitude length] in *.
    unfold limb_ok in *.
    assert (magnitude t = magnitude u) by lia.
    assert (x = y) by lia. subst y. f_equal. apply IH; auto.
Qed.

Lemma normalized_same_length (v w : list Z) (nv nw : bool) :
  limbs_ok v -> limbs_ok w -> 0 < magnitude v -> magnitude v = magnitude w ->
  normalized (mkBig v nv) = true -> normalized (mkBig w nw) = true ->
  length v = length w.
Proof.
  intros Hv Hw Hm E Nv Nw.
  apply (normalized_positive v nv Hv Hm) in Nv.
  apply (normalized_positive w nw Hw) in Nw; [|lia].
  pose proof (magnitude_bound v Hv) as Bv. pose proof (magnitude_bound w Hw) as Bw.
  assert (Lv : v <> []) by (intros ->; cbn in Hm; lia).
  assert (Lw : w <> []) by (intros ->; cbn in E; lia).
  assert (H1 : 32 * Z.of_nat (length v - 1) < 32 * Z.of_nat (length w)).
  { apply (Z.pow_lt_mono_r_iff 2); lia. }
  assert (H2 : 32 * Z.of_nat (length w - 1) < 32 * Z.of_nat (length v)).
  { apply (Z.pow_lt_mono_r_iff 2); lia. }
  destruct v; [contradiction|]. destruct w; [contradiction|].
  cbn [length] in *. lia.
Qed.

Lemma normalized_unique (a b : BigInteger) :
  limbs_ok (value a) -> limbs_ok (value b) ->
  normalized a = true -> normalized b = true ->
  to_Z a = to_Z b -> a = b.
Proof.
  destruct a as [v nv], b as [w nw]. cbn [value]. intros Hv Hw Nv Nw E.
  pose proof (magnitude_nonneg v Hv) as Pv.
  pose proof (magnitude_nonneg w Hw) as Pw.
  unfold to_Z in E. cbn [negative value] in E.
  destruct (Z.eq_dec (magnitude v) 0) as [Zv|Zv].
  - assert (Zw : magnitude w = 0) by (destruct nv, nw; lia).
    destruct (normalized_zero v nv Hv Zv Nv) as [-> ->].
    destruct (normalized_zero w nw Hw Zw Nw) as [-> ->]. reflexivity.
  - assert (Em : magnitude v = magnitude w) by (destruct nv, nw; lia).
    assert (En : nv = nw) by (destruct nv, nw; try reflexivity; lia).
    subst nw. f_equal. apply magnitude_inj; auto.
    apply (normalized_same_length v w nv nv); auto. lia.
Qed.

(** ** X8 *)

(** X8: on normalized values with limbs in range, [operator==] decides
    equality of the integers they stand for. *)
Theorem X8_operator_eq_decides_integer_equality (a b : BigInteger) :
  limbs_ok (value a) -> limbs_ok (value b) ->
  normalized a = true -> normalized b = true ->
  (operator_eq a b = true <-> to_Z a = to_Z b).
Proof.
  intros Hv Hw Na Nb. rewrite operator_eq_iff. split.
  - intros ->. reflexivity.
  - apply normalized_unique; assumption.
Qed.

Lemma X8_witness :
  limbs_ok (value (BigInteger_of_int64 (-4294967296)))
  /\ limbs_ok (value (mkBig [0; 1] true))
  /\ normalized (BigInteger_of_int64 (-4294967296)) = true
  /\ normalized (mkBig [0; 1] true) = true
  /\ (operator_eq (BigInteger_of_int64 (-4294967296)) (mkBig [0; 1] true) = true
      <-> to_Z (BigInteger_of_int64 (-4294967296)) = to_Z (mkBig [0; 1] true)).
Proof.
  assert (H1 : limbs_ok (value (BigInteger_of_int64 (-4294967296))))
    by (repeat constructor; unfold limb_ok; cbn; lia).
  assert (H2 : limbs_ok (value (mkBig [0; 1] true)))
    by (repeat constructor; unfold limb_ok; lia).
  split; [exact H1|]. split; [exact H2|].
  split; [reflexivity|]. split; [reflexivity|].
  exact (X8_operator_eq_decides_integer_equality
           (BigInteger_of_int64 (-4294967296)) (mkBig [0; 1] true)
           H1 H2 eq_refl eq_refl).
Defined.

(** ** X9: increment and decrement are inverse away from their defect *)

Lemma normalized_negative_positive (a : BigInteger) :
  limbs_ok (value a) -> normalized a = true -> negative a = true ->
  1 <= magnitude (value a).
Proof.
  intros Hok Hn E. pose proof (magnitude_nonneg (value a) Hok).
  destruct (Z.eq_dec (magnitude (value a)) 0) as [Z0|Z0]; [|lia].
  destruct a as [v neg]. cbn [value negative] in *.
  destruct (normalized_zero v neg Hok Z0 Hn) as [_ ->]. discriminate.
Qed.

(** With a zero word behind the storage [++] is exact on every normalized
    value, and [--] on every normalized value but zero. *)
Lemma operator_inc_exact (a : BigInteger) :
  limbs_ok (value a) -> normalized a = true ->
  to_Z (operator_inc 0 a) = to_Z a + 1
  /\ limbs_ok (value (operator_inc 0 a))
  /\ normalized (operator_inc 0 a) = true.
Proof.
  intros Hok Hn. destruct (negative a) eqn:Ea.
  - pose proof (normalized_negative_positive a Hok Hn Ea) as M.
    destruct a as [v neg]. cbn [value negative] in *. subst neg.
    destruct (shrink_spec 0 v true Hok M) as (M1 & HO & HS & HN).
    unfold operator_inc. cbn [negative negb value].
    repeat split; [|exact HO|exact (HN eq_refl)].
    rewrite (proj1 (proj2 (trimLeadingZeros_spec 0 _))).
    unfold to_Z. cbn [negative value].
    destruct (dec_loop_spec v Hok M) as (_ & _ & M'). lia.
  - destruct (operator_inc_nonneg 0 a Hok Ea) as (Z1 & O1 & N1). auto.
Qed.

Lemma operator_dec_exact (a : BigInteger) :
  limbs_ok (value a) -> normalized a = true -> to_Z a <> 0 ->
  to_Z (operator_dec 0 a) = to_Z a - 1
  /\ limbs_ok (value (operator_dec 0 a))
  /\ normalized (operator_dec 0 a) = true.
Proof.
  intros Hok Hn Hz. destruct (negative a) eqn:Ea.
  - destruct (operator_dec_neg 0 a Hok Ea) as (Z1 & O1 & N1). auto.
  - pose proof (magnitude_nonneg (value a) Hok) as Pm.
    assert (M : 1 <= magnitude (value a))
      by (unfold to_Z in Hz; rewrite Ea in Hz; lia).
    destruct a as [v neg]. cbn [value negative] in *. subst neg.
    destruct (shrink_spec 0 v false Hok M) as (M1 & HO & HS & HN).
    unfold operator_dec. cbn [negative negb value].
    repeat split; [|exact HO|exact (HN eq_refl)].
    rewrite (proj1 (proj2 (trimLeadingZeros_spec 0 _))).
    unfold to_Z. cbn [negative value].
    destruct (dec_loop_spec v Hok M) as (_ & _ & M'). lia.
Qed.

(** X9: when the word behind the storage reads zero, for every normalized
    value [a] with limbs in range, [++(--a) == a] unless [a] is zero and
    [--(++a) == a] unless [a] is minus one. *)
Theorem X9_inc_dec_inverse_away_from_zero (a : BigInteger) :
  limbs_ok (value a) -> normalized a = true ->
  (to_Z a <> 0 -> operator_eq (operator_inc 0 (operator_dec 0 a)) a = true)
  /\ (to_Z a <> -1 -> operator_eq (operator_dec 0 (operator_inc 0 a)) a = true).
Proof.
  intros Hok Hn. split; intros Hz; apply operator_eq_iff.
  - destruct (operator_dec_exact a Hok Hn Hz) as (Z1 & O1 & N1).
    destruct (operator_inc_exact _ O1 N1) as (Z2 & O2 & N2).
    apply normalized_unique; auto. lia.
  - destruct (operator_inc_exact a Hok Hn) as (Z1 & O1 & N1).
    destruct (operator_dec_exact _ O1 N1 ltac:(lia)) as (Z2 & O2 & N2).
    apply normalized_unique; auto. lia.
Qed.

Lemma X9_witness :
  limbs_ok (value (BigInteger_of_int64 4294967296))
  /\ normalized (BigInteger_of_int64 4294967296) = true
  /\ (to_Z (BigInteger_of_int64 4294967296) <> 0 ->
      operator_eq (operator_inc 0 (operator_dec 0 (BigInteger_of_int64 4294967296)))
                  (BigInteger_of_int64 4294967296) = true)
  /\ (to_Z (BigInteger_of_int64 4294967296) <> -1 ->
      operator_eq (operator_dec 0 (operator_inc 0 (BigInteger_of_int64 4294967296)))
                  (BigInteger_of_int64 4294967296) = true).
Proof.
  assert (H1 : limbs_ok (value (BigInteger_of_int64 4294967296)))
    by (repeat constructor; unfold limb_ok; cbn; lia).
  split; [exact H1|]. split; [reflexivity|].
  exact (X9_inc_dec_inverse_away_from_zero (BigInteger_of_int64 4294967296)
           H1 eq_refl).
Defined.

(** * Addition of equal signs *)

Lemma limb_split (s : Z) :
  0 <= s < 2 * 2 ^ 32 ->
  limb_ok (wrap32 (wrap64 s mod base)) /\ 0 <= wrap64 s / base <= 1
  /\ wrap32 (wrap64 s mod base) + 2 ^ 32 * (wrap64 s / base) = s.
Proof.
  intros H. rewrite wrap64_id by lia. rewrite base_val.
  pose proof (Z.mod_pos_bound s (2 ^ 32) ltac:(lia)) as Hm.
  pose proof (Z.div_mod s (2 ^ 32) ltac:(lia)) as Hd.
  rewrite wrap32_id by lia.
  assert (0 <= s / 2 ^ 32 <= 1).
  { split; [apply Z.div_pos; lia|].
    apply Z.lt_succ_r. apply Z.div_lt_upper_bound; lia. }
  unfold limb_ok. lia.
Qed.

Lemma add_carry_spec (lhs : list Z) (c : Z) :
  limbs_ok lhs -> 0 <= c <= 1 ->
  let r := fst (add_carry lhs c) in
  let c' := snd (add_carry lhs c) in
  length r = length lhs /\ limbs_ok r /\ 0 <= c' <= 1
  /\ magnitude r + 2 ^ (32 * Z.of_nat (length lhs)) * c' = magnitude lhs + c.
Proof.
  intros Hok. revert c. induction Hok as [|x t Hx Ht IH]; intros c Hc;
    cbn [add_carry].
  - cbn [fst snd length magnitude]. change (Z.of_nat 0) with 0.
    rewrite Z.mul_0_r, Z.pow_0_r. repeat split; try lia. constructor.
  - destruct (Z.eqb_spec c 0) as [->|Hne].
    + cbn [fst snd]. repeat split; try lia. constructor; assumption.
    + unfold limb_ok in Hx.
      destruct (limb_split (c + x) ltac:(lia)) as (L1 & L2 & L3).
      specialize (IH (wrap64 (c + x) / base) L2). cbn zeta in IH.
      destruct (add_carry t (wrap64 (c + x) / base)) as [r c'].
      cbn [fst snd length magnitude] in *.
      destruct IH as (HL & HO & HC & HM).
      rewrite pow32_succ. repeat split; try lia.
      constructor; assumption.
Qed.

Lemma add_limbs_spec (lhs rhs : list Z) (c : Z) :
  limbs_ok lhs -> limbs_ok rhs -> (length rhs <= length lhs)%nat -> 0 <= c <= 1 ->
  let r := fst (add_limbs lhs rhs c) in
  let c' := snd (add_limbs lhs rhs c) in
  length r = length lhs /\ limbs_ok r /\ 0 <= c' <= 1
  /\ magnitude r + 2 ^ (32 * Z.of_nat (length lhs)) * c'
     = magnitude lhs + magnitude rhs + c.
Proof.
  intros Hl Hr. revert lhs Hl c.
  induction Hr as [|y u Hy Hu IH]; intros lhs Hl c L Hc.
  - replace (add_limbs lhs [] c) with (add_carry lhs c)
      by (destruct lhs; reflexivity).
    pose proof (add_carry_spec lhs c Hl Hc) as H. cbn zeta in H.
    cbn [magnitude]. destruct H as (H1 & H2 & H3 & H4). repeat split; auto; lia.
  - destruct Hl as [|x t Hx Ht]; [cbn in L; lia|]. cbn [add_limbs].
    unfold limb_ok in Hx, Hy.
    destruct (limb_split (c + x + y) ltac:(lia)) as (L1 & L2 & L3).
    cbn [length] in L.
    specialize (IH t Ht (wrap64 (c + x + y) / base) ltac:(lia) L2).
    cbn zeta in IH.
    destruct (add_limbs t u (wrap64 (c + x + y) / base)) as [r c'].
    cbn [fst snd length magnitude] in *.
    destruct IH as (HL & HO & HC & HM).
    rewrite pow32_succ. repeat split; try lia.
    constructor; assumption.
Qed.

Lemma resize_grow_magnitude (v : list Z) (n : nat) :
  (length v <= n)%nat -> magnitude (resize v n) = magnitude v.
Proof. intros L. apply magnitude_resize. intros i Hi. lia. Qed.

(** The operand of the limb loops: [lhs] extended to the size of [rhs]. *)
Lemma resized_operand (lv rv : list Z) :
  limbs_ok lv ->
  let l := if (length lv <? length rv)%nat then resize lv (length rv) else lv in
  limbs_ok l /\ magnitude l = magnitude lv /\ (length rv <= length l)%nat
  /\ length l = Nat.max (length lv) (length rv).
Proof.
  intros Hok. destruct (Nat.ltb_spec (length lv) (length rv)) as [H|H]; cbn zeta.
  - rewrite length_resize. repeat split; try lia.
    + apply limbs_ok_resize. exact Hok.
    + apply resize_grow_magnitude. lia.
  - repeat split; try assumption; lia.
Qed.

Lemma add_same_sign_spec (a b : BigInteger) :
  limbs_ok (value a) -> limbs_ok (value b) ->
  magnitude (value (add_same_sign a b)) = magnitude (value a) + magnitude (value b)
  /\ negative (add_same_sign a b) = negative a
  /\ limbs_ok (value (add_same_sign a b))
  /\ (length (value (add_same_sign a b))
      = Nat.max (length (value a)) (length (value b))
      \/ (length (value (add_same_sign a b))
          = S (Nat.max (length (value a)) (length (value b)))
          /\ 2 ^ (32 * Z.of_nat (Nat.max (length (value a)) (length (value b))))
             <= magnitude (value a) + magnitude (value b))).
Proof.
  intros Ha Hb. unfold add_same_sign.
  destruct (resized_operand (value a) (value b) Ha) as (Hl & Ml & Ll & Lmax).
  set (l := if (length (value a) <? length (value b))%nat
            then resize (value a) (length (value b)) else value a) in *.
  pose proof (add_limbs_spec l (value b) 0 Hl Hb Ll ltac:(lia)) as H.
  cbn zeta in H. destruct (add_limbs l (value b) 0) as [r c].
  cbn [fst snd] in H. destruct H as (HL & HO & HC & HM).
  pose proof (magnitude_nonneg r HO) as Pr.
  destruct (Z.eqb_spec c 0) as [->|Hne]; cbn [value negative].
  - split; [lia|]. split; [reflexivity|]. split; [assumption|]. left; lia.
  - assert (c = 1) by lia. subst c. rewrite wrap32_id by lia.
    rewrite magnitude_app. cbn [magnitude]. rewrite HL, length_app. cbn [length].
    split; [lia|]. split; [reflexivity|]. split.
    + apply limbs_ok_app; [exact HO|]. repeat constructor; unfold limb_ok; lia.
    + right. split; [lia|]. rewrite <- Lmax. lia.
Qed.

Lemma normalized_nonempty (b : BigInteger) : normalized b = true -> value b <> [].
Proof. unfold normalized. intros H E. rewrite E in H. discriminate. Qed.

Lemma normalized_lower_bound (v : list Z) (neg : bool) :
  limbs_ok v -> normalized (mkBig v neg) = true ->
  (magnitude v = 0 /\ length v = 1%nat)
  \/ (0 < magnitude v /\ 2 ^ (32 * Z.of_nat (length v - 1)) <= magnitude v).
Proof.
  intros Hok Hn. pose proof (magnitude_nonneg v Hok).
  destruct (Z.eq_dec (magnitude v) 0) as [Z0|Z0].
  - left. destruct (normalized_zero v neg Hok Z0 Hn) as [-> _]. auto.
  - right. split; [lia|]. apply (normalized_positive v neg Hok); [lia|exact Hn].
Qed.

Lemma add_same_sign_normalized (a b : BigInteger) :
  limbs_ok (value a) -> limbs_ok (value b) ->
  negative a = negative b ->
  normalized a = true -> normalized b = true ->
  normalized (add_same_sign a b) = true.
Proof.
  intros Ha Hb Hs Na Nb.
  destruct (add_same_sign_spec a b Ha Hb) as (M & S & O & L).
  pose proof (normalized_nonempty a Na) as Ea.
  pose proof (normalized_nonempty b Nb) as Eb.
  pose proof (magnitude_nonneg _ Ha) as Pa. pose proof (magnitude_nonneg _ Hb) as Pb.
  destruct a as [va na], b as [vb nb]. cbn [value negative] in *. subst nb.
  destruct (add_same_sign (mkBig va na) (mkBig vb na)) as [vr nr] eqn:Er.
  cbn [value negative] in *. subst nr.
  destruct (normalized_lower_bound va na Ha Na) as [[Za La]|[Qa Ba]];
  destruct (normalized_lower_bound vb na Hb Nb) as [[Zb Lb]|[Qb Bb]].
  - (* both zero: the result is the single limb 0 of a non-negative value *)
    destruct (normalized_zero va na Ha Za Na) as [-> ->].
    destruct (normalized_zero vb false Hb Zb Nb) as [-> _].
    cbn in Er. injection Er as <-. reflexivity.
  - apply (normalized_positive vr na O); [lia|].
    destruct L as [L|[L B]]; rewrite L.
    + rewrite La. replace (Nat.max 1 (length vb)) with (length vb)
        by (destruct vb; [contradiction|cbn [length]; lia]). lia.
    + replace (S _ - 1)%nat with (Nat.max (length va) (length vb)) by lia. lia.
  - apply (normalized_positive vr na O); [lia|].
    destruct L as [L|[L B]]; rewrite L.
    + rewrite Lb. replace (Nat.max (length va) 1) with (length va)
        by (destruct va; [contradiction|cbn [length]; lia]). lia.
    + replace (S _ - 1)%nat with (Nat.max (length va) (length vb)) by lia. lia.
  - apply (normalized_positive vr na O); [lia|].
    destruct L as [L|[L B]]; rewrite L.
    + destruct (Nat.max_spec (length va) (length vb)) as [[_ ->]|[_ ->]]; lia.
    + replace (S _ - 1)%nat with (Nat.max (length va) (length vb)) by lia. lia.
Qed.

(** ** X10 *)

(** X10: for operands of equal sign with limbs in range, [a += b] is the
    exact sum, with the sign of the operands and limbs in range (no word
    behind the storage is read); normalized operands give a normalized
    sum. *)
Theorem X10_addition_of_equal_signs_is_exact (past : Z) (a b : BigInteger) :
  limbs_ok (value a) -> limbs_ok (value b) -> negative a = negative b ->
  exists r, operator_add_assign 2 past a b = Some r
            /\ to_Z r = to_Z a + to_Z b
            /\ limbs_ok (value r)
            /\ (normalized a = true -> normalized b = true -> normalized r = true).
Proof.
  intros Ha Hb Hs. exists (add_same_sign a b).
  cbn [operator_add_assign]. rewrite Hs, Bool.eqb_reflx.
  destruct (add_same_sign_spec a b Ha Hb) as (M & S & O & _).
  repeat split; [|exact O|apply add_same_sign_normalized; assumption].
  unfold to_Z. rewrite S, M, <- Hs. destruct (negative a); lia.
Qed.

Lemma X10_witness :
  limbs_ok (value (BigInteger_of_int64 (-4294967295)))
  /\ limbs_ok (value (BigInteger_of_int64 (-1)))
  /\ negative (BigInteger_of_int64 (-4294967295)) = negative (BigInteger_of_int64 (-1))
  /\ exists r, operator_add_assign 2 0 (BigInteger_of_int64 (-4294967295))
                 (BigInteger_of_int64 (-1)) = Some r
               /\ to_Z r = to_Z (BigInteger_of_int64 (-4294967295))
                           + to_Z (BigInteger_of_int64 (-1))
               /\ limbs_ok (value r)
               /\ (normalized (BigInteger_of_int64 (-4294967295)) = true ->
                   normalized (BigInteger_of_int64 (-1)) = true ->
                   normalized r = true).
Proof.
  assert (H1 : limbs_ok (value (BigInteger_of_int64 (-4294967295))))
    by (repeat constructor; unfold limb_ok; cbn; lia).
  assert (H2 : limbs_ok (value (BigInteger_of_int64 (-1))))
    by (repeat constructor; unfold limb_ok; cbn; lia).
  split; [exact H1|]. split; [exact H2|]. split; [reflexivity|].
  exact (X10_addition_of_equal_signs_is_exact 0 _ _ H1 H2 eq_refl).
Defined.

(** * Subtraction of equal signs *)

Lemma borrow_split (s : Z) :
  - 2 ^ 32 <= s < 2 ^ 32 ->
  limb_ok (borrow_limb s) /\ (borrow_out s = 0 \/ borrow_out s = -1)
  /\ borrow_limb s + 2 ^ 32 * borrow_out s = s.
Proof.
  intros H. unfold borrow_limb, borrow_out. rewrite base_val.
  destruct (Z.ltb_spec s 0) as [Hn|Hp].
  - rewrite wrap64_id by lia. rewrite wrap32_id by lia.
    unfold limb_ok. repeat split; try lia.
  - rewrite wrap32_id by lia. unfold limb_ok. repeat split; try lia.
Qed.

Lemma sub_borrow_spec (lhs : list Z) (b : Z) :
  limbs_ok lhs -> b = 0 \/ b = -1 ->
  length (sub_borrow lhs b) = length lhs /\ limbs_ok (sub_borrow lhs b)
  /\ exists bout, (bout = 0 \/ bout = -1)
       /\ magnitude (sub_borrow lhs b) + 2 ^ (32 * Z.of_nat (length lhs)) * bout
          = magnitude lhs + b.
Proof.
  intros Hok. revert b. induction Hok as [|x t Hx Ht IH]; intros b Hb;
    cbn [sub_borrow].
  - cbn [length magnitude]. change (Z.of_nat 0) with 0.
    rewrite Z.mul_0_r, Z.pow_0_r. repeat split; [constructor|].
    exists b. split; [exact Hb|lia].
  - destruct (Z.eqb_spec b 0) as [->|Hne].
    + repeat split; [constructor; assumption|]. exists 0. split; [auto|lia].
    + unfold limb_ok in Hx.
      destruct (borrow_split (b + x) ltac:(lia)) as (L1 & L2 & L3).
      destruct (IH (borrow_out (b + x)) L2) as (HL & HO & bout & HB & HM).
      cbn [length magnitude]. rewrite pow32_succ.
      repeat split; [lia|constructor; assumption|].
      exists bout. split; [exact HB|lia].
Qed.

Lemma sub_limbs_spec (lhs rhs : list Z) (b : Z) :
  limbs_ok lhs -> limbs_ok rhs -> (length rhs <= length lhs)%nat ->
  b = 0 \/ b = -1 ->
  length (sub_limbs lhs rhs b) = length lhs /\ limbs_ok (sub_limbs lhs rhs b)
  /\ exists bout, (bout = 0 \/ bout = -1)
       /\ magnitude (sub_limbs lhs rhs b)
          + 2 ^ (32 * Z.of_nat (length lhs)) * bout
          = magnitude lhs - magnitude rhs + b.
Proof.
  intros Hl Hr. revert lhs Hl b.
  induction Hr as [|y u Hy Hu IH]; intros lhs Hl b L Hb.
  - replace (sub_limbs lhs [] b) with (sub_borrow lhs b)
      by (destruct lhs; reflexivity).
    destruct (sub_borrow_spec lhs b Hl Hb) as (H1 & H2 & bout & H3 & H4).
    cbn [magnitude]. repeat split; auto. exists bout. split; [auto|lia].
  - destruct Hl as [|x t Hx Ht]; [cbn in L; lia|]. cbn [sub_limbs].
    unfold limb_ok in Hx, Hy.
    destruct (borrow_split (b + x - y) ltac:(lia)) as (L1 & L2 & L3).
    cbn [length] in L.
    destruct (IH t Ht (borrow_out (b + x - y)) ltac:(lia) L2)
      as (HL & HO & bout & HB & HM).
    cbn [length magnitude]. rewrite pow32_succ.
    repeat split; [lia|constructor; assumption|].
    exists bout. split; [exact HB|lia].
Qed.

Lemma rsub_limbs_spec (lhs rhs : list Z) (b : Z) :
  limbs_ok lhs -> limbs_ok rhs -> (length rhs <= length lhs)%nat ->
  b = 0 \/ b = -1 ->
  exists low bout,
    rsub_limbs lhs rhs b = low ++ skipn (length rhs) lhs
    /\ length low = length rhs /\ limbs_ok low
    /\ (bout = 0 \/ bout = -1)
    /\ magnitude low + 2 ^ (32 * Z.of_nat (length rhs)) * bout
       = magnitude rhs - magnitude (firstn (length rhs) lhs) + b.
Proof.
  intros Hl Hr. revert lhs Hl b.
  induction Hr as [|y u Hy Hu IH]; intros lhs Hl b L Hb.
  - exists [], b. replace (rsub_limbs lhs [] b) with lhs by (destruct lhs; reflexivity).
    cbn [length skipn firstn magnitude app]. change (Z.of_nat 0) with 0.
    rewrite Z.mul_0_r, Z.pow_0_r.
    split; [reflexivity|]. split; [reflexivity|]. split; [constructor|].
    split; [exact Hb|lia].
  - destruct Hl as [|x t Hx Ht]; [cbn in L; lia|]. cbn [rsub_limbs].
    unfold limb_ok in Hx, Hy.
    destruct (borrow_split (b + y - x) ltac:(lia)) as (L1 & L2 & L3).
    cbn [length] in L.
    destruct (IH t Ht (borrow_out (b + y - x)) ltac:(lia) L2)
      as (low & bout & E & HL & HO & HB & HM).
    exists (borrow_limb (b + y - x) :: low), bout.
    cbn [length skipn firstn magnitude app]. rewrite pow32_succ, E.
    split; [reflexivity|]. split; [lia|]. split; [constructor; assumption|].
    split; [exact HB|lia].
Qed.

(** The difference is exact whenever the test [(lhs > rhs) ^ lhs.negative]
    of [operator-=] answers the order of the magnitudes. *)
Lemma sub_same_sign_exact (past : Z) (a b : BigInteger) :
  limbs_ok (value a) -> limbs_ok (value b) -> negative a = negative b ->
  let l := if (length (value a) <? length (value b))%nat
           then resize (value a) (length (value b)) else value a in
  let c := xorb (operator_gt (mkBig l (negative a)) b) (negative a) in
  (c = true -> magnitude (value b) <= magnitude (value a)) ->
  (c = false -> magnitude (value a) <= magnitude (value b)) ->
  to_Z (sub_same_sign past a b) = to_Z a - to_Z b
  /\ limbs_ok (value (sub_same_sign past a b)).
Proof.
  intros Ha Hb Hs l c Ht Hf. unfold sub_same_sign. fold l. cbn [negative].
  fold c.
  destruct (resized_operand (value a) (value b) Ha) as (Hl & Ml & Ll & _).
  fold l in Hl, Ml, Ll.
  pose proof (magnitude_nonneg _ Ha) as Pa. pose proof (magnitude_nonneg _ Hb) as Pb.
  destruct (trimLeadingZeros_spec past
              (if c then mkBig (sub_limbs l (value b) 0) (negative a)
               else mkBig (rsub_limbs l (value b) 0) (negb (negative a))))
    as (_ & HZ & HO & _).
  rewrite HZ. destruct c.
  - destruct (sub_limbs_spec l (value b) 0 Hl Hb Ll ltac:(auto))
      as (HL & HOk & bout & HB & HM).
    split; [|apply HO; exact HOk].
    pose proof (magnitude_nonneg _ HOk) as P. pose proof (magnitude_bound _ HOk) as B.
    rewrite HL in B. specialize (Ht eq_refl).
    pose proof (pow32_pos (length l)).
    assert (bout = 0) by (destruct HB as [->| ->]; [reflexivity|lia]). subst bout.
    unfold to_Z. cbn [negative value]. rewrite <- Hs.
    destruct (negative a); lia.
  - destruct (rsub_limbs_spec l (value b) 0 Hl Hb Ll ltac:(auto))
      as (low & bout & E & HL & HOk & HB & HM).
    specialize (Hf eq_refl).
    pose proof (magnitude_bound _ Hb) as Bb.
    pose proof (pow32_pos (length (value b))) as Pp.
    assert (Hsplit : magnitude l
                     = magnitude (firstn (length (value b)) l)
                       + 2 ^ (32 * Z.of_nat (length (value b)))
                         * magnitude (skipn (length (value b)) l)).
    { rewrite <- (firstn_skipn (length (value b)) l) at 1.
      rewrite magnitude_app. rewrite length_firstn.
      replace (Nat.min (length (value b)) (length l)) with (length (value b)) by lia.
      reflexivity. }
    pose proof (magnitude_nonneg _ (limbs_ok_firstn l (length (value b)) Hl)) as Pf.
    pose proof (magnitude_nonneg _ (limbs_ok_skipn l (length (value b)) Hl)) as Ps.
    assert (Hhigh : magnitude (skipn (length (value b)) l) = 0) by nia.
    pose proof (magnitude_nonneg _ HOk) as P. pose proof (magnitude_bound _ HOk) as B.
    rewrite HL in B.
    assert (bout = 0) by (destruct HB as [->| ->]; [reflexivity|lia]). subst bout.
    split.
    + unfold to_Z. cbn [negative value]. rewrite E, magnitude_app, HL, Hhigh.
      rewrite <- Hs. destruct (negative a); cbn [negb]; lia.
    + apply HO. cbn [value]. rewrite E. apply limbs_ok_app; [exact HOk|].
      apply limbs_ok_skipn. exact Hl.
Qed.

(** * The mutual redirection of [+=] and [-=] *)

Lemma flip_sign_negative (a : BigInteger) :
  negative (flip_sign a) = negb (negative a).
Proof. unfold flip_sign. cbn [negative]. destruct (negative a); reflexivity. Qed.

Lemma flip_sign_to_Z (a : BigInteger) : to_Z (flip_sign a) = - to_Z a.
Proof.
  unfold to_Z, flip_sign. cbn [negative value]. destruct (negative a); cbn; lia.
Qed.

Lemma eqb_false_flip (x y : bool) : Bool.eqb x y = false -> Bool.eqb (negb x) y = true.
Proof. destruct x, y; cbn; congruence. Qed.

Lemma operator_add_assign_unfold (d : nat) (past : Z) (a b : BigInteger) :
  operator_add_assign (S (S d)) past a b
  = Some (if Bool.eqb (negative a) (negative b)
          then add_same_sign a b
          else eliminateNegativeZero_
                 (flip_sign (sub_same_sign past (flip_sign a) b))).
Proof.
  cbn [operator_add_assign].
  destruct (Bool.eqb (negative a) (negative b)) eqn:E; [reflexivity|].
  cbn [operator_sub_assign]. rewrite flip_sign_negative.
  rewrite (eqb_false_flip _ _ E). reflexivity.
Qed.

Lemma operator_sub_assign_unfold (d : nat) (past : Z) (a b : BigInteger) :
  operator_sub_assign (S (S d)) past a b
  = Some (if Bool.eqb (negative a) (negative b)
          then sub_same_sign past a b
          else flip_sign (add_same_sign (flip_sign a) b)).
Proof.
  cbn [operator_sub_assign].
  destruct (Bool.eqb (negative a) (negative b)) eqn:E; [reflexivity|].
  cbn [operator_add_assign]. rewrite flip_sign_negative.
  rewrite (eqb_false_flip _ _ E). reflexivity.
Qed.

(** ** X11 *)

(** X11: [operator+=] and [operator-=] redirect to each other at most once:
    for every pair of operands a nesting bound of two calls gives a result,
    and every larger bound gives the same one. *)
Theorem X11_add_sub_redirect_once (depth : nat) (past : Z) (a b : BigInteger) :
  (2 <= depth)%nat ->
  (exists r, operator_add_assign 2 past a b = Some r
             /\ operator_add_assign depth past a b = Some r)
  /\ (exists r, operator_sub_assign 2 past a b = Some r
                /\ operator_sub_assign depth past a b = Some r).
Proof.
  intros H. destruct depth as [|[|d]]; try lia.
  split; eexists; split.
  - apply (operator_add_assign_unfold 0).
  - apply operator_add_assign_unfold.
  - apply (operator_sub_assign_unfold 0).
  - apply operator_sub_assign_unfold.
Qed.

Lemma X11_witness :
  (2 <= 5)%nat
  /\ (exists r, operator_add_assign 2 0 (BigInteger_of_int64 7) (BigInteger_of_int64 (-9)) = Some r
                /\ operator_add_assign 5 0 (BigInteger_of_int64 7) (BigInteger_of_int64 (-9)) = Some r)
  /\ (exists r, operator_sub_assign 2 0 (BigInteger_of_int64 7) (BigInteger_of_int64 (-9)) = Some r
                /\ operator_sub_assign 5 0 (BigInteger_of_int64 7) (BigInteger_of_int64 (-9)) = Some r).
Proof.
  split; [lia|].
  apply (X11_add_sub_redirect_once 5 0 (BigInteger_of_int64 7) (BigInteger_of_int64 (-9))).
  lia.
Defined.

(** ** X12: subtraction of opposite signs *)

(** X12: for operands of opposite sign with limbs in range, [a -= b] is the
    exact difference, with limbs in range; no word behind the storage is
    read. *)
Theorem X12_subtraction_of_opposite_signs_is_exact (past : Z) (a b : BigInteger) :
  limbs_ok (value a) -> limbs_ok (value b) -> negative a <> negative b ->
  exists r, operator_sub_assign 2 past a b = Some r
            /\ to_Z r = to_Z a - to_Z b
            /\ limbs_ok (value r).
Proof.
  intros Ha Hb Hs. rewrite (operator_sub_assign_unfold 0).
  replace (Bool.eqb (negative a) (negative b)) with false
    by (destruct (negative a), (negative b); try reflexivity; contradiction).
  eexists; split; [reflexivity|].
  assert (Hf : limbs_ok (value (flip_sign a))) by exact Ha.
  destruct (add_same_sign_spec (flip_sign a) b Hf Hb) as (M & S & O & _).
  split; [|exact O].
  rewrite flip_sign_to_Z. unfold to_Z. rewrite S, M, flip_sign_negative.
  cbn [flip_sign value].
  destruct (negative a), (negative b); cbn [negb]; try lia; contradiction.
Qed.

Lemma X12_witness :
  limbs_ok (value (BigInteger_of_int64 4294967295))
  /\ limbs_ok (value (BigInteger_of_int64 (-1)))
  /\ negative (BigInteger_of_int64 4294967295) <> negative (BigInteger_of_int64 (-1))
  /\ exists r, operator_sub_assign 2 0 (BigInteger_of_int64 4294967295)
                 (BigInteger_of_int64 (-1)) = Some r
               /\ to_Z r = to_Z (BigInteger_of_int64 4294967295)
                           - to_Z (BigInteger_of_int64 (-1))
               /\ limbs_ok (value r).
Proof.
  assert (H1 : limbs_ok (value (BigInteger_of_int64 4294967295)))
    by (repeat constructor; unfold limb_ok; cbn; lia).
  assert (H2 : limbs_ok (value (BigInteger_of_int64 (-1))))
    by (repeat constructor; unfold limb_ok; cbn; lia).
  assert (H3 : negative (BigInteger_of_int64 4294967295)
               <> negative (BigInteger_of_int64 (-1))) by (cbn; discriminate).
  split; [exact H1|]. split; [exact H2|]. split; [exact H3|].
  exact (X12_subtraction_of_opposite_signs_is_exact 0 _ _ H1 H2 H3).
Defined.

(** ** X13: one-limb arithmetic *)

Lemma sub_same_sign_one_limb (past x y : Z) (s : bool) :
  limb_ok x -> limb_ok y ->
  to_Z (sub_same_sign past (mkBig [x] s) (mkBig [y] s))
  = to_Z (mkBig [x] s) - to_Z (mkBig [y] s)
  /\ limbs_ok (value (sub_same_sign past (mkBig [x] s) (mkBig [y] s))).
Proof.
  intros Hx Hy. unfold limb_ok in *.
  apply sub_same_sign_exact; cbn [value negative length Nat.ltb Nat.leb];
    try (repeat constructor; unfold limb_ok; lia).
  - unfold operator_gt, operator_lt. cbn [value negative length rev app std_equal].
    rewrite Bool.eqb_reflx. cbn [negb Nat.eqb].
    destruct (Z.ltb_spec y x), s; cbn; intros; try discriminate; lia.
  - unfold operator_gt, operator_lt. cbn [value negative length rev app std_equal].
    rewrite Bool.eqb_reflx. cbn [negb Nat.eqb].
    destruct (Z.ltb_spec y x), s; cbn; intros; try discriminate; lia.
Qed.

(** X13: on one-limb operands (limbs in range, any signs) [a += b] and
    [a -= b] are the exact sum and difference, whatever word lies behind
    the storage. *)
Theorem X13_one_limb_arithmetic_is_exact (past x y : Z) (sa sb : bool) :
  limb_ok x -> limb_ok y ->
  (exists r, operator_add_assign 2 past (mkBig [x] sa) (mkBig [y] sb) = Some r
             /\ to_Z r = to_Z (mkBig [x] sa) + to_Z (mkBig [y] sb))
  /\ (exists r, operator_sub_assign 2 past (mkBig [x] sa) (mkBig [y] sb) = Some r
                /\ to_Z r = to_Z (mkBig [x] sa) - to_Z (mkBig [y] sb)).
Proof.
  intros Hx Hy.
  assert (Ha : limbs_ok [x]) by (constructor; [exact Hx|constructor]).
  assert (Hb : limbs_ok [y]) by (constructor; [exact Hy|constructor]).
  rewrite (operator_add_assign_unfold 0), (operator_sub_assign_unfold 0).
  cbn [negative].
  split; eexists; (split; [reflexivity|]).
  - destruct (Bool.eqb sa sb) eqn:E.
    + apply Bool.eqb_prop in E. subst sb.
      destruct (add_same_sign_spec (mkBig [x] sa) (mkBig [y] sa) Ha Hb)
        as (M & S & _).
      unfold to_Z. rewrite S, M. cbn [negative value]. destruct sa; lia.
    + rewrite eliminateNegativeZero_to_Z, flip_sign_to_Z.
      replace (flip_sign (mkBig [x] sa)) with (mkBig [x] sb)
        by (unfold flip_sign; cbn; destruct sa, sb; cbn in *; congruence).
      rewrite (proj1 (sub_same_sign_one_limb past x y sb Hx Hy)).
      unfold to_Z. cbn [negative value]. destruct sa, sb; cbn in *; try discriminate; lia.
  - destruct (Bool.eqb sa sb) eqn:E.
    + apply Bool.eqb_prop in E. subst sb.
      apply sub_same_sign_one_limb; assumption.
    + rewrite flip_sign_to_Z.
      assert (Hf : limbs_ok (value (flip_sign (mkBig [x] sa)))) by exact Ha.
      destruct (add_same_sign_spec (flip_sign (mkBig [x] sa)) (mkBig [y] sb) Hf Hb)
        as (M & S & _).
      unfold to_Z. rewrite S, M. cbn [flip_sign negative value].
      destruct sa, sb; cbn in *; try discriminate; lia.
Qed.

Lemma X13_witness :
  limb_ok 3 /\ limb_ok 4294967295
  /\ (exists r, operator_add_assign 2 9 (mkBig [3] false) (mkBig [4294967295] true) = Some r
                /\ to_Z r = to_Z (mkBig [3] false) + to_Z (mkBig [4294967295] true))
  /\ (exists r, operator_sub_assign 2 9 (mkBig [3] false) (mkBig [4294967295] true) = Some r
                /\ to_Z r = to_Z (mkBig [3] false) - to_Z (mkBig [4294967295] true)).
Proof.
  assert (H1 : limb_ok 3) by (unfold limb_ok; lia).
  assert (H2 : limb_ok 4294967295) by (unfold limb_ok; lia).
  split; [exact H1|]. split; [exact H2|].
  exact (X13_one_limb_arithmetic_is_exact 9 3 4294967295 false true H1 H2).
Defined.

(** * Bitwise operators on sign and magnitude *)

Lemma testbit_limb_cons (x X n : Z) :
  0 <= x < 2 ^ 32 -> 0 <= n ->
  Z.testbit (x + 2 ^ 32 * X) n
  = if n <? 32 then Z.testbit x n else Z.testbit X (n - 32).
Proof.
  intros Hx Hn. destruct (Z.ltb_spec n 32) as [L|L].
  - rewrite <- (Z.mod_pow2_bits_low (x + 2 ^ 32 * X) 32 n) by lia.
    rewrite (Z.mul_comm (2 ^ 32) X), Z.mod_add by lia.
    rewrite Z.mod_small by lia. reflexivity.
  - replace n with ((n - 32) + 32) at 1 by lia.
    rewrite <- Z.div_pow2_bits by lia.
    rewrite (Z.mul_comm (2 ^ 32) X), Z.div_add by lia.
    rewrite Z.div_small by lia. reflexivity.
Qed.

Lemma limb_high_bits (x n : Z) : 0 <= x < 2 ^ 32 -> 32 <= n -> Z.testbit x n = false.
Proof.
  intros Hx Hn. rewrite <- (Z.mod_small x (2 ^ 32)) by lia.
  apply Z.mod_pow2_bits_high. lia.
Qed.

Lemma limb_of_bits (z : Z) :
  0 <= z -> (forall n, 32 <= n -> Z.testbit z n = false) -> 0 <= z < 2 ^ 32.
Proof.
  intros Hz H. assert (E : z mod 2 ^ 32 = z).
  { apply Z.bits_inj'. intros n Hn. destruct (Z.ltb_spec n 32) as [L|L].
    - apply Z.mod_pow2_bits_low. lia.
    - rewrite Z.mod_pow2_bits_high by lia. symmetry. apply H. lia. }
  rewrite <- E. apply Z.mod_pos_bound. lia.
Qed.

Section Bitop.
(** A bitwise operator [op] with bit function [bop] that maps two clear
    bits to a clear bit. *)
Variable op : Z -> Z -> Z.
Variable bop : bool -> bool -> bool.
Hypothesis op_spec : forall a b n, Z.testbit (op a b) n = bop (Z.testbit a n) (Z.testbit b n).
Hypothesis op_nonneg : forall a b, 0 <= a -> 0 <= b -> 0 <= op a b.
Hypothesis bop_false : bop false false = false.

Lemma op_limb (x y : Z) : limb_ok x -> limb_ok y -> limb_ok (op x y).
Proof.
  unfold limb_ok. intros Hx Hy. apply limb_of_bits.
  - apply op_nonneg; lia.
  - intros n Hn. rewrite op_spec, !limb_high_bits by assumption. exact bop_false.
Qed.

Lemma op_limb_cons (x y X Y : Z) :
  limb_ok x -> limb_ok y ->
  op (x + 2 ^ 32 * X) (y + 2 ^ 32 * Y) = op x y + 2 ^ 32 * op X Y.
Proof.
  intros Hx Hy. pose proof (op_limb x y Hx Hy) as Ho. unfold limb_ok in *.
  apply Z.bits_inj'. intros n Hn.
  rewrite op_spec, !testbit_limb_cons by assumption.
  destruct (n <? 32); rewrite op_spec; reflexivity.
Qed.

Lemma op_0_0 : op 0 0 = 0.
Proof.
  apply Z.bits_inj'. intros n Hn. rewrite op_spec, Z.bits_0. exact bop_false.
Qed.

(** The transform over equally long ranges. *)
Lemma transform_same_length (behind : nat -> Z) (k : nat) (l r : list Z) :
  limbs_ok l -> limbs_ok r -> length l = length r ->
  magnitude (std_transform op behind k l r) = op (magnitude l) (magnitude r)
  /\ limbs_ok (std_transform op behind k l r)
  /\ length (std_transform op behind k l r) = length l.
Proof.
  intros Hl. revert r. induction Hl as [|x t Hx Ht IH]; intros r Hr L.
  - destruct r; [|discriminate]. cbn. rewrite op_0_0. repeat split. constructor.
  - destruct Hr as [|y u Hy Hu]; [discriminate|].
    cbn [std_transform magnitude length] in *.
    destruct (IH u Hu ltac:(lia)) as (M & O & Len).
    rewrite M, op_limb_cons by assumption.
    repeat split; [constructor; [apply op_limb; assumption|exact O]|lia].
Qed.
End Bitop.

Lemma land_nonneg2 (a b : Z) : 0 <= a -> 0 <= b -> 0 <= Z.land a b.
Proof. intros Ha Hb. apply Z.land_nonneg. left. exact Ha. Qed.

Lemma lor_nonneg2 (a b : Z) : 0 <= a -> 0 <= b -> 0 <= Z.lor a b.
Proof. intros Ha Hb. apply Z.lor_nonneg. split; assumption. Qed.

Lemma lxor_nonneg2 (a b : Z) : 0 <= a -> 0 <= b -> 0 <= Z.lxor a b.
Proof. intros Ha Hb. apply Z.lxor_nonneg. split; intros; assumption. Qed.

Lemma trimLeadingZeros_magnitude (past : Z) (b : BigInteger) :
  magnitude (value (trimLeadingZeros_ past b)) = magnitude (value b).
Proof.
  unfold trimLeadingZeros_. rewrite eliminateNegativeZero_value. cbn [value].
  pose proof (trim_loop_spec (vread past (value b)) (length (value b))) as Hs.
  cbn zeta in Hs. destruct Hs as (_ & Hz & _).
  apply magnitude_resize. intros i Hi.
  rewrite <- (Hz i) by lia. unfold vread. apply nth_indep. lia.
Qed.

Lemma trimLeadingZeros_sign (past : Z) (b : BigInteger) :
  negative (trimLeadingZeros_ past b) = negative b
  \/ (negative (trimLeadingZeros_ past b) = false
      /\ value (trimLeadingZeros_ past b) = [0]).
Proof.
  unfold trimLeadingZeros_, eliminateNegativeZero_. cbn [value negative].
  set (v := resize (value b) _).
  destruct ((length v =? 1)%nat && (hd 0 v =? 0)) eqn:E; cbn [value negative].
  - right. split; [reflexivity|].
    apply andb_prop in E. destruct E as [E1 E2].
    apply Nat.eqb_eq in E1. apply Z.eqb_eq in E2.
    destruct v as [|x [|y t]]; simpl in *; try discriminate. congruence.
  - left. reflexivity.
Qed.

(** ** X14: AND *)

Lemma and_transform (behind : nat -> Z) (k : nat) (l r : list Z) :
  limbs_ok l -> limbs_ok r ->
  magnitude (std_transform Z.land behind k (firstn (length r) l) r)
  = Z.land (magnitude l) (magnitude r)
  /\ limbs_ok (std_transform Z.land behind k (firstn (length r) l) r)
  /\ length (std_transform Z.land behind k (firstn (length r) l) r)
     = Nat.min (length l) (length r).
Proof.
  intros Hl. revert r. induction Hl as [|x t Hx Ht IH]; intros r Hr.
  - rewrite firstn_nil. cbn. repeat split. constructor.
  - destruct Hr as [|y u Hy Hu].
    + cbn. rewrite Z.land_0_r. repeat split. constructor.
    + cbn [length firstn std_transform magnitude Nat.min].
      destruct (IH u Hu) as (M & O & L).
      rewrite M. rewrite (op_limb_cons Z.land andb Z.land_spec land_nonneg2 eq_refl)
        by assumption.
      repeat split; [|lia].
      constructor; [|exact O].
      apply (op_limb Z.land andb Z.land_spec land_nonneg2 eq_refl); assumption.
Qed.

Lemma and_operand (lv rv : list Z) :
  (if (length rv <? length lv)%nat then resize lv (length rv) else lv)
  = firstn (length rv) lv.
Proof.
  destruct (Nat.ltb_spec (length rv) (length lv)) as [H|H].
  - unfold resize. replace (length rv - length lv)%nat with O by lia.
    cbn [repeat]. apply app_nil_r.
  - symmetry. apply firstn_all2. exact H.
Qed.



(** ** X15: XOR *)

Lemma xor_transform (behind : nat -> Z) (k : nat) (l r : list Z) :
  limbs_ok l -> limbs_ok r ->
  let size := Nat.min (length l) (length r) in
  let l' := if (length l =? size)%nat then l ++ skipn size r else l in
  let res := std_transform Z.lxor behind k (firstn size l') r ++ skipn size l' in
  magnitude res = Z.lxor (magnitude l) (magnitude r)
  /\ limbs_ok res
  /\ length res = Nat.max (length l) (length r).
Proof.
  intros Hl. revert r. induction Hl as [|x t Hx Ht IH]; intros r Hr.
  - cbn [length Nat.min Nat.eqb app skipn firstn std_transform].
    cbn [std_transform app magnitude Nat.max].
    rewrite Z.lxor_0_l. repeat split. exact Hr.
  - destruct Hr as [|y u Hy Hu].
    + cbn [length Nat.min Nat.eqb firstn skipn std_transform app magnitude Nat.max].
      rewrite Z.lxor_0_r. repeat split. constructor; assumption.
    + specialize (IH u Hu). cbn zeta in IH.
      cbn [length Nat.min Nat.eqb Nat.max].
      destruct (length t =? Nat.min (length t) (length u))%nat;
        cbn [app firstn skipn std_transform magnitude length];
        destruct IH as (M & O & L); rewrite M;
        rewrite (op_limb_cons Z.lxor xorb Z.lxor_spec lxor_nonneg2 eq_refl)
          by assumption;
        (repeat split; [|lia]);
        (constructor; [|exact O]);
        apply (op_limb Z.lxor xorb Z.lxor_spec lxor_nonneg2 eq_refl); assumption.
Qed.

(** X15: for operands with limbs in range, [a ^= b] leaves the magnitude
    [|a| XOR |b|] (as integers), with limbs in range; the sign flag is the
    exclusive-or of the operands' flags, cleared for the single limb zero;
    in particular [a ^= a] has magnitude zero. *)
Theorem X15_xor_is_bitwise_on_magnitudes (past : Z) (a b : BigInteger) :
  limbs_ok (value a) -> limbs_ok (value b) ->
  let r := operator_xor_assign past a b in
  magnitude (value r) = Z.lxor (magnitude (value a)) (magnitude (value b))
  /\ limbs_ok (value r) /\ value r <> []
  /\ (negative r = xorb (negative a) (negative b)
      \/ (negative r = false /\ value r = [0]))
  /\ (past = 0 -> value a <> [] -> normalized r = true)
  /\ magnitude (value (operator_xor_assign past a a)) = 0.
Proof.
  intros Ha Hb r. unfold r, operator_xor_assign.
  destruct (xor_transform (fun _ => 0) 0 (value a) (value b) Ha Hb) as (M & O & L).
  cbn zeta in M, O, L.
  set (t := mkBig _ (xorb (negative a) (negative b))).
  destruct (trimLeadingZeros_spec past t) as (Hne & _ & HO & HN).
  split; [rewrite trimLeadingZeros_magnitude; exact M|].
  split; [apply HO; exact O|]. split; [exact Hne|].
  split; [apply (trimLeadingZeros_sign past t)|].
  split.
  - intros Hp Ea. apply HN; [exact Hp|].
    unfold t. cbn [value]. intros E. rewrite E in L. cbn [length] in L.
    assert (L0 : length (value a) = 0%nat) by lia.
    apply Ea. destruct (value a); [reflexivity|discriminate].
  - rewrite trimLeadingZeros_magnitude. cbn [value].
    destruct (xor_transform (fun _ => 0) 0 (value a) (value a) Ha Ha) as (M' & _).
    cbn zeta in M'. rewrite M'. apply Z.lxor_nilpotent.
Qed.

Lemma X15_witness :
  limbs_ok (value (mkBig [12] true)) /\ limbs_ok (value (mkBig [10; 3] false))
  /\ let r := operator_xor_assign 0 (mkBig [12] true) (mkBig [10; 3] false) in
     magnitude (value r)
     = Z.lxor (magnitude (value (mkBig [12] true))) (magnitude (value (mkBig [10; 3] false)))
     /\ limbs_ok (value r) /\ value r <> []
     /\ (negative r = xorb (negative (mkBig [12] true)) (negative (mkBig [10; 3] false))
         \/ (negative r = false /\ value r = [0]))
     /\ (0 = 0 -> value (mkBig [12] true) <> [] -> normalized r = true)
     /\ magnitude (value (operator_xor_assign 0 (mkBig [12] true) (mkBig [12] true))) = 0.
Proof.
  assert (H1 : limbs_ok (value (mkBig [12] true)))
    by (repeat constructor; unfold limb_ok; lia).
  assert (H2 : limbs_ok (value (mkBig [10; 3] false)))
    by (repeat constructor; unfold limb_ok; lia).
  split; [exact H1|]. split; [exact H2|].
  exact (X15_xor_is_bitwise_on_magnitudes 0 _ _ H1 H2).
Defined.

(** ** X16: OR *)

Lemma transform_behind (op : Z -> Z -> Z) (behind : nat -> Z) (l : list Z) :
  forall (r : list Z) (k i : nat),
  (length r <= i < length l)%nat ->
  nth i (std_transform op behind k l r) 0
  = op (nth i l 0) (behind (k + (i - length r))%nat).
Proof.
  induction l as [|x t IH]; intros r k i Hi; [cbn in Hi; lia|].
  destruct r as [|y u]; cbn [std_transform length] in *.
  - destruct i as [|i]; cbn [nth].
    + replace (k + (0 - 0))%nat with k by lia. reflexivity.
    + rewrite (IH [] (S k) i) by (cbn [length]; lia). cbn [length].
      replace (S k + (i - 0))%nat with (k + (S i - 0))%nat by lia. reflexivity.
  - destruct i as [|i]; [lia|]. cbn [nth].
    rewrite (IH u k i) by lia. reflexivity.
Qed.

Lemma lor_lower_bound (a b k : Z) :
  0 <= a -> 0 < b -> 0 <= k -> 2 ^ k <= b -> 2 ^ k <= Z.lor a b.
Proof.
  intros Ha Hb Hk H.
  assert (Hl : 0 <= Z.lor a b) by (apply Z.lor_nonneg; lia).
  assert (Hne : Z.lor a b <> 0).
  { intros E. apply Z.lor_eq_0_iff in E. lia. }
  apply Z.log2_le_pow2; [lia|].
  rewrite Z.log2_lor by lia.
  apply Z.log2_le_pow2 in H; lia.
Qed.

(** X16: when [a] has no more limbs than [b] (limbs in range), [a |= b]
    leaves the magnitude [|a| OR |b|] with the size of [b], limbs in range
    and the disjunction of the sign flags, reads nothing behind a storage,
    and keeps normalized operands normalized; when [a] has more limbs than
    [b], each limb of [a] from index [b.size()] on is combined with a word
    read behind the storage of [b]. *)
Theorem X16_or_is_bitwise_within_bounds (behind : nat -> Z) (a b : BigInteger) :
  limbs_ok (value a) -> limbs_ok (value b) ->
  ((length (value a) <= length (value b))%nat ->
   let r := operator_or_assign behind a b in
   magnitude (value r) = Z.lor (magnitude (value a)) (magnitude (value b))
   /\ limbs_ok (value r)
   /\ length (value r) = length (value b)
   /\ negative r = negative a || negative b
   /\ (normalized a = true -> normalized b = true -> normalized r = true))
  /\ (forall i, (length (value b) <= i < length (value a))%nat ->
      nth i (value (operator_or_assign behind a b)) 0
      = Z.lor (nth i (value a) 0) (behind (i - length (value b))%nat)).
Proof.
  intros Ha Hb. split.
  - intros L r. unfold r, operator_or_assign. cbn [value negative].
    destruct (resized_operand (value a) (value b) Ha) as (Hl & Ml & Ll & Lmax).
    set (l := if (length (value a) <? length (value b))%nat
              then resize (value a) (length (value b)) else value a) in *.
    assert (Leq : length l = length (value b)) by lia.
    destruct (transform_same_length Z.lor orb Z.lor_spec lor_nonneg2 eq_refl
                behind 0 l (value b) Hl Hb Leq) as (M & O & Len).
    rewrite M, Ml. split; [reflexivity|]. split; [exact O|].
    split; [lia|]. split; [reflexivity|].
    intros Na Nb.
    pose proof (magnitude_nonneg _ Ha) as Pa. pose proof (magnitude_nonneg _ Hb) as Pb.
    destruct a as [va na], b as [vb nb]. cbn [value negative] in *.
    destruct (Z.eq_dec (Z.lor (magnitude va) (magnitude vb)) 0) as [Z0|Z0].
    + apply Z.lor_eq_0_iff in Z0. destruct Z0 as [Za Zb].
      destruct (normalized_zero va na Ha Za Na) as [Ea En].
      destruct (normalized_zero vb nb Hb Zb Nb) as [Eb En'].
      subst va vb na nb. reflexivity.
    + assert (Pl : 0 <= Z.lor (magnitude va) (magnitude vb))
        by (apply Z.lor_nonneg; lia).
      apply normalized_positive.
      * exact O.
      * rewrite M, Ml. lia.
      * rewrite M, Ml, Len, Leq.
        destruct (normalized_lower_bound vb nb Hb Nb) as [[Zb Lb]|[Qb Bb]].
        -- rewrite Lb. cbn. lia.
        -- apply lor_lower_bound; try lia.
  - intros i Hi. unfold operator_or_assign. cbn [value].
    replace (length (value a) <? length (value b))%nat with false
      by (symmetry; apply Nat.ltb_ge; lia).
    rewrite transform_behind by exact Hi. reflexivity.
Qed.

Lemma X16_witness :
  let a := mkBig [12] false in
  let b := mkBig [3; 5] true in
  limbs_ok (value a) /\ limbs_ok (value b)
  /\ ((length (value a) <= length (value b))%nat ->
      let r := operator_or_assign (fun _ => 77) a b in
      magnitude (value r) = Z.lor (magnitude (value a)) (magnitude (value b))
      /\ limbs_ok (value r)
      /\ length (value r) = length (value b)
      /\ negative r = negative a || negative b
      /\ (normalized a = true -> normalized b = true -> normalized r = true)).
Proof.
  intros a b.
  assert (H1 : limbs_ok (value a))
    by (repeat constructor; unfold limb_ok; lia).
  assert (H2 : limbs_ok (value b))
    by (repeat constructor; unfold limb_ok; lia).
  split; [exact H1|]. split; [exact H2|].
  exact (proj1 (X16_or_is_bitwise_within_bounds (fun _ => 77) a b H1 H2)).
Defined.

(** * The modular helpers *)

Lemma mod_val : mod_ = 3221225473.
Proof. reflexivity. Qed.

Lemma mod_pos : 0 < mod_.
Proof. rewrite mod_val. lia. Qed.

Lemma land_1 (e : Z) : Z.land e 1 = e mod 2.
Proof. change 1 with (Z.ones 1) at 1. rewrite Z.land_ones by lia. reflexivity. Qed.

Lemma shiftr_1 (e : Z) : Z.shiftr e 1 = e / 2.
Proof. rewrite Z.shiftr_div_pow2 by lia. reflexivity. Qed.

Lemma pow_half (b e : Z) :
  0 <= e -> b ^ e = (b * b) ^ (e / 2) * b ^ (e mod 2).
Proof.
  intros He. rewrite (Z.div_mod e 2) at 1 by lia.
  pose proof (Z.mod_pos_bound e 2 ltac:(lia)).
  assert (0 <= e / 2) by (apply Z.div_pos; lia).
  rewrite Z.pow_add_r, Z.pow_mul_r by lia.
  rewrite Z.pow_2_r. reflexivity.
Qed.

Lemma mul_pow_mod (A B h : Z) :
  (A mod mod_ * (B mod mod_) ^ h) mod mod_ = (A * B ^ h) mod mod_.
Proof.
  pose proof mod_pos.
  rewrite (Z.mul_mod (A mod mod_)) by lia.
  rewrite Z.mod_mod, Z.mod_pow_l by lia.
  rewrite <- Z.mul_mod by lia. reflexivity.
Qed.

Lemma mul_pow_mod_r (A B h : Z) :
  0 <= A < mod_ ->
  (A * (B mod mod_) ^ h) mod mod_ = (A * B ^ h) mod mod_.
Proof.
  intros HA. rewrite <- (Z.mod_small A mod_) at 1 by exact HA.
  apply mul_pow_mod.
Qed.

Lemma modpow_loop_spec (f : nat) : forall retn b e : Z,
  (1 <= f)%nat -> 0 <= retn < mod_ -> 0 <= b < 2 ^ 32 ->
  0 <= e < 2 ^ Z.of_nat f ->
  modpow_loop f retn b e = Some ((retn * b ^ e) mod mod_).
Proof.
  pose proof mod_val as Hp.
  induction f as [|f IH]; intros retn b e Hf Hr Hb He; [lia|].
  cbn [modpow_loop]. rewrite land_1, shiftr_1.
  assert (Hd : e mod 2 = 0 \/ e mod 2 = 1)
    by (pose proof (Z.mod_pos_bound e 2 ltac:(lia)); lia).
  assert (Hh : 0 <= e / 2) by (apply Z.div_pos; lia).
  assert (Hrb : wrap64 (retn * b) = retn * b) by (apply wrap64_id; nia).
  assert (Hbb : wrap64 (b * b) = b * b) by (apply wrap64_id; nia).
  rewrite Hrb, Hbb.
  pose proof (Z.mod_pos_bound (retn * b) mod_ ltac:(lia)) as B1.
  pose proof (Z.mod_pos_bound (b * b) mod_ ltac:(lia)) as B2.
  destruct (Z.eqb_spec (e / 2) 0) as [E0|E0].
  - (* the last round: [e] is 0 or 1 *)
    assert (He01 : e = 0 \/ e = 1).
    { pose proof (Z.div_mod e 2 ltac:(lia)). lia. }
    destruct He01 as [->| ->]; cbn [Z.modulo Z.eqb].
    + change (0 mod 2 =? 0) with true. cbv iota.
      rewrite Z.pow_0_r, Z.mul_1_r. rewrite Z.mod_small by lia. reflexivity.
    + change (1 mod 2 =? 0) with false. cbv iota.
      rewrite Z.pow_1_r. reflexivity.
  - assert (He2 : 2 <= e) by (pose proof (Z.div_mod e 2 ltac:(lia)); lia).
    replace (Z.lxor e 1 =? 0) with false
      by (symmetry; apply Z.eqb_neq; intros E; apply Z.lxor_eq in E; lia).
    assert (Hf' : (1 <= f)%nat).
    { destruct f; [|lia]. change (2 ^ Z.of_nat 1) with 2 in He. lia. }
    assert (Heh : 0 <= e / 2 < 2 ^ Z.of_nat f).
    { split; [exact Hh|]. apply Z.div_lt_upper_bound; [lia|].
      rewrite Nat2Z.inj_succ, Z.pow_succ_r in He by lia. lia. }
    rewrite (pow_half b e) by lia.
    destruct Hd as [Hd|Hd]; rewrite Hd.
    + change (0 =? 0) with true. cbv iota.
      rewrite IH by (try assumption; lia).
      rewrite Z.pow_0_r, Z.mul_1_r.
      rewrite mul_pow_mod_r by exact Hr. reflexivity.
    + change (1 =? 0) with false. cbv iota.
      rewrite IH by (try assumption; lia).
      rewrite Z.pow_1_r.
      rewrite mul_pow_mod. do 2 f_equal. ring.
Qed.

(** ** X17 *)



(** ** The extended Euclidean loop *)

Section Euclid.
(** The arguments of [modinv_]. *)
Variables m0 n0 : Z.

Lemma euclid_step (x y xp yp m n r q : Z) :
  euclid_inv m0 n0 x y xp yp m n r q -> r <> 0 ->
  euclid_inv m0 n0 (xp - q * x) (yp - q * y) x y n r (Z.rem n r) (Z.quot n r)
  /\ 2 * (r * Z.rem n r) < n * r.
Proof.
  intros (Hm & Hn & Hr & Hq & Bx & Bxp & Hg & Hs & Ha) Hr0.
  pose proof (Z.mod_pos_bound m n Hn) as Br. rewrite <- Hr in Br.
  pose proof (Z.div_mod m n ltac:(lia)) as Hdm. rewrite <- Hr, <- Hq in Hdm.
  assert (Hq0 : 0 <= q) by (subst q; apply Z.div_pos; lia).
  assert (Hrpos : 0 < r) by lia.
  rewrite Z.rem_mod_nonneg, Z.quot_div_nonneg by lia.
  pose proof (Z.mod_pos_bound n r Hrpos) as Br'.
  pose proof (Z.div_mod n r ltac:(lia)) as Hdm'.
  assert (Hq1 : 1 <= n / r).
  { apply Z.div_le_lower_bound; lia. }
  split.
  - unfold euclid_inv.
    split; [lia|]. split; [lia|]. split; [reflexivity|]. split; [reflexivity|].
    split; [nia|]. split; [lia|].
    split; [subst r; rewrite Z.gcd_mod_r, Z.gcd_comm; exact Hg|].
    split; [nia|].
    destruct (Z.lt_trichotomy x 0) as [Hx|[Hx|Hx]].
    + assert (0 <= xp) by nia. assert (0 <= xp - q * x) by nia.
      rewrite (Z.abs_neq x), (Z.abs_eq (xp - q * x)) by lia.
      rewrite (Z.abs_neq x), (Z.abs_eq xp) in Ha by lia. nia.
    + subst x. rewrite Z.mul_0_r, Z.sub_0_r. cbn [Z.abs] in *. lia.
    + assert (xp <= 0) by nia. assert (xp - q * x <= 0) by nia.
      rewrite (Z.abs_eq x), (Z.abs_neq (xp - q * x)) by lia.
      rewrite (Z.abs_eq x), (Z.abs_neq xp) in Ha by lia. nia.
  - nia.
Qed.

Lemma euclid_exit (x y xp yp m n q : Z) :
  1 < n0 ->
  euclid_inv m0 n0 x y xp yp m n 0 q ->
  (m0 * (x + n0)) mod n0 = 1 /\ 0 < x + n0 < 2 * n0.
Proof.
  intros Hn0 (Hm & Hn & Hr & Hq & Bx & Bxp & Hg & Hs & Ha).
  assert (Hn1 : n = 1).
  { rewrite <- (Z.gcd_mod_l m n) in Hg. rewrite <- Hr in Hg.
    rewrite Z.gcd_0_l in Hg. lia. }
  subst n.
  assert (Hcong : (m0 * (x + n0)) mod n0 = 1).
  { replace (m0 * (x + n0)) with (1 + (m0 - y) * n0) by lia.
    rewrite Z.mod_add by lia. apply Z.mod_small. lia. }
  split; [exact Hcong|].
  assert (Hx : Z.abs x <= n0) by nia.
  assert (Hne : x <> - n0).
  { intros E. subst x. replace (- n0 + n0) with 0 in Hcong by lia.
    rewrite Z.mul_0_r, Z.mod_0_l in Hcong by lia. discriminate. }
  assert (Hne' : x <> n0).
  { intros E. subst x.
    replace (m0 * (n0 + n0)) with (0 + (2 * m0) * n0) in Hcong by lia.
    rewrite Z.mod_add, Z.mod_0_l in Hcong by lia. discriminate. }
  lia.
Qed.

Lemma modinv_loop_spec (f : nat) : forall x y xp yp m n r q : Z,
  1 < n0 ->
  euclid_inv m0 n0 x y xp yp m n r q -> n * r < 2 ^ Z.of_nat f ->
  exists xf, modinv_loop (S f) x y xp yp m n r q = Some xf
             /\ (m0 * (xf + n0)) mod n0 = 1 /\ 0 < xf + n0 < 2 * n0.
Proof.
  induction f as [|f IH]; intros x y xp yp m n r q Hn0 Hinv Hphi.
  - assert (r = 0).
    { destruct Hinv as (Hm & Hn & Hr & _).
      pose proof (Z.mod_pos_bound m n Hn). change (2 ^ Z.of_nat 0) with 1 in Hphi.
      nia. }
    subst r. exists x. split; [reflexivity|].
    apply (euclid_exit x y xp yp m n q Hn0 Hinv).
  - cbn [modinv_loop]. fold (modinv_loop (S f)).
    destruct (Z.eqb_spec r 0) as [->|Hr0].
    + exists x. split; [reflexivity|].
      apply (euclid_exit x y xp yp m n q Hn0 Hinv).
    + destruct (euclid_step x y xp yp m n r q Hinv Hr0) as (Hinv' & Hdec).
      apply (IH _ _ _ _ _ _ _ _ Hn0 Hinv').
      rewrite Nat2Z.inj_succ, Z.pow_succ_r in Hphi by lia. lia.
Qed.
End Euclid.

Lemma modinv_loop_more_fuel (f f' : nat) (x y xp yp m n r q res : Z) :
  modinv_loop f x y xp yp m n r q = Some res -> (f <= f')%nat ->
  modinv_loop f' x y xp yp m n r q = Some res.
Proof.
  revert f' x y xp yp m n r q.
  induction f as [|f IH]; intros f' x y xp yp m n r q H L.
  - discriminate.
  - destruct f' as [|f']; [lia|]. cbn [modinv_loop] in *.
    destruct (r =? 0); [exact H|].
    apply IH; [exact H|lia].
Qed.

(** ** X18 *)



(** * [operator~] *)

Lemma normalized_any_sign (v : list Z) (n n' : bool) :
  limbs_ok v -> 0 < magnitude v ->
  normalized (mkBig v n) = normalized (mkBig v n').
Proof.
  intros Hok Hm.
  apply Bool.eq_true_iff_eq.
  rewrite (normalized_positive v n Hok Hm), (normalized_positive v n' Hok Hm).
  reflexivity.
Qed.

Lemma operator_inc_value (past : Z) (a : BigInteger) :
  limbs_ok (value a) -> normalized a = true ->
  to_Z (operator_inc past a) = to_Z a + 1
  /\ limbs_ok (value (operator_inc past a))
  /\ (past = 0 -> normalized (operator_inc past a) = true).
Proof.
  intros Hok Hn. destruct (negative a) eqn:Ea.
  - pose proof (normalized_negative_positive a Hok Hn Ea) as M.
    destruct a as [v neg]. cbn [value negative] in *. subst neg.
    destruct (shrink_spec past v true Hok M) as (M1 & HO & HS & HN).
    unfold operator_inc. cbn [negative negb value].
    set (r := trimLeadingZeros_ past (mkBig (fst (dec_loop v)) true)) in *.
    split; [|split; [exact HO|exact HN]].
    pose proof (magnitude_nonneg _ HO) as P.
    unfold to_Z. cbn [negative value].
    destruct (Z.eq_dec (magnitude (value r)) 0) as [Z0|Z0].
    + rewrite Z0. destruct (negative r); lia.
    + rewrite (HS ltac:(lia)). lia.
  - destruct (operator_inc_nonneg past a Hok Ea) as (H1 & H2 & H3).
    split; [exact H1|]. split; [exact H2|]. intros _. apply H3. exact Hn.
Qed.

(** ** X29 *)

(** X29: for a normalized value [a] with limbs in range, [~a] (a copy,
    [++], then the sign flag flipped) stands for the integer [-a - 1]
    whatever word lies behind the storage, with limbs in range; with a zero
    word there it is normalized for every [a] but [-1], for which
    it is the negative zero. *)
Theorem X29_operator_not_is_minus_a_minus_one (past : Z) (a : BigInteger) :
  limbs_ok (value a) -> normalized a = true ->
  to_Z (operator_not past a) = - to_Z a - 1
  /\ limbs_ok (value (operator_not past a))
  /\ (past = 0 -> normalized (operator_not past a) = negb (to_Z a =? -1)).
Proof.
  intros Hok Hn.
  destruct (operator_inc_value past a Hok Hn) as (I1 & I2 & I3).
  unfold operator_not. set (r := operator_inc past a) in *.
  cbn [value]. split; [|split; [exact I2|]].
  - assert (F : to_Z (mkBig (value r) (xorb (negative r) true)) = - to_Z r).
    { unfold to_Z. cbn [negative value]. destruct (negative r); cbn [xorb]; lia. }
    lia.
  - intros Hp. specialize (I3 Hp).
    pose proof (magnitude_nonneg _ I2) as P.
    destruct (Z.eq_dec (magnitude (value r)) 0) as [Z0|Z0].
    + assert (E : r = mkBig [0] false).
      { destruct r as [v n]. cbn [value] in *.
        destruct (normalized_zero v n I2 Z0 I3) as [-> ->]. reflexivity. }
      rewrite E in *. cbn [value negative xorb].
      replace (to_Z a =? -1) with true
        by (symmetry; apply Z.eqb_eq; cbn in I1; lia).
      reflexivity.
    + rewrite (normalized_any_sign (value r) _ (negative r) I2 ltac:(lia)).
      replace (mkBig (value r) (negative r)) with r by (destruct r; reflexivity).
      rewrite I3. symmetry. apply negb_true_iff. apply Z.eqb_neq.
      unfold to_Z in I1 at 1. destruct (negative r); lia.
Qed.

Lemma X29_witness :
  limbs_ok (value (BigInteger_of_int64 (-4294967296)))
  /\ normalized (BigInteger_of_int64 (-4294967296)) = true
  /\ to_Z (operator_not 9 (BigInteger_of_int64 (-4294967296)))
     = - to_Z (BigInteger_of_int64 (-4294967296)) - 1
  /\ limbs_ok (value (operator_not 9 (BigInteger_of_int64 (-4294967296))))
  /\ (9 = 0 -> normalized (operator_not 9 (BigInteger_of_int64 (-4294967296)))
                = negb (to_Z (BigInteger_of_int64 (-4294967296)) =? -1)).
Proof.
  assert (H1 : limbs_ok (value (BigInteger_of_int64 (-4294967296))))
    by (repeat constructor; unfold limb_ok; cbn; lia).
  split; [exact H1|]. split; [reflexivity|].
  exact (X29_operator_not_is_minus_a_minus_one 9
           (BigInteger_of_int64 (-4294967296)) H1 eq_refl).
Defined.

(** * Subtraction of equal signs: the comparison decides *)

Lemma sub_same_sign_wrong (past : Z) (a b : BigInteger) :
  limbs_ok (value a) -> limbs_ok (value b) -> negative a = negative b ->
  let l := if (length (value a) <? length (value b))%nat
           then resize (value a) (length (value b)) else value a in
  let c := xorb (operator_gt (mkBig l (negative a)) b) (negative a) in
  (c = true /\ magnitude (value a) < magnitude (value b))
  \/ (c = false /\ magnitude (value b) < magnitude (value a)) ->
  to_Z (sub_same_sign past a b) <> to_Z a - to_Z b.
Proof.
  intros Ha Hb Hs l c Hw. unfold sub_same_sign. fold l. cbn [negative].
  fold c.
  destruct (resized_operand (value a) (value b) Ha) as (Hl & Ml & Ll & _).
  fold l in Hl, Ml, Ll.
  pose proof (magnitude_nonneg _ Ha) as Pa. pose proof (magnitude_nonneg _ Hb) as Pb.
  destruct (trimLeadingZeros_spec past
              (if c then mkBig (sub_limbs l (value b) 0) (negative a)
               else mkBig (rsub_limbs l (value b) 0) (negb (negative a))))
    as (_ & HZ & _ & _).
  rewrite HZ. destruct Hw as [[Hc Hlt]|[Hc Hlt]]; rewrite Hc.
  - destruct (sub_limbs_spec l (value b) 0 Hl Hb Ll ltac:(auto))
      as (HL & HOk & bout & HB & HM).
    pose proof (magnitude_nonneg _ HOk) as P. pose proof (magnitude_bound _ HOk) as B.
    rewrite HL in B. pose proof (pow32_pos (length l)).
    unfold to_Z. cbn [negative value]. rewrite <- Hs.
    destruct HB as [->| ->]; destruct (negative a); lia.
  - destruct (rsub_limbs_spec l (value b) 0 Hl Hb Ll ltac:(auto))
      as (low & bout & E & HL & HOk & HB & HM).
    pose proof (magnitude_bound _ Hb) as Bb.
    pose proof (pow32_pos (length (value b))) as Pp.
    assert (Hsplit : magnitude l
                     = magnitude (firstn (length (value b)) l)
                       + 2 ^ (32 * Z.of_nat (length (value b)))
                         * magnitude (skipn (length (value b)) l)).
    { rewrite <- (firstn_skipn (length (value b)) l) at 1.
      rewrite magnitude_app. rewrite length_firstn.
      replace (Nat.min (length (value b)) (length l)) with (length (value b)) by lia.
      reflexivity. }
    pose proof (magnitude_nonneg _ (limbs_ok_firstn l (length (value b)) Hl)) as Pf.
    pose proof (magnitude_nonneg _ (limbs_ok_skipn l (length (value b)) Hl)) as Ps.
    pose proof (magnitude_nonneg _ HOk) as P.
    set (high := magnitude (skipn (length (value b)) l)) in *.
    set (first := magnitude (firstn (length (value b)) l)) in *.
    set (W := 2 ^ (32 * Z.of_nat (length (value b)))) in *.
    unfold to_Z. cbn [negative value]. rewrite E, magnitude_app, HL. fold high W.
    rewrite <- Hs. intros Heq.
    assert (Hkey : W * (2 * high - bout) = 0).
    { destruct (negative a); cbn [negb] in Heq; lia. }
    assert (2 * high - bout = 0) by nia.
    destruct HB as [->| ->]; [|lia].
    assert (high = 0) by lia. nia.
Qed.

Lemma sub_same_sign_limbs (past : Z) (a b : BigInteger) :
  limbs_ok (value a) -> limbs_ok (value b) ->
  limbs_ok (value (sub_same_sign past a b)).
Proof.
  intros Ha Hb. unfold sub_same_sign.
  set (l := if (length (value a) <? length (value b))%nat
            then resize (value a) (length (value b)) else value a).
  destruct (resized_operand (value a) (value b) Ha) as (Hl & Ml & Ll & _).
  fold l in Hl, Ml, Ll. cbn [negative].
  set (c := xorb (operator_gt (mkBig l (negative a)) b) (negative a)).
  destruct (trimLeadingZeros_spec past
              (if c then mkBig (sub_limbs l (value b) 0) (negative a)
               else mkBig (rsub_limbs l (value b) 0) (negb (negative a))))
    as (_ & _ & HO & _).
  apply HO. destruct c; cbn [value].
  - destruct (sub_limbs_spec l (value b) 0 Hl Hb Ll ltac:(auto)) as (_ & HOk & _).
    exact HOk.
  - destruct (rsub_limbs_spec l (value b) 0 Hl Hb Ll ltac:(auto))
      as (low & bout & E & HL & HOk & _).
    rewrite E. apply limbs_ok_app; [exact HOk|]. apply limbs_ok_skipn. exact Hl.
Qed.

(** ** X30 *)

(** X30: for operands of equal sign with limbs in range, [a -= b] returns
    a value with limbs in range that stands for the exact difference if and
    only if the test [(lhs > rhs) ^ lhs.negative], made on the resized left
    operand, answers the order of the magnitudes: the borrow loops are
    exact, and every wrong difference of equal-sign operands comes from the
    comparison.  This holds whatever word lies behind the storage. *)
Theorem X30_equal_sign_difference_is_exact_iff_the_test_is_right
        (d : nat) (past : Z) (a b : BigInteger) :
  limbs_ok (value a) -> limbs_ok (value b) -> negative a = negative b ->
  let l := if (length (value a) <? length (value b))%nat
           then resize (value a) (length (value b)) else value a in
  let c := xorb (operator_gt (mkBig l (negative a)) b) (negative a) in
  exists r, operator_sub_assign (S d) past a b = Some r
            /\ limbs_ok (value r)
            /\ (to_Z r = to_Z a - to_Z b
                <-> (c = true -> magnitude (value b) <= magnitude (value a))
                    /\ (c = false -> magnitude (value a) <= magnitude (value b))).
Proof.
  intros Ha Hb Hs l c. cbn [operator_sub_assign].
  rewrite Hs, Bool.eqb_reflx. exists (sub_same_sign past a b).
  split; [reflexivity|]. split; [apply sub_same_sign_limbs; assumption|].
  split.
  - intros Heq. split; intros Hc.
    + destruct (Z.le_gt_cases (magnitude (value b)) (magnitude (value a)))
        as [L|G]; [exact L|].
      exfalso. apply (sub_same_sign_wrong past a b Ha Hb Hs); [|exact Heq].
      left. split; [exact Hc|lia].
    + destruct (Z.le_gt_cases (magnitude (value a)) (magnitude (value b)))
        as [L|G]; [exact L|].
      exfalso. apply (sub_same_sign_wrong past a b Ha Hb Hs); [|exact Heq].
      right. split; [exact Hc|lia].
  - intros [Ht Hf].
    exact (proj1 (sub_same_sign_exact past a b Ha Hb Hs Ht Hf)).
Qed.

Lemma X30_witness :
  let a := mkBig [5; 1] true in
  let b := mkBig [7] true in
  limbs_ok (value a) /\ limbs_ok (value b) /\ negative a = negative b
  /\ let l := if (length (value a) <? length (value b))%nat
              then resize (value a) (length (value b)) else value a in
     let c := xorb (operator_gt (mkBig l (negative a)) b) (negative a) in
     exists r, operator_sub_assign 1 3 a b = Some r
               /\ limbs_ok (value r)
               /\ (to_Z r = to_Z a - to_Z b
                   <-> (c = true -> magnitude (value b) <= magnitude (value a))
                       /\ (c = false -> magnitude (value a) <= magnitude (value b))).
Proof.
  intros a b.
  assert (H1 : limbs_ok (value a)) by (repeat constructor; unfold limb_ok; lia).
  assert (H2 : limbs_ok (value b)) by (repeat constructor; unfold limb_ok; lia).
  split; [exact H1|]. split; [exact H2|]. split; [reflexivity|].
  exact (X30_equal_sign_difference_is_exact_iff_the_test_is_right
           0 3 a b H1 H2 eq_refl).
Defined.

(** * Decimal input: the value [getDec_] builds *)

Lemma code_0 : code "0" = 48.
Proof. reflexivity. Qed.

Lemma code_range (c : ascii) : 0 <= code c < 256.
Proof.
  unfold code. pose proof (N_ascii_bounded c). lia.
Qed.

Lemma code_inj (c c' : ascii) : code c = code c' -> c = c'.
Proof.
  unfold code. intros H. apply N2Z.inj in H.
  rewrite <- (ascii_N_embedding c), <- (ascii_N_embedding c'). rewrite H. reflexivity.
Qed.

Lemma isdigit_val (c : ascii) :
  isdigit (code c) = true <-> 0 <= digit_val c <= 9.
Proof.
  unfold isdigit, digit_val. rewrite code_0. rewrite andb_true_iff.
  rewrite Z.leb_le, Z.leb_le. lia.
Qed.

Lemma chunk_base_val : chunk_base = 10 ^ 9.
Proof. reflexivity. Qed.

Lemma pow10_nth (j : nat) : (j <= 9)%nat -> nth j pow10 0 = 10 ^ Z.of_nat j.
Proof.
  intros H. do 10 (destruct j as [|j]; [reflexivity|]). lia.
Qed.

Lemma pow10_logBase : nth logBase pow10 0 = chunk_base.
Proof. reflexivity. Qed.

(** ** Streams in the good state *)

Lemma is_peek_good (b : list ascii) (c : ascii) (r : list ascii) :
  is_peek (good_stream b (c :: r)) = (code c, good_stream b (c :: r)).
Proof. reflexivity. Qed.

Lemma is_get_good (b : list ascii) (c : ascii) (r : list ascii) :
  is_get (good_stream b (c :: r)) = (code c, good_stream (c :: b) r).
Proof. reflexivity. Qed.

Lemma peek_ends_number (b rest : list ascii) :
  ends_number rest = true ->
  isdigit (fst (is_peek (good_stream b rest))) = false.
Proof.
  destruct rest as [|c r]; intros H.
  - reflexivity.
  - cbn [ends_number] in H. rewrite is_peek_good. cbn [fst].
    apply negb_true_iff in H. exact H.
Qed.

Lemma peek_twice_not_digit (s : istream) :
  isdigit (fst (is_peek s)) = false ->
  isdigit (fst (is_peek (snd (is_peek s)))) = false.
Proof.
  unfold is_peek. destruct (negb (good s)) eqn:G.
  - cbn [snd]. intros _.
    assert (G' : negb (good (set_fail s)) = true).
    { unfold good, set_fail. cbn. reflexivity. }
    rewrite G'. reflexivity.
  - destruct (pending s) as [|c r] eqn:P; cbn [fst snd].
    + intros _. assert (G' : negb (good (set_eof s)) = true).
      { unfold good, set_eof. cbn. rewrite orb_true_r. reflexivity. }
      rewrite G'. reflexivity.
    + intros H. rewrite G, P. exact H.
Qed.

(** ** Leading zeros *)

Lemma skip_zeros_spec (zs : list ascii) : forall (fuel : nat) (b rest : list ascii),
  Forall (fun c => code c = 48) zs ->
  hd 0 (map code rest) <> 48 ->
  (length zs < fuel)%nat ->
  skip_zeros fuel (good_stream b (zs ++ rest))
  = Some (snd (is_peek (good_stream (rev zs ++ b) rest))).
Proof.
  induction zs as [|z zs IH]; intros fuel b rest Hz Hr Hf.
  - destruct fuel as [|fuel]; [cbn in Hf; lia|]. cbn [skip_zeros app rev].
    destruct rest as [|c r].
    + reflexivity.
    + rewrite is_peek_good. cbn [map hd] in Hr. rewrite code_0.
      apply Z.eqb_neq in Hr. rewrite Hr. reflexivity.
  - destruct fuel as [|fuel]; [cbn in Hf; lia|].
    inversion Hz as [|? ? Hz1 Hz2]; subst.
    cbn [skip_zeros app]. rewrite is_peek_good, code_0, Hz1.
    cbn [Z.eqb Pos.eqb]. rewrite is_get_good. cbn [snd].
    rewrite IH by (try assumption; cbn [length] in Hf; lia).
    cbn [rev]. rewrite <- app_assoc. reflexivity.
Qed.

(** ** The digit loop *)

Lemma msval_snoc (D acc : Z) (l : list Z) (x : Z) :
  msval D acc (l ++ [x]) = msval D acc l * D + x.
Proof. unfold msval. rewrite fold_left_app. reflexivity. Qed.

Lemma pow10_S (l : nat) : 10 ^ Z.of_nat (S l) = 10 ^ Z.of_nat l * 10.
Proof. rewrite Nat2Z.inj_succ, Z.pow_succ_r by lia. lia. Qed.

Lemma read_digits_spec (nz : list ascii) :
  forall (fuel : nat) (b rest : list ascii) (value : Z) (logLen : nat)
         (decimal : list Z),
  Forall (fun c => isdigit (code c) = true) nz ->
  ends_number rest = true ->
  (length nz < fuel)%nat ->
  0 <= value < 10 ^ Z.of_nat logLen -> (logLen < 9)%nat ->
  Forall (fun d => 0 <= d < chunk_base) decimal ->
  exists v' l' d',
    read_digits fuel (good_stream b (nz ++ rest)) value logLen decimal
    = Some (snd (is_peek (good_stream (rev nz ++ b) rest)), v', l', d')
    /\ 0 <= v' < 10 ^ Z.of_nat l' /\ (l' < 9)%nat
    /\ Forall (fun d => 0 <= d < chunk_base) d'
    /\ msval chunk_base 0 d' * 10 ^ Z.of_nat l' + v'
       = fold_left (fun a c => a * 10 + digit_val c) nz
           (msval chunk_base 0 decimal * 10 ^ Z.of_nat logLen + value)
    /\ (9 * length d' + l' = 9 * length decimal + logLen + length nz)%nat.
Proof.
  induction nz as [|c nz IH]; intros fuel b rest value logLen decimal
                                     Hd Hr Hf Hv Hl Hc.
  - destruct fuel as [|fuel]; [cbn in Hf; lia|]. cbn [read_digits app].
    pose proof (peek_ends_number b rest Hr) as Hp.
    cbn [rev app].
    destruct (is_peek (good_stream b rest)) as [p s]. cbn [fst] in Hp.
    rewrite Hp. exists value, logLen, decimal.
    cbn [fold_left length snd]. repeat split; try assumption; lia.
  - destruct fuel as [|fuel]; [cbn in Hf; lia|].
    inversion Hd as [|? ? Hd1 Hd2]; subst.
    cbn [read_digits app]. rewrite is_peek_good, Hd1, is_get_good.
    apply isdigit_val in Hd1. unfold digit_val in Hd1.
    assert (Hpow : 10 ^ Z.of_nat logLen <= 10 ^ 8).
    { apply Z.pow_le_mono_r; lia. }
    assert (Hw : wrap64 (value * 10 + code c - code "0")
                 = value * 10 + digit_val c).
    { unfold digit_val.
      replace (value * 10 + code c - code "0")
        with (value * 10 + (code c - code "0")) by lia.
      apply wrap64_id. lia. }
    rewrite Hw. cbn [fold_left length].
    destruct (Nat.eqb_spec (S logLen) logBase) as [E|E].
    + unfold logBase in E. assert (logLen = 8%nat) by lia. subst logLen.
      assert (Hv' : 0 <= value * 10 + digit_val c < chunk_base).
      { unfold digit_val. rewrite chunk_base_val.
        change (10 ^ Z.of_nat 8) with 100000000 in Hv. lia. }
      rewrite wrap32_id by (rewrite chunk_base_val in Hv'; lia).
      destruct (IH fuel (c :: b) rest 0 O (decimal ++ [value * 10 + digit_val c])
                  Hd2 Hr ltac:(cbn [length] in Hf; lia)
                  ltac:(cbn; lia) ltac:(lia))
        as (v' & l' & d' & E1 & E2 & E3 & E4 & E5 & E6).
      { apply Forall_app. split; [exact Hc|]. constructor; [exact Hv'|constructor]. }
      exists v', l', d'. split; [rewrite E1; cbn [rev]; rewrite <- app_assoc; reflexivity|].
      split; [exact E2|]. split; [exact E3|]. split; [exact E4|].
      split.
      * rewrite E5. f_equal. rewrite msval_snoc.
        change (10 ^ Z.of_nat 0) with 1. change (10 ^ Z.of_nat 8) with 100000000.
        rewrite chunk_base_val. lia.
      * rewrite E6, length_app. cbn [length]. lia.
    + unfold logBase in E.
      destruct (IH fuel (c :: b) rest (value * 10 + digit_val c) (S logLen) decimal
                  Hd2 Hr ltac:(cbn [length] in Hf; lia))
        as (v' & l' & d' & E1 & E2 & E3 & E4 & E5 & E6).
      { rewrite pow10_S. unfold digit_val. lia. }
      { lia. }
      { exact Hc. }
      exists v', l', d'. split; [rewrite E1; cbn [rev]; rewrite <- app_assoc; reflexivity|].
      split; [exact E2|]. split; [exact E3|]. split; [exact E4|].
      split.
      * rewrite E5. f_equal. rewrite pow10_S. lia.
      * rewrite E6. lia.
Qed.

(** ** The alignment of the chunks *)

Lemma msval_rev (D : Z) (l : list Z) : msval D 0 (rev l) = lsval D l.
Proof.
  induction l as [|d t IH]; [reflexivity|].
  cbn [rev lsval]. rewrite msval_snoc, IH. lia.
Qed.

Lemma msval_lsval (D : Z) (l : list Z) : msval D 0 l = lsval D (rev l).
Proof. rewrite <- msval_rev, rev_involutive. reflexivity. Qed.

Lemma adjust_loop_spec (shift len : Z) (rest : list Z) : forall prev : Z,
  shift * len = chunk_base -> 0 < shift -> 0 < len ->
  0 <= prev < len ->
  Forall (fun d => 0 <= d < chunk_base) rest ->
  lsval chunk_base (adjust_loop shift len prev rest)
  = prev + len * lsval chunk_base rest
  /\ Forall (fun d => 0 <= d < chunk_base) (adjust_loop shift len prev rest)
  /\ length (adjust_loop shift len prev rest) = S (length rest).
Proof.
  pose proof chunk_base_val as HD.
  induction rest as [|n rest IH]; intros prev Hsl Hs Hl Hp Hc; cbn [adjust_loop].
  - cbn [lsval length]. split; [lia|].
    split; [constructor; [nia|constructor]|reflexivity].
  - inversion Hc as [|? ? Hn Hc']; subst.
    pose proof (Z.mod_pos_bound n shift Hs) as Bm.
    pose proof (Z.div_mod n shift ltac:(lia)) as Hdm.
    assert (Bq : 0 <= n / shift < len).
    { split; [apply Z.div_pos; lia|]. apply Z.div_lt_upper_bound; nia. }
    assert (Bp : 0 <= n mod shift * len < chunk_base) by nia.
    rewrite (wrap64_id (n mod shift * len)) by lia.
    assert (Bs : 0 <= prev + n mod shift * len < chunk_base) by nia.
    rewrite wrap32_id by lia.
    destruct (IH (n / shift) Hsl Hs Hl Bq Hc') as (E1 & E2 & E3).
    cbn [lsval length]. rewrite E1, E3.
    split; [nia|]. split; [constructor; assumption|reflexivity].
Qed.

Lemma adjust_spec (decimal : list Z) (value : Z) (logLen : nat) :
  (logLen < 9)%nat -> 0 <= value < 10 ^ Z.of_nat logLen ->
  Forall (fun d => 0 <= d < chunk_base) decimal ->
  msval chunk_base 0 (adjust decimal value logLen)
  = msval chunk_base 0 decimal * 10 ^ Z.of_nat logLen + value
  /\ Forall (fun d => 0 <= d < chunk_base) (adjust decimal value logLen)
  /\ length (adjust decimal value logLen)
     = (if (logLen =? 0)%nat then length decimal else S (length decimal)).
Proof.
  intros Hl Hv Hc. unfold adjust.
  destruct (Nat.eqb_spec logLen 0) as [->|Hne].
  - change (10 ^ Z.of_nat 0) with 1 in *.
    split; [lia|]. split; [exact Hc|reflexivity].
  - rewrite rev_app_distr. cbn [rev app].
    assert (Hpow : 10 ^ Z.of_nat logLen <= 10 ^ 8) by (apply Z.pow_le_mono_r; lia).
    rewrite wrap32_id by lia.
    rewrite !pow10_nth by (unfold logBase; lia).
    assert (Hsl : 10 ^ Z.of_nat (logBase - logLen) * 10 ^ Z.of_nat logLen = chunk_base).
    { rewrite <- Z.pow_add_r by lia. rewrite chunk_base_val. f_equal.
      unfold logBase. lia. }
    destruct (adjust_loop_spec (10 ^ Z.of_nat (logBase - logLen))
                (10 ^ Z.of_nat logLen) (rev decimal) value Hsl
                ltac:(apply Z.pow_pos_nonneg; lia)
                ltac:(apply Z.pow_pos_nonneg; lia) Hv
                ltac:(apply Forall_rev; exact Hc))
      as (E1 & E2 & E3).
    rewrite msval_lsval, rev_involutive, E1.
    rewrite <- msval_rev, rev_involutive.
    rewrite length_rev, E3, length_rev.
    split; [lia|]. split; [apply Forall_rev; exact E2|reflexivity].
Qed.

(** ** The conversion to base [2^32] *)

Lemma msval_add (D a b : Z) (l : list Z) :
  msval D (a + b) l = a * D ^ Z.of_nat (length l) + msval D b l.
Proof.
  revert a b. induction l as [|d t IH]; intros a b.
  - cbn. lia.
  - change (msval D (a + b) (d :: t)) with (msval D ((a + b) * D + d) t).
    change (msval D b (d :: t)) with (msval D (b * D + d) t).
    replace ((a + b) * D + d) with (a * D + (b * D + d)) by lia.
    rewrite IH. cbn [length]. rewrite Nat2Z.inj_succ, Z.pow_succ_r by lia. lia.
Qed.

Lemma msval_cons (D d : Z) (t : list Z) :
  msval D 0 (d :: t) = d * D ^ Z.of_nat (length t) + msval D 0 t.
Proof.
  change (msval D 0 (d :: t)) with (msval D (0 * D + d) t).
  replace (0 * D + d) with (d + 0) by lia. apply msval_add.
Qed.

Lemma conv_pass_spec (chunks : list Z) : forall v : Z,
  0 <= v < 2 ^ 32 ->
  Forall (fun d => 0 <= d < chunk_base) chunks ->
  length (fst (conv_pass chunks v)) = length chunks
  /\ Forall (fun d => 0 <= d < chunk_base) (fst (conv_pass chunks v))
  /\ 0 <= snd (conv_pass chunks v) < 2 ^ 32
  /\ v * chunk_base ^ Z.of_nat (length chunks) + msval chunk_base 0 chunks
     = 2 ^ 32 * msval chunk_base 0 (fst (conv_pass chunks v))
       + snd (conv_pass chunks v).
Proof.
  pose proof chunk_base_val as HD.
  induction chunks as [|d t IH]; intros v Hv Hc; cbn [conv_pass].
  - cbn [fst snd length]. change (msval chunk_base 0 []) with 0.
    change (Z.of_nat 0) with 0. rewrite Z.pow_0_r.
    repeat split; try lia. constructor.
  - inversion Hc as [|? ? Hd Hc']; subst.
    rewrite pow10_logBase, base_val.
    rewrite (wrap64_id (v * chunk_base)) by nia.
    rewrite (wrap64_id (v * chunk_base + d)) by nia.
    set (x := v * chunk_base + d).
    assert (Hx : 0 <= x < 2 ^ 32 * chunk_base) by (unfold x; nia).
    pose proof (Z.mod_pos_bound x (2 ^ 32) ltac:(lia)) as Bm.
    pose proof (Z.div_mod x (2 ^ 32) ltac:(lia)) as Hdm.
    assert (Bq : 0 <= x / 2 ^ 32 < chunk_base).
    { split; [apply Z.div_pos; lia|]. apply Z.div_lt_upper_bound; lia. }
    specialize (IH (x mod 2 ^ 32) Bm Hc').
    destruct (conv_pass t (x mod 2 ^ 32)) as [t' r]. cbn [fst snd] in *.
    destruct IH as (E1 & E2 & E3 & E4).
    rewrite wrap32_id by lia. cbn [length].
    repeat split; try lia.
    + constructor; assumption.
    + rewrite !msval_cons, E1.
      rewrite Nat2Z.inj_succ, Z.pow_succ_r by lia.
      set (P := chunk_base ^ Z.of_nat (length t)) in *.
      assert (v * (chunk_base * P) + d * P = x * P) by (unfold x; ring).
      nia.
Qed.

Lemma convert_spec (fuel : nat) : forall (h : Z) (rest out : list Z),
  (length rest < fuel)%nat ->
  Forall (fun d => 0 <= d < chunk_base) (h :: rest) ->
  limbs_ok out ->
  exists L, convert fuel h rest out = Some L
            /\ limbs_ok L
            /\ magnitude L
               = magnitude out
                 + 2 ^ (32 * Z.of_nat (length out)) * msval chunk_base 0 (h :: rest)
            /\ (length L <= length out + S (length rest))%nat
            /\ (length out + length rest <= length L)%nat
            /\ (last L 0 <> 0 \/ length L = (length out + length rest)%nat).
Proof.
  pose proof chunk_base_val as HD.
  induction fuel as [|fuel IH]; intros h rest out Hf Hc Ho; [lia|].
  inversion Hc as [|? ? Hh Hc']; subst.
  cbn [convert]. destruct rest as [|d rest].
  - change (msval chunk_base 0 [h]) with (0 * chunk_base + h).
    destruct (Z.eqb_spec h 0) as [->|Hne].
    + exists out. split; [reflexivity|]. split; [exact Ho|].
      cbn [length]. split; [lia|]. split; [lia|]. split; [lia|]. right. lia.
    + exists (out ++ [h]). split; [reflexivity|].
      split; [apply limbs_ok_app; [exact Ho|];
              constructor; [unfold limb_ok; lia|constructor]|].
      rewrite magnitude_app, length_app, last_last. cbn [magnitude length].
      split; [lia|]. split; [lia|]. split; [lia|]. left. exact Hne.
  - pose proof (conv_pass_spec (d :: rest) h ltac:(lia) Hc') as Hp.
    destruct (conv_pass (d :: rest) h) as [q r]. cbn [fst snd] in Hp.
    destruct Hp as (E1 & E2 & E3 & E4).
    destruct q as [|h' rest']; [discriminate|].
    cbn [length] in E1, Hf.
    destruct (IH h' rest' (out ++ [wrap32 r]) ltac:(lia) E2)
      as (L & F1 & F2 & F3 & F4 & F5 & F6).
    { apply limbs_ok_app; [exact Ho|]. constructor; [apply wrap32_ok|constructor]. }
    exists L. split; [exact F1|]. split; [exact F2|].
    rewrite length_app in F3, F4, F5, F6. cbn [length] in *.
    rewrite magnitude_app in F3. cbn [magnitude] in F3.
    rewrite wrap32_id in F3 by lia.
    split.
    + rewrite F3. replace (length out + 1)%nat with (S (length out)) by lia.
      rewrite pow32_succ.
      rewrite (msval_cons chunk_base h (d :: rest)). cbn [length].
      set (P := 2 ^ (32 * Z.of_nat (length out))) in *.
      set (M := msval chunk_base 0 (h' :: rest')) in *.
      rewrite Z.mul_0_r, Z.add_0_r.
      replace (h * chunk_base ^ Z.of_nat (S (length rest))
               + msval chunk_base 0 (d :: rest))
        with (2 ^ 32 * M + r) by lia.
      ring.
    + split; [lia|]. split; [lia|].
      destruct F6 as [F6|F6]; [left; exact F6|right; lia].
Qed.

(** ** Digit strings *)

Lemma dval_acc (ds : list ascii) : forall acc : Z,
  fold_left (fun a c => a * 10 + digit_val c) ds acc
  = acc * 10 ^ Z.of_nat (length ds) + dval ds.
Proof.
  unfold dval. induction ds as [|c ds IH]; intros acc.
  - cbn. lia.
  - cbn [fold_left length]. rewrite IH, (IH (0 * 10 + digit_val c)).
    rewrite pow10_S. lia.
Qed.

Lemma dval_cons (c : ascii) (ds : list ascii) :
  dval (c :: ds) = digit_val c * 10 ^ Z.of_nat (length ds) + dval ds.
Proof.
  unfold dval at 1. cbn [fold_left]. rewrite dval_acc. lia.
Qed.

Lemma dval_app (a b : list ascii) :
  dval (a ++ b) = dval a * 10 ^ Z.of_nat (length b) + dval b.
Proof.
  unfold dval at 1. rewrite fold_left_app. fold (dval a). apply dval_acc.
Qed.

Lemma dval_range (ds : list ascii) :
  Forall (fun c => isdigit (code c) = true) ds ->
  0 <= dval ds < 10 ^ Z.of_nat (length ds).
Proof.
  induction 1 as [|c ds Hc _ IH].
  - cbn. lia.
  - rewrite dval_cons. cbn [length]. rewrite pow10_S.
    apply isdigit_val in Hc.
    assert (0 < 10 ^ Z.of_nat (length ds)) by (apply Z.pow_pos_nonneg; lia).
    nia.
Qed.

Lemma dval_lower (c : ascii) (ds : list ascii) :
  Forall (fun c => isdigit (code c) = true) (c :: ds) ->
  code c <> 48 ->
  10 ^ Z.of_nat (length ds) <= dval (c :: ds).
Proof.
  intros H Hc. inversion H as [|? ? H1 H2]; subst.
  rewrite dval_cons. pose proof (dval_range ds H2).
  apply isdigit_val in H1. unfold digit_val in *. rewrite code_0 in *.
  assert (0 < 10 ^ Z.of_nat (length ds)) by (apply Z.pow_pos_nonneg; lia).
  nia.
Qed.

Lemma strip_zeros_split (ds : list ascii) :
  exists zs, ds = zs ++ strip_zeros ds
             /\ Forall (fun c => code c = 48) zs
             /\ hd 0 (map code (strip_zeros ds)) <> 48.
Proof.
  induction ds as [|c ds (zs & E & Hz & Hh)].
  - exists []. cbn. repeat split; [constructor|lia].
  - cbn [strip_zeros]. rewrite code_0.
    destruct (Z.eqb_spec (code c) 48) as [E0|E0].
    + exists (c :: zs). cbn [app]. rewrite <- E.
      repeat split; [constructor; assumption|exact Hh].
    + exists []. cbn [app map hd]. repeat split; [constructor|exact E0].
Qed.

Lemma strip_zeros_digits (ds : list ascii) :
  Forall (fun c => isdigit (code c) = true) ds ->
  Forall (fun c => isdigit (code c) = true) (strip_zeros ds).
Proof.
  induction 1 as [|c ds Hc Hd IH]; cbn [strip_zeros]; [constructor|].
  destruct (code c =? code "0"); [exact IH|constructor; assumption].
Qed.

(** ** The whole of [getDec_] *)

Lemma getDec_zero (fuel : nat) (b zs rest : list ascii) (self : BigInteger) :
  zs <> [] -> Forall (fun c => code c = 48) zs ->
  ends_number rest = true -> (length zs < fuel)%nat ->
  getDec_ fuel (good_stream b (zs ++ rest)) self
  = Some (snd (is_peek (snd (is_peek (good_stream (rev zs ++ b) rest)))),
          mkBig [0] false).
Proof.
  intros Hne Hz Hr Hf. unfold getDec_.
  destruct zs as [|z zs']; [contradiction|].
  inversion Hz as [|? ? Hz1 _]; subst.
  change ((z :: zs') ++ rest) with (z :: (zs' ++ rest)).
  rewrite is_peek_good.
  replace (isdigit (code z)) with true by (rewrite Hz1; reflexivity).
  cbn [negb].
  change (z :: zs' ++ rest) with ((z :: zs') ++ rest).
  rewrite skip_zeros_spec; try assumption.
  2:{ destruct rest as [|c r]; cbn [map hd]; [lia|].
      cbn [ends_number] in Hr. apply negb_true_iff in Hr.
      intros E. rewrite E in Hr. discriminate. }
  set (s1 := snd (is_peek (good_stream (rev (z :: zs') ++ b) rest))).
  pose proof (peek_twice_not_digit _ (peek_ends_number (rev (z :: zs') ++ b) rest Hr))
    as Hp. fold s1 in Hp.
  destruct fuel as [|fuel]; [lia|]. cbn [read_digits].
  destruct (is_peek s1) as [p s2]. cbn [fst] in Hp. rewrite Hp.
  cbn [adjust Nat.eqb snd]. reflexivity.
Qed.

Lemma getDec_value (fuel : nat) (b zs : list ascii) (c : ascii)
      (nz rest : list ascii) (self : BigInteger) :
  Forall (fun c => code c = 48) zs ->
  Forall (fun c => isdigit (code c) = true) (c :: nz) -> code c <> 48 ->
  ends_number rest = true ->
  (length zs + length (c :: nz) < fuel)%nat ->
  exists L, getDec_ fuel (good_stream b (zs ++ (c :: nz) ++ rest)) self
            = Some (snd (is_peek (good_stream (rev (c :: nz) ++ rev zs ++ b) rest)),
                    mkBig L (negative self))
               /\ limbs_ok L /\ L <> []
               /\ magnitude L = dval (c :: nz)
               /\ chunk_base ^ Z.of_nat (length L - 1) <= dval (c :: nz)
               /\ (last L 0 <> 0
                   \/ chunk_base ^ Z.of_nat (length L) <= dval (c :: nz))
               /\ (length (c :: nz) <= 9 * S (length L))%nat.
Proof.
  intros Hz Hd Hc Hr Hf. unfold getDec_.
  assert (Hfirst : exists c0 r0, zs ++ (c :: nz) ++ rest = c0 :: r0
                                 /\ isdigit (code c0) = true).
  { destruct zs as [|z zs'].
    - exists c, (nz ++ rest). split; [reflexivity|]. inversion Hd; assumption.
    - exists z, (zs' ++ (c :: nz) ++ rest). split; [reflexivity|].
      inversion Hz as [|? ? Hz1 _]; subst. rewrite Hz1. reflexivity. }
  destruct Hfirst as (c0 & r0 & E0 & D0).
  rewrite E0, is_peek_good, D0. cbn [negb]. rewrite <- E0.
  rewrite skip_zeros_spec; try assumption; [|lia].
  rewrite <- app_comm_cons. rewrite is_peek_good. cbn [snd].
  rewrite app_comm_cons.
  destruct (read_digits_spec (c :: nz) fuel (rev zs ++ b) rest 0 O [] Hd Hr
              ltac:(lia) ltac:(cbn; lia) ltac:(lia) ltac:(constructor))
    as (v' & l' & d' & R1 & R2 & R3 & R4 & R5 & R6).
  rewrite R1.
  change (msval chunk_base 0 [] * 10 ^ Z.of_nat 0 + 0) with 0 in R5.
  fold (dval (c :: nz)) in R5.
  destruct (adjust_spec d' v' l' R3 R2 R4) as (A1 & A2 & A3).
  rewrite R5 in A1. cbn [length] in R6, Hf.
  pose proof (dval_lower c nz Hd Hc) as Hlow.
  destruct (adjust d' v' l') as [|h restA] eqn:EA.
  - exfalso. cbn [length] in A3.
    destruct (Nat.eqb_spec l' 0); [|discriminate].
    assert (length d' = 0%nat) by lia. lia.
  - destruct (convert_spec fuel h restA [] ) as (L & C1 & C2 & C3 & C4 & C5 & C6).
    { cbn [length] in A3. destruct (l' =? 0)%nat; lia. }
    { exact A2. }
    { constructor. }
    rewrite C1. exists L. split; [reflexivity|].
    cbn [magnitude length] in C3, C4, C5. change (Z.of_nat 0) with 0 in C3.
    rewrite Z.mul_0_r, Z.pow_0_r, A1 in C3.
    assert (Hpos : 0 < 10 ^ Z.of_nat (length nz)) by (apply Z.pow_pos_nonneg; lia).
    split; [exact C2|]. split.
    + intros E. subst L. cbn [magnitude] in C3. lia.
    + split; [lia|].
      assert (Hchunks : (9 * length restA <= length nz)%nat).
      { cbn [length] in A3. destruct (Nat.eqb_spec l' 0); lia. }
      split.
      * rewrite chunk_base_val, <- Z.pow_mul_r by lia.
        apply Z.le_trans with (10 ^ Z.of_nat (length nz)); [|exact Hlow].
        apply Z.pow_le_mono_r; lia.
      * split.
        -- destruct C6 as [C6|C6]; [left; exact C6|right].
           cbn [length] in C6. rewrite C6.
           rewrite chunk_base_val, <- Z.pow_mul_r by lia.
           apply Z.le_trans with (10 ^ Z.of_nat (length nz)); [|exact Hlow].
           apply Z.pow_le_mono_r; lia.
        -- cbn [length] in A3 |- *. destruct (Nat.eqb_spec l' 0); lia.
Qed.

(** * [operator>>] on a decimal number *)

Lemma skipws_spaces (ws : list ascii) : forall (b : list ascii) (c : ascii) (r : list ascii),
  Forall (fun c => isspace (code c) = true) ws ->
  isspace (code c) = false ->
  skipws b (ws ++ c :: r) = (rev ws ++ b, c :: r).
Proof.
  induction ws as [|w ws IH]; intros b c r Hw Hc.
  - cbn [app skipws rev]. rewrite Hc. reflexivity.
  - inversion Hw as [|? ? H1 H2]; subst.
    cbn [app skipws]. rewrite H1, IH by assumption.
    cbn [rev]. rewrite <- app_assoc. reflexivity.
Qed.

Lemma digit_not_space (c : Z) : isdigit c = true -> isspace c = false.
Proof.
  intros H. destruct (isspace c) eqn:E; [|reflexivity].
  apply isspace_not_digit in E. congruence.
Qed.

Lemma digit_not_sign (c : ascii) :
  isdigit (code c) = true ->
  (code c =? code "-") || (code c =? code "+") = false.
Proof.
  unfold isdigit. intros H. apply andb_prop in H. destruct H as [H1 H2].
  apply Z.leb_le in H1, H2. apply orb_false_iff.
  split; apply Z.eqb_neq; cbn; lia.
Qed.

(** After the white space and the sign, [operator>>] hands the digits to
    [getDec_] with the sign flag set for ["-"]. *)
Lemma operator_in_getDec (fuel : nat) (cursor0 : ascii) (b ws : list ascii)
      (sg : sign) (d : ascii) (r : list ascii) (self : BigInteger) :
  Forall (fun c => isspace (code c) = true) ws ->
  isdigit (code d) = true ->
  operator_in fuel cursor0 (good_stream b (ws ++ sign_text sg ++ d :: r)) self
  = getDec_ fuel (good_stream (rev (sign_text sg) ++ rev ws ++ b) (d :: r))
      (mkBig (value self) (match sg with Minus => true | _ => false end)).
Proof.
  intros Hw Hd. unfold operator_in, is_extract_char.
  change (negb (good (good_stream b (ws ++ sign_text sg ++ d :: r)))) with false.
  cbn [consumed pending good_stream].
  destruct sg; cbn [sign_text app rev].
  - rewrite skipws_spaces by (try assumption; apply digit_not_space; exact Hd).
    cbn [badbit failbit eofbit iflags]. rewrite (digit_not_sign d Hd).
    reflexivity.
  - rewrite skipws_spaces by (try assumption; reflexivity). reflexivity.
  - rewrite skipws_spaces by (try assumption; reflexivity). reflexivity.
Qed.

Lemma dval_zeros (zs : list ascii) :
  Forall (fun c => code c = 48) zs -> dval zs = 0.
Proof.
  induction 1 as [|c zs Hc _ IH]; [reflexivity|].
  rewrite dval_cons, IH. unfold digit_val. rewrite Hc, code_0. lia.
Qed.

Lemma all_digits_Forall (ds : list ascii) :
  all_digits ds = true <-> Forall (fun c => isdigit (code c) = true) ds.
Proof. unfold all_digits. rewrite forallb_forall, Forall_forall. reflexivity. Qed.

(** The stream behind the digits. *)
Lemma after_number_nonzero (b rest : list ascii) :
  let s := snd (is_peek (good_stream b rest)) in
  consumed s = b /\ pending s = rest /\ failbit s = false /\ badbit s = false
  /\ eofbit s = match rest with [] => true | _ => false end.
Proof. destruct rest; cbn; repeat split. Qed.

Lemma after_number_zero (b rest : list ascii) :
  let s := snd (is_peek (snd (is_peek (good_stream b rest)))) in
  consumed s = b /\ pending s = rest /\ badbit s = false
  /\ failbit s = match rest with [] => true | _ => false end
  /\ eofbit s = match rest with [] => true | _ => false end.
Proof. destruct rest; cbn; repeat split. Qed.

Lemma operator_in_spec (fuel : nat) (cursor0 : ascii) (b ws : list ascii)
      (sg : sign) (ds rest : list ascii) (self : BigInteger) :
  Forall (fun c => isspace (code c) = true) ws ->
  ds <> [] -> all_digits ds = true -> ends_number rest = true ->
  (length ds < fuel)%nat ->
  exists s' L,
    operator_in fuel cursor0 (good_stream b (ws ++ sign_text sg ++ ds ++ rest)) self
    = Some (s', mkBig L (match sg with Minus => negb (dval ds =? 0) | _ => false end))
    /\ limbs_ok L /\ L <> [] /\ magnitude L = dval ds
    /\ (dval ds = 0 -> L = [0])
    /\ chunk_base ^ Z.of_nat (length L - 1) <= Z.max 1 (dval ds)
    /\ (last L 0 <> 0 \/ chunk_base ^ Z.of_nat (length L) <= dval ds \/ L = [0])
    /\ (length (strip_zeros ds) <= 9 * S (length L))%nat
    /\ consumed s' = rev ds ++ rev (sign_text sg) ++ rev ws ++ b
    /\ pending s' = rest /\ badbit s' = false
    /\ failbit s' = (dval ds =? 0) && match rest with [] => true | _ => false end.
Proof.
  intros Hw Hne Hd Hr Hf. apply all_digits_Forall in Hd.
  destruct (strip_zeros_split ds) as (zs & E & Hz & Hh).
  pose proof (strip_zeros_digits ds Hd) as Hnz.
  generalize dependent (strip_zeros ds). intros nzs E Hh Hnz. subst ds.
  rewrite dval_app, (dval_zeros zs Hz), rev_app_distr, Z.mul_0_l, Z.add_0_l.
  rewrite length_app in Hf.
  assert (Hfirst : exists d r, (zs ++ nzs) ++ rest = d :: r
                               /\ isdigit (code d) = true).
  { destruct zs as [|z zs'].
    - destruct nzs as [|c nz]; [contradiction|].
      exists c, (nz ++ rest). split; [reflexivity|]. inversion Hnz; assumption.
    - exists z, ((zs' ++ nzs) ++ rest). split; [reflexivity|].
      inversion Hz as [|? ? Hz1 _]; subst. rewrite Hz1. reflexivity. }
  destruct Hfirst as (d & r & E0 & D0).
  rewrite E0, operator_in_getDec by assumption. rewrite <- E0, <- app_assoc.
  destruct nzs as [|c nz].
  - (* nothing but zeros *)
    rewrite app_nil_r in Hne. cbn [app].
    rewrite getDec_zero; try assumption; [|cbn [length] in Hf; lia].
    destruct (after_number_zero (rev zs ++ rev (sign_text sg) ++ rev ws ++ b) rest)
      as (S1 & S2 & S3 & S4 & _).
    change (dval []) with 0. cbn [rev app].
    eexists. exists [0]. split; [destruct sg; reflexivity|].
    split; [constructor; [unfold limb_ok; lia|constructor]|].
    split; [discriminate|]. split; [reflexivity|]. split; [reflexivity|].
    split; [cbn; lia|]. split; [right; right; reflexivity|].
    split; [cbn; lia|].
    split; [exact S1|]. split; [exact S2|]. split; [exact S3|exact S4].
  - cbn [map hd] in Hh.
    destruct (getDec_value fuel (rev (sign_text sg) ++ rev ws ++ b) zs c nz rest
                (mkBig (value self) (match sg with Minus => true | _ => false end))
                Hz Hnz Hh Hr Hf)
      as (L & G1 & G2 & G3 & G4 & G5 & G6 & G7).
    rewrite G1. cbn [negative].
    pose proof (dval_lower c nz Hnz Hh) as Hlow.
    assert (Hpos : 0 < 10 ^ Z.of_nat (length nz)) by (apply Z.pow_pos_nonneg; lia).
    destruct (after_number_nonzero
                (rev (c :: nz) ++ rev zs ++ rev (sign_text sg) ++ rev ws ++ b) rest)
      as (S1 & S2 & S3 & S4 & _).
    replace (dval (c :: nz) =? 0) with false by (symmetry; apply Z.eqb_neq; lia).
    eexists. exists L. split; [destruct sg; reflexivity|].
    split; [exact G2|]. split; [exact G3|]. split; [exact G4|].
    split; [intros; lia|]. split; [lia|].
    split; [destruct G6 as [G6|G6]; [left; exact G6|right; left; exact G6]|].
    split; [exact G7|].
    split; [rewrite <- app_assoc; exact S1|].
    split; [exact S2|]. split; [exact S4|exact S3].
Qed.

(** * Decimal output: the text [putDec_] writes *)

Lemma lsval_magnitude (v : list Z) : lsval (2 ^ 32) v = magnitude v.
Proof.
  induction v as [|x t IH]; cbn [lsval magnitude]; [reflexivity|].
  rewrite IH. reflexivity.
Qed.

Lemma msval_rev_magnitude (v : list Z) : msval (2 ^ 32) 0 (rev v) = magnitude v.
Proof. rewrite msval_rev. apply lsval_magnitude. Qed.

Lemma msval_limbs_nonneg (l : list Z) : limbs_ok l -> 0 <= msval (2 ^ 32) 0 l.
Proof.
  induction 1 as [|d t Hd _ IH]; [cbn; lia|].
  rewrite msval_cons. unfold limb_ok in Hd.
  assert (0 <= (2 ^ 32) ^ Z.of_nat (length t)) by (apply Z.pow_nonneg; lia).
  nia.
Qed.

Lemma lor_limb (v x : Z) :
  0 <= x < 2 ^ 32 -> Z.lor (v * 2 ^ 32) x = v * 2 ^ 32 + x.
Proof.
  intros Hx. apply Z.bits_inj'. intros n Hn. rewrite Z.lor_spec.
  replace (v * 2 ^ 32 + x) with (x + 2 ^ 32 * v) by lia.
  rewrite testbit_limb_cons by lia.
  replace (v * 2 ^ 32) with (0 + 2 ^ 32 * v) by lia.
  rewrite (testbit_limb_cons 0 v n) by lia.
  destruct (Z.ltb_spec n 32) as [L|L].
  - rewrite Z.bits_0. reflexivity.
  - rewrite (limb_high_bits x n) by lia. apply orb_false_r.
Qed.

(** One division of the limbs by [10^9]. *)
Lemma div_pass_spec (hs : list Z) : forall v : Z,
  0 <= v < chunk_base -> limbs_ok hs ->
  length (fst (div_pass hs v)) = length hs
  /\ limbs_ok (fst (div_pass hs v))
  /\ 0 <= snd (div_pass hs v) < chunk_base
  /\ v * (2 ^ 32) ^ Z.of_nat (length hs) + msval (2 ^ 32) 0 hs
     = chunk_base * msval (2 ^ 32) 0 (fst (div_pass hs v))
       + snd (div_pass hs v).
Proof.
  pose proof chunk_base_val as HD.
  induction hs as [|x t IH]; intros v Hv Hok; cbn [div_pass].
  - cbn [fst snd length]. change (msval (2 ^ 32) 0 []) with 0.
    change (Z.of_nat 0) with 0. rewrite Z.pow_0_r.
    repeat split; try lia. constructor.
  - inversion Hok as [|? ? Hx Hok']; subst. unfold limb_ok in Hx.
    rewrite pow10_logBase, base_val.
    rewrite (wrap64_id (v * 2 ^ 32)) by lia.
    rewrite lor_limb by exact Hx.
    set (y := v * 2 ^ 32 + x).
    assert (Hy : 0 <= y < chunk_base * 2 ^ 32) by (unfold y; lia).
    pose proof (Z.mod_pos_bound y chunk_base ltac:(lia)) as Bm.
    pose proof (Z.div_mod y chunk_base ltac:(lia)) as Hdm.
    assert (Bq : 0 <= y / chunk_base < 2 ^ 32).
    { split; [apply Z.div_pos; lia|]. apply Z.div_lt_upper_bound; lia. }
    specialize (IH (y mod chunk_base) Bm Hok').
    destruct (div_pass t (y mod chunk_base)) as [t' r]. cbn [fst snd] in *.
    destruct IH as (E1 & E2 & E3 & E4).
    rewrite wrap32_id by lia. cbn [length].
    split; [lia|]. split; [constructor; [exact Bq|exact E2]|].
    split; [lia|].
    rewrite !msval_cons, E1.
    rewrite Nat2Z.inj_succ, Z.pow_succ_r by lia.
    set (P := (2 ^ 32) ^ Z.of_nat (length t)) in *.
    assert (v * (2 ^ 32 * P) + x * P = y * P) by (unfold y; ring).
    nia.
Qed.

Lemma chunk_pow_le_limb_pow (n : nat) :
  chunk_base ^ Z.of_nat n <= (2 ^ 32) ^ Z.of_nat n.
Proof. apply Z.pow_le_mono_l. rewrite chunk_base_val. lia. Qed.

Lemma chunk_pow_pos (n : nat) : 0 < chunk_base ^ Z.of_nat n.
Proof. apply Z.pow_pos_nonneg; [reflexivity|lia]. Qed.

Lemma chunk_pow_S (n : nat) :
  chunk_base ^ Z.of_nat (S n) = chunk_base * chunk_base ^ Z.of_nat n.
Proof. rewrite Nat2Z.inj_succ, Z.pow_succ_r by lia. reflexivity. Qed.

(** The division loop: with [chunk_base ^ (size - 1) <= M] for the number
    [M] the limbs stand for, the loop ends after at most [fuel] rounds when
    [M < chunk_base ^ fuel], with chunks that stand for [M] and a top chunk
    that is not zero. *)
Lemma putDec_loop_spec (fuel : nat) : forall (hs dec : list Z),
  limbs_ok hs -> hs <> [] ->
  chunk_base ^ Z.of_nat (length hs - 1) <= msval (2 ^ 32) 0 hs ->
  msval (2 ^ 32) 0 hs < chunk_base ^ Z.of_nat fuel ->
  exists low top,
    putDec_loop fuel hs dec = Some (dec ++ low ++ [top])
    /\ Forall (fun d => 0 <= d < chunk_base) low
    /\ 0 < top < 2 ^ 32
    /\ msval (2 ^ 32) 0 hs
       = top * chunk_base ^ Z.of_nat (length low) + lsval chunk_base low.
Proof.
  pose proof chunk_base_val as HD.
  induction fuel as [|fuel IH]; intros hs dec Hok Hne Hlow Hup.
  - pose proof (chunk_pow_pos (length hs - 1)). change (Z.of_nat 0) with 0 in Hup.
    rewrite Z.pow_0_r in Hup. lia.
  - destruct hs as [|h [|h2 t]]; [contradiction| |].
    + (* one limb left *)
      cbn [putDec_loop].
      change (msval (2 ^ 32) 0 [h]) with (0 * 2 ^ 32 + h) in *.
      cbn [length Nat.sub] in Hlow. change (Z.of_nat 0) with 0 in Hlow.
      rewrite Z.pow_0_r in Hlow.
      inversion Hok as [|? ? Hh _]; subst. unfold limb_ok in Hh.
      replace (h =? 0) with false by (symmetry; apply Z.eqb_neq; lia).
      exists [], h. split; [reflexivity|]. split; [constructor|].
      split; [lia|]. cbn [length lsval]. change (Z.of_nat 0) with 0.
      rewrite Z.pow_0_r. lia.
    + (* a division pass *)
      cbn [putDec_loop].
      pose proof (div_pass_spec (h :: h2 :: t) 0 ltac:(lia) Hok) as Hp.
      destruct (div_pass (h :: h2 :: t) 0) as [q r]. cbn [fst snd] in Hp.
      destruct Hp as (E1 & E2 & E3 & E4).
      rewrite Z.mul_0_l, Z.add_0_l in E4.
      set (M := msval (2 ^ 32) 0 (h :: h2 :: t)) in *.
      destruct q as [|q1 [|q2 qt]]; [discriminate|discriminate|].
      cbn [length] in E1. cbn [length Nat.sub] in Hlow.
      rewrite ?Nat.sub_0_r in Hlow. rewrite chunk_pow_S in Hlow, Hup.
      pose proof (chunk_pow_pos (length t)) as Pt.
      pose proof (chunk_pow_pos fuel) as Pf.
      set (Mq := msval (2 ^ 32) 0 (q1 :: q2 :: qt)) in *.
      assert (Hq : chunk_base ^ Z.of_nat (length t) <= Mq /\ Mq < chunk_base ^ Z.of_nat fuel).
      { split; nia. }
      cbn [hd tl].
      assert (Hnext : exists hs', (if q1 =? 0 then q2 :: qt else q1 :: q2 :: qt) = hs'
                 /\ limbs_ok hs' /\ hs' <> []
                 /\ msval (2 ^ 32) 0 hs' = Mq
                 /\ chunk_base ^ Z.of_nat (length hs' - 1) <= Mq).
      { inversion E2 as [|? ? Hq1 E2']; subst.
        destruct (Z.eqb_spec q1 0) as [->|Hq1ne].
        - exists (q2 :: qt). split; [reflexivity|]. split; [exact E2'|].
          split; [discriminate|]. split.
          + unfold Mq. rewrite (msval_cons (2 ^ 32) 0 (q2 :: qt)). lia.
          + cbn [length Nat.sub]. rewrite ?Nat.sub_0_r.
            replace (length qt) with (length t) by lia. lia.
        - exists (q1 :: q2 :: qt). split; [reflexivity|]. split; [exact E2|].
          split; [discriminate|]. split; [reflexivity|].
          cbn [length Nat.sub]. rewrite ?Nat.sub_0_r.
          unfold Mq. rewrite (msval_cons (2 ^ 32) q1 (q2 :: qt)).
          pose proof (msval_limbs_nonneg (q2 :: qt) E2') as Hnn.
          pose proof (chunk_pow_le_limb_pow (length (q2 :: qt))) as Hle.
          pose proof (chunk_pow_pos (length (q2 :: qt))) as Hpp.
          unfold limb_ok in Hq1. cbn [length] in *. nia. }
      destruct Hnext as (hs' & -> & N1 & N2 & N3 & N4).
      rewrite (wrap32_id r) by lia.
      destruct (IH hs' (dec ++ [r]) N1 N2 ltac:(lia) ltac:(lia))
        as (low & top & F1 & F2 & F3 & F4).
      exists (r :: low), top. split.
      { rewrite F1. rewrite <- app_assoc. reflexivity. }
      split; [constructor; [lia|exact F2]|]. split; [exact F3|].
      cbn [length lsval]. rewrite chunk_pow_S. rewrite N3 in F4. nia.
Qed.

(** ** Digits *)

Lemma code_digit_char (d : Z) : 0 <= d <= 9 -> code (digit_char d) = 48 + d.
Proof.
  intros H. unfold code, digit_char. rewrite N_ascii_embedding by lia.
  rewrite Z2N.id by lia. reflexivity.
Qed.

Lemma digit_char_digit (d : Z) : 0 <= d <= 9 -> isdigit (code (digit_char d)) = true.
Proof.
  intros H. rewrite code_digit_char by exact H. unfold isdigit.
  apply andb_true_iff. split; apply Z.leb_le; lia.
Qed.

Lemma digit_val_char (d : Z) : 0 <= d <= 9 -> digit_val (digit_char d) = d.
Proof.
  intros H. unfold digit_val. rewrite code_digit_char, code_0 by exact H. lia.
Qed.

(** [os << x] for an unsigned number: its decimal digits, no leading zero. *)
Lemma dec_digits_spec (fuel : nat) : forall (x : Z) (acc : list ascii),
  (1 <= fuel)%nat -> 0 <= x < 10 ^ Z.of_nat fuel ->
  exists ds, dec_digits fuel x acc = ds ++ acc
             /\ Forall (fun c => isdigit (code c) = true) ds
             /\ dval ds = x /\ ds <> []
             /\ (0 < x -> hd 0 (map code ds) <> 48)
             /\ (x = 0 -> ds = ["0"%char]).
Proof.
  induction fuel as [|fuel IH]; intros x acc Hf Hx; [lia|].
  cbn [dec_digits].
  pose proof (Z.mod_pos_bound x 10 ltac:(lia)) as Bm.
  pose proof (Z.div_mod x 10 ltac:(lia)) as Hdm.
  destruct (Z.eqb_spec (x / 10) 0) as [E|E].
  - exists [digit_char (x mod 10)]. split; [reflexivity|].
    split; [constructor; [apply digit_char_digit; lia|constructor]|].
    split. { unfold dval. cbn [fold_left]. rewrite digit_val_char by lia. lia. }
    split; [discriminate|]. split.
    + intros Hp. cbn [map hd]. rewrite code_digit_char by lia. lia.
    + intros ->. reflexivity.
  - assert (Hq : 0 < x / 10).
    { assert (0 <= x / 10) by (apply Z.div_pos; lia). lia. }
    rewrite pow10_S in Hx.
    assert (Hf' : (1 <= fuel)%nat).
    { destruct fuel; [|lia]. change (10 ^ Z.of_nat 0) with 1 in Hx. lia. }
    destruct (IH (x / 10) (digit_char (x mod 10) :: acc) Hf' ltac:(lia))
      as (ds & D1 & D2 & D3 & D4 & D5 & _).
    exists (ds ++ [digit_char (x mod 10)]). split.
    { rewrite D1, <- app_assoc. reflexivity. }
    split.
    { apply Forall_app. split; [exact D2|].
      constructor; [apply digit_char_digit; lia|constructor]. }
    split.
    { rewrite dval_app, D3. unfold dval at 1. cbn [fold_left length].
      rewrite digit_val_char by lia. change (10 ^ Z.of_nat 1) with 10. lia. }
    split; [destruct ds; discriminate|]. split; [|intros; lia].
    intros _. destruct ds as [|c ds']; [contradiction|].
    cbn [app map hd] in *. apply D5. exact Hq.
Qed.

(** The number of digits of a digit string without a leading zero. *)
Lemma digits_length (ds : list ascii) :
  Forall (fun c => isdigit (code c) = true) ds -> ds <> [] ->
  hd 0 (map code ds) <> 48 ->
  10 ^ Z.of_nat (length ds - 1) <= dval ds < 10 ^ Z.of_nat (length ds).
Proof.
  intros Hd Hne Hh. split; [|apply dval_range; exact Hd].
  destruct ds as [|c t]; [contradiction|]. cbn [length Nat.sub].
  rewrite Nat.sub_0_r. apply dval_lower; assumption.
Qed.

Lemma dval_zero_cons (ds : list ascii) : dval ("0"%char :: ds) = dval ds.
Proof. rewrite dval_cons. unfold digit_val. lia. Qed.

(** A chunk below [10 ^ (j + 1)] printed behind the padding loop started at
    [j]: exactly [j + 1] digits. *)
Lemma pad_loop_spec (j : nat) : forall (x : Z) (os : ostream),
  (j <= 8)%nat -> 0 <= x < 10 ^ Z.of_nat (S j) ->
  exists ds, os_put_uint32 (pad_loop j x os) x
             = mkOs (written os ++ ds) (oflags os)
             /\ length ds = S j
             /\ Forall (fun c => isdigit (code c) = true) ds
             /\ dval ds = x.
Proof.
  induction j as [|j IH]; intros x os Hj Hx.
  - cbn [pad_loop]. unfold os_put_uint32.
    destruct (dec_digits_spec 10 x [] ltac:(lia)) as (ds & D1 & D2 & D3 & D4 & D5 & D6).
    { change (10 ^ Z.of_nat 1) with 10 in Hx. change (10 ^ Z.of_nat 10) with 10000000000. lia. }
    rewrite D1, app_nil_r. exists ds. split; [reflexivity|].
    split; [|split; assumption].
    destruct (Z.eq_dec x 0) as [->|Hx0]; [rewrite D6; reflexivity|].
    pose proof (digits_length ds D2 D4 (D5 ltac:(lia))) as [L1 L2].
    rewrite D3 in L1. change (10 ^ Z.of_nat 1) with (10 ^ 1) in Hx.
    assert (Z.of_nat (length ds - 1) < 1).
    { apply (Z.pow_lt_mono_r_iff 10); lia. }
    destruct ds as [|c [|c' t]]; [contradiction|reflexivity|cbn [length] in *; lia].
  - cbn [pad_loop]. rewrite pow10_nth by lia.
    destruct (Z.ltb_spec x (10 ^ Z.of_nat (S j))) as [L|L].
    + destruct (IH x (os_put os "0") ltac:(lia) ltac:(lia))
        as (ds & D1 & D2 & D3 & D4).
      exists ("0"%char :: ds). split.
      { rewrite D1. unfold os_put. cbn [written oflags].
        rewrite <- app_assoc. reflexivity. }
      split; [cbn [length]; lia|]. split; [constructor; [reflexivity|exact D3]|].
      rewrite dval_zero_cons. exact D4.
    + unfold os_put_uint32.
      assert (P : 0 < 10 ^ Z.of_nat (S j)) by (apply Z.pow_pos_nonneg; lia).
      destruct (dec_digits_spec 10 x [] ltac:(lia)) as (ds & D1 & D2 & D3 & D4 & D5 & D6).
      { split; [lia|]. apply Z.lt_le_trans with (10 ^ Z.of_nat (S (S j))); [lia|].
        apply Z.pow_le_mono_r; lia. }
      rewrite D1, app_nil_r. exists ds. split; [reflexivity|].
      split; [|split; assumption].
      pose proof (digits_length ds D2 D4 (D5 ltac:(lia))) as [L1 L2].
      rewrite D3 in L1, L2.
      assert (Z.of_nat (S j) < Z.of_nat (length ds)).
      { apply (Z.pow_lt_mono_r_iff 10); lia. }
      assert (Z.of_nat (length ds - 1) < Z.of_nat (S (S j))).
      { apply (Z.pow_lt_mono_r_iff 10); lia. }
      lia.
Qed.

Lemma chunk_pow_10 (n : nat) : chunk_base ^ Z.of_nat n = 10 ^ Z.of_nat (9 * n).
Proof.
  rewrite chunk_base_val, <- Z.pow_mul_r by lia. f_equal. lia.
Qed.

(** The chunks below the top one: nine digits each. *)
Lemma print_chunks_spec (chunks : list Z) : forall os : ostream,
  Forall (fun d => 0 <= d < chunk_base) chunks ->
  exists ds, print_chunks chunks os = mkOs (written os ++ ds) (oflags os)
             /\ length ds = (9 * length chunks)%nat
             /\ Forall (fun c => isdigit (code c) = true) ds
             /\ dval ds = msval chunk_base 0 chunks.
Proof.
  induction chunks as [|x t IH]; intros os Hc.
  - exists []. cbn [print_chunks]. rewrite app_nil_r. destruct os.
    repeat split. constructor.
  - inversion Hc as [|? ? Hx Hc']; subst. cbn [print_chunks].
    destruct (pad_loop_spec 8 x os ltac:(lia)) as (dx & X1 & X2 & X3 & X4).
    { rewrite chunk_base_val in Hx. change (10 ^ Z.of_nat 9) with (10 ^ 9). lia. }
    change (logBase - 1)%nat with 8%nat. rewrite X1.
    destruct (IH (mkOs (written os ++ dx) (oflags os)) Hc')
      as (dt & T1 & T2 & T3 & T4).
    cbn [written oflags] in T1.
    exists (dx ++ dt). split; [rewrite T1, <- app_assoc; reflexivity|].
    split; [rewrite length_app; cbn [length]; lia|].
    split; [apply Forall_app; split; assumption|].
    rewrite dval_app, X4, T4, msval_cons, T2, chunk_pow_10. reflexivity.
Qed.

Lemma limb_pow_mul (n : nat) : (2 ^ 32) ^ Z.of_nat n = 2 ^ (32 * Z.of_nat n).
Proof. rewrite <- Z.pow_mul_r by lia. reflexivity. Qed.

(** ** The whole of [putDec_] *)

Lemma putDec_spec (fuel : nat) (os : ostream) (v : list Z) (neg : bool) :
  limbs_ok v -> v <> [] ->
  chunk_base ^ Z.of_nat (length v - 1) <= magnitude v ->
  (2 * length v <= fuel)%nat ->
  exists ds, putDec_ fuel os (mkBig v neg) = Some (mkOs (written os ++ ds) (oflags os))
             /\ Forall (fun c => isdigit (code c) = true) ds
             /\ ds <> [] /\ hd 0 (map code ds) <> 48
             /\ dval ds = magnitude v.
Proof.
  intros Hok Hne Hlow Hf. unfold putDec_. cbn [value].
  pose proof (chunk_pow_pos (length v - 1)) as Pp.
  assert (Z0 : (length v =? 1)%nat && (hd 0 v =? 0) = false).
  { destruct v as [|x [|y t]]; [contradiction| |reflexivity].
    cbn [magnitude] in Hlow. cbn [length Nat.eqb hd andb].
    apply Z.eqb_neq. lia. }
  rewrite Z0.
  destruct (putDec_loop_spec fuel (rev v) []) as (low & top & F1 & F2 & F3 & F4).
  { apply Forall_rev. exact Hok. }
  { intros E. apply (f_equal (@length Z)) in E. rewrite length_rev in E.
    destruct v; [contradiction|discriminate]. }
  { rewrite length_rev, msval_rev_magnitude. exact Hlow. }
  { rewrite msval_rev_magnitude.
    pose proof (magnitude_bound v Hok) as Hb.
    apply Z.lt_le_trans with (2 ^ (32 * Z.of_nat (length v))); [exact Hb|].
    apply Z.le_trans with (chunk_base ^ Z.of_nat (2 * length v)).
    - rewrite Nat2Z.inj_mul, (Z.pow_mul_r chunk_base) by lia.
      rewrite <- limb_pow_mul. apply Z.pow_le_mono_l.
      rewrite chunk_base_val. change (Z.of_nat 2) with 2. lia.
    - apply Z.pow_le_mono_r; [reflexivity|lia]. }
  rewrite F1. cbn [app]. rewrite rev_app_distr. cbn [rev app].
  unfold os_put_uint32.
  destruct (dec_digits_spec 10 top [] ltac:(lia)) as (dt & D1 & D2 & D3 & D4 & D5 & _).
  { change (10 ^ Z.of_nat 10) with 10000000000. lia. }
  rewrite D1, app_nil_r.
  destruct (print_chunks_spec (rev low) (mkOs (written os ++ dt) (oflags os)))
    as (dl & P1 & P2 & P3 & P4).
  { apply Forall_rev. exact F2. }
  cbn [written oflags] in P1. rewrite P1.
  exists (dt ++ dl). split; [rewrite <- app_assoc; reflexivity|].
  split; [apply Forall_app; split; assumption|].
  split; [destruct dt; [contradiction|discriminate]|].
  split.
  - destruct dt as [|c t]; [contradiction|]. cbn [app map hd] in *.
    apply D5. lia.
  - rewrite dval_app, D3, P4, P2, length_rev, msval_rev, <- chunk_pow_10.
    rewrite msval_rev_magnitude in F4. lia.
Qed.

(** * Text and value round trips *)

Lemma strip_zeros_facts (ds : list ascii) :
  Forall (fun c => isdigit (code c) = true) ds ->
  Forall (fun c => isdigit (code c) = true) (strip_zeros ds)
  /\ hd 0 (map code (strip_zeros ds)) <> 48
  /\ dval (strip_zeros ds) = dval ds
  /\ (length (strip_zeros ds) <= length ds)%nat.
Proof.
  intros Hd. destruct (strip_zeros_split ds) as (zs & E & Hz & Hh).
  split; [apply strip_zeros_digits; exact Hd|]. split; [exact Hh|].
  pose proof (f_equal dval E) as E1. pose proof (f_equal (@length ascii) E) as E2.
  rewrite dval_app, (dval_zeros zs Hz) in E1. rewrite length_app in E2.
  split; lia.
Qed.

Lemma dval_inj_length (a : list ascii) : forall b : list ascii,
  Forall (fun c => isdigit (code c) = true) a ->
  Forall (fun c => isdigit (code c) = true) b ->
  length a = length b -> dval a = dval b -> a = b.
Proof.
  induction a as [|c a IH]; intros [|c' b] Ha Hb Hl Hv; try discriminate;
    [reflexivity|].
  inversion Ha as [|? ? Hc Ha']; subst. inversion Hb as [|? ? Hc' Hb']; subst.
  cbn [length] in Hl. injection Hl as Hl.
  rewrite !dval_cons, <- Hl in Hv.
  pose proof (dval_range a Ha') as Ra. pose proof (dval_range b Hb') as Rb.
  rewrite <- Hl in Rb. apply isdigit_val in Hc, Hc'.
  set (P := 10 ^ Z.of_nat (length a)) in *.
  assert (Hdc : digit_val c = digit_val c') by nia.
  f_equal.
  - apply code_inj. unfold digit_val in Hdc. lia.
  - apply IH; try assumption. rewrite Hdc in Hv. lia.
Qed.

(** A number has one decimal text without a leading zero. *)
Lemma canonical_digits_unique (a b : list ascii) :
  Forall (fun c => isdigit (code c) = true) a ->
  Forall (fun c => isdigit (code c) = true) b ->
  a <> [] -> b <> [] ->
  hd 0 (map code a) <> 48 -> hd 0 (map code b) <> 48 ->
  dval a = dval b -> a = b.
Proof.
  intros Ha Hb Na Nb Za Zb E.
  pose proof (digits_length a Ha Na Za) as [A1 A2].
  pose proof (digits_length b Hb Nb Zb) as [B1 B2].
  rewrite E in A1, A2.
  assert (Z.of_nat (length a - 1) < Z.of_nat (length b)).
  { apply (Z.pow_lt_mono_r_iff 10); lia. }
  assert (Z.of_nat (length b - 1) < Z.of_nat (length a)).
  { apply (Z.pow_lt_mono_r_iff 10); lia. }
  apply dval_inj_length; try assumption.
  destruct a; [contradiction|]. destruct b; [contradiction|].
  cbn [length] in *. lia.
Qed.

Lemma last_nonzero_normalized (v : list Z) (neg : bool) :
  last v 0 <> 0 -> normalized (mkBig v neg) = true.
Proof.
  intros H. destruct (snoc_cases v) as [->|(l & top & ->)].
  - exfalso. apply H. reflexivity.
  - rewrite last_last in H. rewrite normalized_snoc.
    apply Z.eqb_neq in H. rewrite H. destruct l; reflexivity.
Qed.

Lemma top_nonzero_lower (v : list Z) :
  limbs_ok v -> last v 0 <> 0 ->
  v <> [] /\ chunk_base ^ Z.of_nat (length v - 1) <= magnitude v.
Proof.
  intros Hok H. destruct (snoc_cases v) as [->|(l & top & ->)].
  - exfalso. apply H. reflexivity.
  - rewrite last_last in H. split; [destruct l; discriminate|].
    rewrite length_app. cbn [length].
    replace (length l + 1 - 1)%nat with (length l) by lia.
    apply (magnitude_snoc_bounds l top Hok) in H.
    pose proof (chunk_pow_le_limb_pow (length l)) as Hle.
    rewrite limb_pow_mul in Hle. lia.
Qed.

(** ** [operator<<] *)

Lemma operator_out_spec (fuel : nat) (os : ostream) (self : BigInteger) :
  oflags os = Dec -> limbs_ok (value self) ->
  value self = [0]
  \/ (value self <> []
      /\ chunk_base ^ Z.of_nat (length (value self) - 1) <= magnitude (value self)) ->
  (2 * length (value self) <= fuel)%nat ->
  exists ds,
    operator_out fuel os self
    = Some (mkOs (written os ++ (if negative self then ["-"%char] else []) ++ ds) Dec)
    /\ Forall (fun c => isdigit (code c) = true) ds
    /\ dval ds = magnitude (value self)
    /\ (magnitude (value self) = 0 -> ds = ["0"%char])
    /\ (0 < magnitude (value self) -> ds <> [] /\ hd 0 (map code ds) <> 48).
Proof.
  intros Hfl Hok Hv Hf. destruct self as [v neg]. cbn [value negative] in *.
  unfold operator_out. cbn [negative].
  set (os1 := if neg then os_put os "-" else os).
  assert (O1 : oflags os1 = Dec) by (unfold os1; destruct neg; exact Hfl).
  assert (O2 : written os1 = written os ++ (if neg then ["-"%char] else [])).
  { unfold os1. destruct neg; [reflexivity|]. rewrite app_nil_r. reflexivity. }
  rewrite O1.
  destruct Hv as [->|[Hne Hlow]].
  - exists ["0"%char]. split.
    + unfold putDec_, os_put. cbn [value length Nat.eqb hd andb].
      change (0 =? 0) with true. cbn iota. rewrite O1, O2, <- app_assoc. reflexivity.
    + split; [constructor; [reflexivity|constructor]|].
      split; [reflexivity|]. split; [reflexivity|]. cbn [magnitude]. lia.
  - destruct (putDec_spec fuel os1 v neg Hok Hne Hlow Hf) as (ds & P1 & P2 & P3 & P4 & P5).
    rewrite P1, O1, O2, <- app_assoc. exists ds. split; [reflexivity|].
    split; [exact P2|]. split; [exact P5|].
    pose proof (chunk_pow_pos (length v - 1)).
    split; [intros; lia|]. intros _. split; assumption.
Qed.

(** ** X19 *)

(** X19: on white space, an optional sign, one or more digits and then the
    end of the input or a character that is not a digit, [operator>>] in
    decimal mode returns (for every loop bound above the number of digits)
    the integer the digits denote, negated after ["-"], with limbs in
    range; a zero is the single limb [0] with the sign flag cleared, also
    after ["-"].  The stream is left behind the last digit with [badbit]
    clear; its [failbit] is set exactly when the number is zero and the
    input ends behind it. *)
Theorem X19_operator_in_reads_the_number
        (fuel : nat) (cursor0 : ascii) (b ws : list ascii) (sg : sign)
        (ds rest : list ascii) (self : BigInteger) :
  Forall (fun c => isspace (code c) = true) ws ->
  ds <> [] -> all_digits ds = true -> ends_number rest = true ->
  (length ds < fuel)%nat ->
  exists s' r,
    operator_in fuel cursor0 (good_stream b (ws ++ sign_text sg ++ ds ++ rest)) self
    = Some (s', r)
    /\ to_Z r = match sg with Minus => - dval ds | _ => dval ds end
    /\ limbs_ok (value r) /\ value r <> []
    /\ (dval ds = 0 -> r = mkBig [0] false)
    /\ consumed s' = rev ds ++ rev (sign_text sg) ++ rev ws ++ b
    /\ pending s' = rest /\ badbit s' = false
    /\ failbit s' = (dval ds =? 0) && match rest with [] => true | _ => false end.
Proof.
  intros Hw Hne Hd Hr Hf.
  destruct (operator_in_spec fuel cursor0 b ws sg ds rest self Hw Hne Hd Hr Hf)
    as (s' & L & E & H1 & H2 & H3 & H4 & _ & _ & _ & H5 & H6 & H7 & H8).
  exists s'. eexists. split; [exact E|].
  unfold to_Z. cbn [value negative].
  split.
  { rewrite H3. destruct sg; try reflexivity.
    destruct (Z.eqb_spec (dval ds) 0) as [Z0|Z0]; cbn [negb]; lia. }
  split; [exact H1|]. split; [exact H2|].
  split.
  { intros Z0. rewrite (H4 Z0), Z0. destruct sg; reflexivity. }
  split; [exact H5|]. split; [exact H6|]. split; [exact H7|exact H8].
Qed.

Lemma X19_witness :
  let ws := [" "%char] in
  let ds := ["0"; "0"; "4"; "2"]%char in
  let rest := ["x"%char] in
  Forall (fun c => isspace (code c) = true) ws
  /\ ds <> [] /\ all_digits ds = true /\ ends_number rest = true
  /\ (length ds < 5)%nat
  /\ exists s' r,
       operator_in 5 "?"%char (good_stream [] (ws ++ sign_text Minus ++ ds ++ rest))
                   BigInteger_default
       = Some (s', r)
       /\ to_Z r = - dval ds
       /\ limbs_ok (value r) /\ value r <> []
       /\ (dval ds = 0 -> r = mkBig [0] false)
       /\ consumed s' = rev ds ++ rev (sign_text Minus) ++ rev ws ++ []
       /\ pending s' = rest /\ badbit s' = false
       /\ failbit s' = (dval ds =? 0) && match rest with [] => true | _ => false end.
Proof.
  intros ws ds rest.
  assert (H1 : Forall (fun c => isspace (code c) = true) ws)
    by (constructor; [reflexivity|constructor]).
  assert (H2 : ds <> []) by discriminate.
  assert (H5 : (length ds < 5)%nat) by (cbn; lia).
  split; [exact H1|]. split; [exact H2|]. split; [reflexivity|].
  split; [reflexivity|]. split; [exact H5|].
  exact (X19_operator_in_reads_the_number 5 "?"%char [] ws Minus ds rest
           BigInteger_default H1 H2 eq_refl eq_refl H5).
Defined.

(** ** X20 *)

(** X20: for a value with limbs in range that is the single limb [0] or has
    a top limb that is not zero, [operator<<] in decimal mode returns (for
    every loop bound of at least twice the size) having appended ["-"] when
    the sign flag is set and then the decimal digits of the magnitude: the
    digit string denotes the magnitude and has no leading zero, and is
    ["0"] for the magnitude zero.  A negative zero is printed as ["-0"]. *)
Theorem X20_operator_out_writes_the_decimal_text
        (fuel : nat) (os : ostream) (self : BigInteger) :
  oflags os = Dec -> limbs_ok (value self) ->
  value self = [0] \/ last (value self) 0 <> 0 ->
  (2 * length (value self) <= fuel)%nat ->
  exists ds,
    operator_out fuel os self
    = Some (mkOs (written os ++ (if negative self then ["-"%char] else []) ++ ds) Dec)
    /\ all_digits ds = true
    /\ dval ds = magnitude (value self)
    /\ (magnitude (value self) = 0 -> ds = ["0"%char])
    /\ (0 < magnitude (value self) -> strip_zeros ds = ds /\ ds <> []).
Proof.
  intros Hfl Hok Hv Hf.
  destruct (operator_out_spec fuel os self Hfl Hok) as (ds & E & D1 & D2 & D3 & D4).
  { destruct Hv as [Hv|Hv]; [left; exact Hv|right].
    apply top_nonzero_lower; assumption. }
  { exact Hf. }
  exists ds. split; [exact E|]. split; [apply all_digits_Forall; exact D1|].
  split; [exact D2|]. split; [exact D3|].
  intros Hp. destruct (D4 Hp) as [N1 N2]. split; [|exact N1].
  destruct ds as [|c t]; [contradiction|]. cbn [map hd] in N2.
  cbn [strip_zeros]. rewrite code_0.
  replace (code c =? 48) with false by (symmetry; apply Z.eqb_neq; exact N2).
  reflexivity.
Qed.

Lemma X20_witness :
  let self := mkBig [705032704; 1] true in
  oflags ostream_empty = Dec /\ limbs_ok (value self)
  /\ (value self = [0] \/ last (value self) 0 <> 0)
  /\ (2 * length (value self) <= 4)%nat
  /\ exists ds,
       operator_out 4 ostream_empty self
       = Some (mkOs (written ostream_empty
                     ++ (if negative self then ["-"%char] else []) ++ ds) Dec)
       /\ all_digits ds = true
       /\ dval ds = magnitude (value self)
       /\ (magnitude (value self) = 0 -> ds = ["0"%char])
       /\ (0 < magnitude (value self) -> strip_zeros ds = ds /\ ds <> []).
Proof.
  intros self.
  assert (H1 : limbs_ok (value self))
    by (repeat constructor; unfold limb_ok; lia).
  assert (H2 : value self = [0] \/ last (value self) 0 <> 0)
    by (right; cbn; lia).
  assert (H3 : (2 * length (value self) <= 4)%nat) by (cbn; lia).
  split; [reflexivity|]. split; [exact H1|]. split; [exact H2|].
  split; [exact H3|].
  exact (X20_operator_out_writes_the_decimal_text 4 ostream_empty self
           eq_refl H1 H2 H3).
Defined.

(** ** X21 *)

Lemma canonicalForm_zero (sg : sign) (ds : list ascii) :
  Forall (fun c => isdigit (code c) = true) ds -> dval ds = 0 ->
  canonicalForm sg ds = ["0"%char].
Proof.
  intros Hd Z0. destruct (strip_zeros_facts ds Hd) as (S1 & S2 & S3 & _).
  unfold canonicalForm. destruct (strip_zeros ds) as [|c nz]; [reflexivity|].
  cbn [map hd] in S2. pose proof (dval_lower c nz S1 S2) as Hl.
  assert (0 < 10 ^ Z.of_nat (length nz)) by (apply Z.pow_pos_nonneg; lia). lia.
Qed.

Lemma canonicalForm_nonzero (sg : sign) (ds : list ascii) :
  Forall (fun c => isdigit (code c) = true) ds -> dval ds <> 0 ->
  canonicalForm sg ds
  = (match sg with Minus => ["-"%char] | _ => [] end) ++ strip_zeros ds
  /\ strip_zeros ds <> [].
Proof.
  intros Hd Z0. destruct (strip_zeros_facts ds Hd) as (S1 & S2 & S3 & _).
  unfold canonicalForm. destruct (strip_zeros ds) as [|c nz].
  - exfalso. apply Z0. rewrite <- S3. reflexivity.
  - split; [reflexivity|discriminate].
Qed.

(** The size of the vector read from [n] digits. *)
Lemma read_size (L : list Z) (ds : list ascii) :
  Forall (fun c => isdigit (code c) = true) ds -> ds <> [] ->
  chunk_base ^ Z.of_nat (length L - 1) <= Z.max 1 (dval ds) ->
  (9 * (length L - 1) < length ds)%nat.
Proof.
  intros Hd Hne Hb. pose proof (dval_range ds Hd) as [_ Hr].
  rewrite chunk_pow_10 in Hb.
  assert (1 < 10 ^ Z.of_nat (length ds)).
  { destruct ds as [|c t]; [contradiction|]. cbn [length]. rewrite pow10_S.
    assert (0 < 10 ^ Z.of_nat (length t)) by (apply Z.pow_pos_nonneg; lia). lia. }
  assert (Z.of_nat (9 * (length L - 1)) < Z.of_nat (length ds)).
  { apply (Z.pow_lt_mono_r_iff 10); lia. }
  lia.
Qed.

(** ** X21 *)

(** X21: a decimal text (white space, an optional sign, one or more digits,
    then the end of the input or a character that is not a digit) read by
    [operator>>] and written back by [operator<<] gives the canonical form
    of the text: the digits without their leading zeros, ["-"] in front
    only for a negative number that is not zero, and ["0"] for zero; both
    calls return on every loop bound of at least twice the number of
    digits. *)
Theorem X21_text_round_trip
        (fuel : nat) (cursor0 : ascii) (b ws : list ascii) (sg : sign)
        (ds rest : list ascii) (self : BigInteger) (os : ostream) :
  Forall (fun c => isspace (code c) = true) ws ->
  ds <> [] -> all_digits ds = true -> ends_number rest = true ->
  oflags os = Dec -> (2 * length ds <= fuel)%nat ->
  exists s' r,
    operator_in fuel cursor0 (good_stream b (ws ++ sign_text sg ++ ds ++ rest)) self
    = Some (s', r)
    /\ operator_out fuel os r = Some (mkOs (written os ++ canonicalForm sg ds) Dec).
Proof.
  intros Hw Hne Hd Hr Hfl Hf.
  assert (Hlen : (0 < length ds)%nat) by (destruct ds; [contradiction|cbn; lia]).
  destruct (operator_in_spec fuel cursor0 b ws sg ds rest self Hw Hne Hd Hr
              ltac:(lia))
    as (s' & L & E & H1 & H2 & H3 & H4 & H5 & _).
  apply all_digits_Forall in Hd.
  pose proof (read_size L ds Hd Hne H5) as Hsz.
  exists s'. eexists. split; [exact E|].
  destruct (Z.eq_dec (dval ds) 0) as [Z0|Z0].
  - rewrite (H4 Z0), Z0, (canonicalForm_zero sg ds Hd Z0).
    replace (match sg with Minus => negb (0 =? 0) | _ => false end) with false
      by (destruct sg; reflexivity).
    unfold operator_out, putDec_, os_put. cbn [negative value]. rewrite Hfl.
    reflexivity.
  - pose proof (dval_range ds Hd) as [Hnn _].
    destruct (operator_out_spec fuel os
                (mkBig L (match sg with Minus => negb (dval ds =? 0) | _ => false end))
                Hfl H1) as (ds' & O1 & O2 & O3 & _ & O5).
    { right. split; [exact H2|]. cbn [value]. lia. }
    { cbn [value]. lia. }
    cbn [value negative] in *. rewrite O1. f_equal. f_equal. f_equal.
    destruct (canonicalForm_nonzero sg ds Hd Z0) as [C1 C2]. rewrite C1.
    destruct (strip_zeros_facts ds Hd) as (S1 & S2 & S3 & _).
    destruct (O5 ltac:(lia)) as [N1 N2].
    replace (dval ds =? 0) with false by (symmetry; apply Z.eqb_neq; exact Z0).
    cbn [negb]. f_equal.
    + destruct sg; reflexivity.
    + apply canonical_digits_unique; try assumption. lia.
Qed.

Lemma X21_witness :
  let ds := ["0"; "0"; "7"; "0"]%char in
  Forall (fun c => isspace (code c) = true) [" "%char]
  /\ ds <> [] /\ all_digits ds = true /\ ends_number [" "%char] = true
  /\ oflags ostream_empty = Dec /\ (2 * length ds <= 8)%nat
  /\ exists s' r,
       operator_in 8 "?"%char
         (good_stream [] ([" "%char] ++ sign_text Minus ++ ds ++ [" "%char]))
         BigInteger_default
       = Some (s', r)
       /\ operator_out 8 ostream_empty r
          = Some (mkOs (written ostream_empty ++ canonicalForm Minus ds) Dec).
Proof.
  intros ds.
  assert (H1 : Forall (fun c => isspace (code c) = true) [" "%char])
    by (constructor; [reflexivity|constructor]).
  assert (H2 : ds <> []) by discriminate.
  assert (H6 : (2 * length ds <= 8)%nat) by (cbn; lia).
  split; [exact H1|]. split; [exact H2|]. split; [reflexivity|].
  split; [reflexivity|]. split; [reflexivity|]. split; [exact H6|].
  exact (X21_text_round_trip 8 "?"%char [] [" "%char] Minus ds [" "%char]
           BigInteger_default ostream_empty H1 H2 eq_refl eq_refl eq_refl H6).
Defined.

(** * The representation [operator>>] builds *)

Lemma limb_pow_le_chunk_pow (k : nat) :
  (1 <= k <= 15)%nat -> 2 ^ (32 * Z.of_nat (k - 1)) <= chunk_base ^ Z.of_nat k.
Proof.
  intros H. destruct k as [|k]; [lia|].
  do 15 (destruct k as [|k]; [apply Z.leb_le; vm_compute; reflexivity|]).
  lia.
Qed.

(** A vector read from a number below [10 ^ 144] is normalized. *)
Lemma read_normalized_small (L : list Z) (M : Z) (neg : bool) :
  limbs_ok L -> magnitude L = M ->
  last L 0 <> 0 \/ chunk_base ^ Z.of_nat (length L) <= M \/ L = [0] ->
  M < chunk_base ^ 16 -> (M = 0 -> neg = false) ->
  normalized (mkBig L neg) = true.
Proof.
  intros Hok HM Hc Hb Hn. destruct Hc as [Hc|[Hc| ->]].
  - apply last_nonzero_normalized. exact Hc.
  - pose proof (chunk_pow_pos (length L)) as Hp.
    assert (Hlen : Z.of_nat (length L) < 16).
    { apply (Z.pow_lt_mono_r_iff chunk_base); [reflexivity|lia|lia]. }
    destruct L as [|x t]; [cbn in HM, Hc; lia|].
    apply normalized_positive; [exact Hok|lia|].
    pose proof (limb_pow_le_chunk_pow (length (x :: t)) ltac:(cbn [length] in *; lia)).
    lia.
  - cbn [magnitude] in HM. rewrite Hn by lia. reflexivity.
Qed.

Lemma digits_of_limbs (ds : list ascii) (k : nat) :
  Forall (fun c => isdigit (code c) = true) ds -> ds <> [] ->
  hd 0 (map code ds) <> 48 ->
  dval ds < 2 ^ (32 * Z.of_nat k) ->
  (length ds <= 10 * k)%nat.
Proof.
  intros Hd Hne Hh Hb. pose proof (digits_length ds Hd Hne Hh) as [L1 _].
  assert (Hle : 2 ^ (32 * Z.of_nat k) <= 10 ^ Z.of_nat (10 * k)).
  { rewrite <- limb_pow_mul, Nat2Z.inj_mul, Z.pow_mul_r by lia.
    apply Z.pow_le_mono_l. change (Z.of_nat 10) with 10. lia. }
  assert (Z.of_nat (length ds - 1) < Z.of_nat (10 * k)).
  { apply (Z.pow_lt_mono_r_iff 10); lia. }
  lia.
Qed.

(** ** X22 *)

(** X22: a value with limbs in range that is the single limb [0] or has a
    top limb that is not zero, written by [operator<<] and read back by
    [operator>>] (whatever follows the text, if it is not a digit), gives
    the same integer, with the stream left behind the text; a normalized
    value of at most 14 limbs is read back as the very same
    representation.  Both calls return on every loop bound above ten
    times the size. *)
Theorem X22_value_round_trip
        (fuel : nat) (cursor0 : ascii) (rest : list ascii) (self r0 : BigInteger) :
  limbs_ok (value self) ->
  value self = [0] \/ last (value self) 0 <> 0 ->
  ends_number rest = true ->
  (10 * length (value self) < fuel)%nat ->
  exists os' s' r,
    operator_out fuel ostream_empty self = Some os'
    /\ operator_in fuel cursor0 (istream_of (written os' ++ rest)) r0 = Some (s', r)
    /\ to_Z r = to_Z self /\ limbs_ok (value r) /\ pending s' = rest
    /\ (normalized self = true -> (length (value self) <= 14)%nat -> r = self).
Proof.
  intros Hok Hv Hr Hf.
  assert (Hlen : (1 <= length (value self))%nat).
  { destruct Hv as [->|Hv]; [cbn; lia|].
    destruct (value self); [exfalso; apply Hv; reflexivity|cbn; lia]. }
  destruct (operator_out_spec fuel ostream_empty self eq_refl Hok)
    as (ds & E & D1 & D2 & D3 & D4).
  { destruct Hv as [Hv|Hv]; [left; exact Hv|right].
    apply top_nonzero_lower; assumption. }
  { lia. }
  pose proof (magnitude_nonneg _ Hok) as Hnn.
  pose proof (magnitude_bound _ Hok) as Hmb.
  set (M := magnitude (value self)) in *.
  assert (Hds : ds <> [] /\ (length ds <= 10 * length (value self))%nat).
  { destruct (Z.eq_dec M 0) as [Z0|Z0].
    - rewrite (D3 Z0). split; [discriminate|cbn [length]; lia].
    - destruct (D4 ltac:(lia)) as [N1 N2]. split; [exact N1|].
      apply digits_of_limbs; try assumption. lia. }
  destruct Hds as [Hne Hdl].
  set (sg := if negative self then Minus else NoSign).
  assert (Esg : (if negative self then ["-"%char] else []) = sign_text sg).
  { unfold sg. destruct (negative self); reflexivity. }
  rewrite Esg in E. cbn [written ostream_empty app] in E.
  destruct (operator_in_spec fuel cursor0 [] [] sg ds rest r0
              ltac:(constructor) Hne ltac:(apply all_digits_Forall; exact D1)
              Hr ltac:(lia))
    as (s' & L & I1 & I2 & I3 & I4 & I5 & I6 & I7 & _ & _ & I8 & _).
  cbn [app] in I1.
  eexists. exists s'. eexists. split; [exact E|].
  cbn [written]. unfold istream_of. rewrite <- app_assoc.
  split; [exact I1|].
  assert (Hz : to_Z (mkBig L (match sg with Minus => negb (dval ds =? 0) | _ => false end))
               = to_Z self).
  { unfold to_Z. cbn [value negative]. rewrite I4, D2. fold M. unfold sg.
    destruct (negative self); [|reflexivity].
    destruct (Z.eqb_spec M 0) as [Z0|Z0]; cbn [negb]; lia. }
  split; [exact Hz|]. split; [exact I2|]. split; [exact I8|].
  intros Hn H14.
  apply normalized_unique; try assumption.
  cbn [value]. apply (read_normalized_small L (dval ds)); try assumption.
  - rewrite D2. fold M.
    apply Z.lt_le_trans with (2 ^ (32 * Z.of_nat (length (value self)))); [exact Hmb|].
    apply Z.le_trans with (2 ^ (32 * 14)).
    + apply Z.pow_le_mono_r; lia.
    + apply Z.leb_le. vm_compute. reflexivity.
  - intros Z0. rewrite Z0. destruct sg; reflexivity.
Qed.

Lemma X22_witness :
  let self := mkBig [705032704; 1] true in
  limbs_ok (value self)
  /\ (value self = [0] \/ last (value self) 0 <> 0)
  /\ ends_number [" "%char] = true
  /\ (10 * length (value self) < 21)%nat
  /\ exists os' s' r,
       operator_out 21 ostream_empty self = Some os'
       /\ operator_in 21 "?"%char (istream_of (written os' ++ [" "%char]))
                      BigInteger_default = Some (s', r)
       /\ to_Z r = to_Z self /\ limbs_ok (value r) /\ pending s' = [" "%char]
       /\ (normalized self = true -> (length (value self) <= 14)%nat -> r = self).
Proof.
  intros self.
  assert (H1 : limbs_ok (value self))
    by (repeat constructor; unfold limb_ok; lia).
  assert (H2 : value self = [0] \/ last (value self) 0 <> 0)
    by (right; cbn; lia).
  assert (H4 : (10 * length (value self) < 21)%nat) by (cbn; lia).
  split; [exact H1|]. split; [exact H2|]. split; [reflexivity|].
  split; [exact H4|].
  exact (X22_value_round_trip 21 "?"%char [" "%char] self BigInteger_default
           H1 H2 eq_refl H4).
Defined.

(** ** X23 *)

(** X23: a number of at most 144 significant digits (leading zeros not
    counted) is read by [operator>>] into a normalized value: the top limb
    is zero only for the single limb [0], and a zero is not negative. *)
Theorem X23_short_numbers_are_read_normalized
        (fuel : nat) (cursor0 : ascii) (b ws : list ascii)
        (sg : sign) (ds rest : list ascii) (self : BigInteger) :
  Forall (fun c => isspace (code c) = true) ws ->
  ds <> [] -> all_digits ds = true -> ends_number rest = true ->
  (length ds < fuel)%nat ->
  (length (strip_zeros ds) <= 144)%nat ->
  exists s' r,
    operator_in fuel cursor0 (good_stream b (ws ++ sign_text sg ++ ds ++ rest)) self
    = Some (s', r)
    /\ normalized r = true.
Proof.
  intros Hw Hne Hd Hr Hf H144.
  destruct (operator_in_spec fuel cursor0 b ws sg ds rest self Hw Hne Hd Hr Hf)
    as (s' & L & E & H1 & H2 & H3 & H4 & H5 & H6 & _).
  exists s'. eexists. split; [exact E|].
  apply all_digits_Forall in Hd.
  destruct (strip_zeros_facts ds Hd) as (S1 & S2 & S3 & S4).
  apply (read_normalized_small L (dval ds)); try assumption.
  - rewrite <- S3. pose proof (dval_range _ S1) as [_ Hlt].
    apply Z.lt_le_trans with (1 := Hlt).
    change (chunk_base ^ 16) with (10 ^ 144).
    apply Z.pow_le_mono_r; lia.
  - intros Z0. rewrite Z0. destruct sg; reflexivity.
Qed.

Lemma X23_witness :
  let ds := ["0"; "4"; "2"; "9"; "4"; "9"; "6"; "7"; "2"; "9"; "6"]%char in
  Forall (fun c => isspace (code c) = true) []
  /\ ds <> [] /\ all_digits ds = true /\ ends_number [] = true
  /\ (length ds < 12)%nat /\ (length (strip_zeros ds) <= 144)%nat
  /\ exists s' r,
       operator_in 12 "?"%char (good_stream [] ([] ++ sign_text Plus ++ ds ++ []))
                   BigInteger_default = Some (s', r)
       /\ normalized r = true.
Proof.
  intros ds.
  assert (H2 : ds <> []) by discriminate.
  assert (H5 : (length ds < 12)%nat) by (cbn; lia).
  assert (H6 : (length (strip_zeros ds) <= 144)%nat) by (cbn; lia).
  split; [constructor|]. split; [exact H2|]. split; [reflexivity|].
  split; [reflexivity|]. split; [exact H5|]. split; [exact H6|].
  exact (X23_short_numbers_are_read_normalized 12 "?"%char [] [] Plus ds []
           BigInteger_default (Forall_nil _) H2 eq_refl eq_refl H5 H6).
Defined.

(** ** X24 *)

(** X24: [getDec_] does not trim its result.  A number with more than
    [9 (k + 1)] significant digits that is below [2 ^ (32 k)] is read by
    [operator>>] into more than [k] limbs, so with a top limb that is
    zero: the value returned stands for the right integer but is not
    normalized.  The shortest such text is [10 ^ 144], 145 digits for a
    number below [2 ^ 480]. *)
Theorem X24_long_numbers_are_read_unnormalized
        (fuel : nat) (cursor0 : ascii) (b ws : list ascii)
        (sg : sign) (ds rest : list ascii) (self : BigInteger) (k : nat) :
  Forall (fun c => isspace (code c) = true) ws ->
  ds <> [] -> all_digits ds = true -> ends_number rest = true ->
  (length ds < fuel)%nat ->
  (9 * S k < length (strip_zeros ds))%nat ->
  dval ds < 2 ^ (32 * Z.of_nat k) ->
  exists s' r,
    operator_in fuel cursor0 (good_stream b (ws ++ sign_text sg ++ ds ++ rest)) self
    = Some (s', r)
    /\ normalized r = false /\ (k < length (value r))%nat
    /\ to_Z r = match sg with Minus => - dval ds | _ => dval ds end.
Proof.
  intros Hw Hne Hd Hr Hf Hk Hb.
  destruct (operator_in_spec fuel cursor0 b ws sg ds rest self Hw Hne Hd Hr Hf)
    as (s' & L & E & H1 & H2 & H3 & H4 & H5 & H6 & H7 & _).
  exists s'. eexists. split; [exact E|]. cbn [value].
  apply all_digits_Forall in Hd.
  destruct (strip_zeros_facts ds Hd) as (S1 & S2 & S3 & S4).
  assert (Hpos : 0 < dval ds).
  { rewrite <- S3. destruct (strip_zeros ds) as [|c nz]; [cbn in Hk; lia|].
    cbn [map hd] in S2. pose proof (dval_lower c nz S1 S2).
    assert (0 < 10 ^ Z.of_nat (length nz)) by (apply Z.pow_pos_nonneg; lia). lia. }
  assert (HkL : (k < length L)%nat) by lia.
  split; [|split; [exact HkL|]].
  - destruct (normalized (mkBig L _)) eqn:N; [|reflexivity]. exfalso.
    apply normalized_positive in N; [|exact H1|lia].
    assert (2 ^ (32 * Z.of_nat k) <= 2 ^ (32 * Z.of_nat (length L - 1))).
    { apply Z.pow_le_mono_r; lia. }
    lia.
  - unfold to_Z. cbn [value negative]. rewrite H3.
    replace (dval ds =? 0) with false by (symmetry; apply Z.eqb_neq; lia).
    destruct sg; reflexivity.
Qed.

Lemma X24_witness :
  let ds := "1"%char :: repeat "0"%char 144 in
  Forall (fun c => isspace (code c) = true) []
  /\ ds <> [] /\ all_digits ds = true /\ ends_number [] = true
  /\ (length ds < 146)%nat /\ (9 * 16 < length (strip_zeros ds))%nat
  /\ dval ds < 2 ^ (32 * Z.of_nat 15)
  /\ exists s' r,
       operator_in 146 "?"%char (good_stream [] ([] ++ sign_text NoSign ++ ds ++ []))
                   BigInteger_default = Some (s', r)
       /\ normalized r = false /\ (15 < length (value r))%nat
       /\ to_Z r = dval ds.
Proof.
  intros ds.
  assert (H2 : ds <> []) by discriminate.
  assert (H3 : all_digits ds = true) by (vm_compute; reflexivity).
  assert (H5 : (length ds < 146)%nat) by (apply Nat.ltb_lt; vm_compute; reflexivity).
  assert (H6 : (9 * 16 < length (strip_zeros ds))%nat)
    by (apply Nat.ltb_lt; vm_compute; reflexivity).
  assert (H7 : dval ds < 2 ^ (32 * Z.of_nat 15))
    by (apply Z.ltb_lt; vm_compute; reflexivity).
  split; [constructor|]. split; [exact H2|]. split; [exact H3|].
  split; [reflexivity|]. split; [exact H5|]. split; [exact H6|].
  split; [exact H7|].
  exact (X24_long_numbers_are_read_unnormalized 146 "?"%char [] [] NoSign ds []
           BigInteger_default 15 (Forall_nil _) H2 H3 eq_refl H5 H6 H7).
Defined.

(** * The transform: arithmetic modulo [mod] *)

From Stdlib Require Import Morphisms Setoid.

Lemma mod_range : 1 < mod_ < 2 ^ 32.
Proof. rewrite mod_val. lia. Qed.

Lemma cong_def (a b : Z) : cong a b <-> a mod mod_ = b mod mod_.
Proof. split; [intros [H]; exact H | apply cong_intro]. Qed.

#[global] Instance cong_equiv : Equivalence cong.
Proof.
  split.
  - intros x. apply cong_def. reflexivity.
  - intros x y H. apply cong_def in H. apply cong_def. symmetry. exact H.
  - intros x y z H1 H2. apply cong_def in H1, H2. apply cong_def. congruence.
Qed.

#[global] Instance cong_add : Proper (cong ==> cong ==> cong) Z.add.
Proof.
  intros a b H c d H'. apply cong_def in H, H'. apply cong_def.
  rewrite (Z.add_mod a c), (Z.add_mod b d) by (rewrite mod_val; lia).
  rewrite H, H'. reflexivity.
Qed.

#[global] Instance cong_sub : Proper (cong ==> cong ==> cong) Z.sub.
Proof.
  intros a b H c d H'. apply cong_def in H, H'. apply cong_def.
  rewrite (Zminus_mod a c), (Zminus_mod b d). rewrite H, H'. reflexivity.
Qed.

#[global] Instance cong_mul : Proper (cong ==> cong ==> cong) Z.mul.
Proof.
  intros a b H c d H'. apply cong_def in H, H'. apply cong_def.
  rewrite (Z.mul_mod a c), (Z.mul_mod b d) by (rewrite mod_val; lia).
  rewrite H, H'. reflexivity.
Qed.

Lemma cong_mod (x : Z) : cong (x mod mod_) x.
Proof. apply cong_def. apply Z.mod_mod. rewrite mod_val. lia. Qed.

Lemma mod_field (x : Z) : 0 <= x mod mod_ < mod_.
Proof. apply Z.mod_pos_bound. apply mod_pos. Qed.

Lemma cong_field_eq (a b : Z) :
  0 <= a < mod_ -> 0 <= b < mod_ -> cong a b -> a = b.
Proof.
  intros Ha Hb H. apply cong_def in H.
  rewrite (Z.mod_small a), (Z.mod_small b) in H; assumption.
Qed.

Lemma cong_mod_eq (a b : Z) : cong a b -> a mod mod_ = b mod mod_.
Proof. apply cong_def. Qed.

Lemma cong_multiple (a k : Z) : cong (a + k * mod_) a.
Proof. apply cong_def. apply Z.mod_add. rewrite mod_val. lia. Qed.

(** ** Powers *)

Lemma zpow_0 (x : Z) : zpow x 0 = 1.
Proof. reflexivity. Qed.

Lemma zpow_S (x : Z) (e : nat) : zpow x (S e) = x * zpow x e.
Proof. unfold zpow. rewrite Nat2Z.inj_succ. apply Z.pow_succ_r. lia. Qed.

Lemma zpow_1 (x : Z) : zpow x 1 = x.
Proof. unfold zpow. apply Z.pow_1_r. Qed.

Lemma zpow_add (x : Z) (a b : nat) : zpow x (a + b) = zpow x a * zpow x b.
Proof. unfold zpow. rewrite Nat2Z.inj_add. apply Z.pow_add_r; lia. Qed.

Lemma zpow_mul (x : Z) (a b : nat) : zpow x (a * b) = zpow (zpow x a) b.
Proof. unfold zpow. rewrite Nat2Z.inj_mul. apply Z.pow_mul_r; lia. Qed.

Lemma zpow_1_l (e : nat) : zpow 1 e = 1.
Proof. unfold zpow. apply Z.pow_1_l. lia. Qed.

Lemma zpow_cong (x y : Z) (e : nat) : cong x y -> cong (zpow x e) (zpow y e).
Proof.
  intros H. induction e as [|e IH].
  - reflexivity.
  - rewrite !zpow_S. apply cong_mul; assumption.
Qed.

Lemma zpow_opp1_odd (q : nat) : zpow (-1) (2 * q + 1) = -1.
Proof.
  rewrite zpow_add, zpow_mul, zpow_1.
  replace (zpow (-1) 2) with 1 by reflexivity.
  rewrite zpow_1_l. reflexivity.
Qed.

(** A power of a root of unity depends on the exponent modulo the order. *)
Lemma zpow_order (x : Z) (n a b : nat) :
  cong (zpow x n) 1 -> cong (zpow x (a + n * b)) (zpow x a).
Proof.
  intros H. rewrite zpow_add, zpow_mul.
  rewrite <- (Z.mul_1_r (zpow x a)) at 2.
  apply cong_mul; [reflexivity|].
  rewrite <- (zpow_1_l b). apply zpow_cong. exact H.
Qed.

(** ** Sums *)

Lemma zsum_ext (n : nat) (f g : nat -> Z) :
  (forall m, (m < n)%nat -> f m = g m) -> zsum n f = zsum n g.
Proof.
  induction n as [|n IH]; intros H; cbn [zsum]; [reflexivity|].
  rewrite IH by (intros; apply H; lia). rewrite (H n) by lia. reflexivity.
Qed.

Lemma zsum_cong (n : nat) (f g : nat -> Z) :
  (forall m, (m < n)%nat -> cong (f m) (g m)) -> cong (zsum n f) (zsum n g).
Proof.
  induction n as [|n IH]; intros H; cbn [zsum]; [reflexivity|].
  apply cong_add; [apply IH; intros; apply H; lia|apply H; lia].
Qed.

Lemma zsum_add (n : nat) (f g : nat -> Z) :
  zsum n (fun m => f m + g m) = zsum n f + zsum n g.
Proof. induction n as [|n IH]; cbn [zsum]; [reflexivity|]. rewrite IH. ring. Qed.

Lemma zsum_scale (n : nat) (c : Z) (f : nat -> Z) :
  zsum n (fun m => c * f m) = c * zsum n f.
Proof. induction n as [|n IH]; cbn [zsum]; [ring|]. rewrite IH. ring. Qed.

Lemma zsum_zero (n : nat) : zsum n (fun _ => 0) = 0.
Proof. induction n as [|n IH]; cbn [zsum]; [reflexivity|]. rewrite IH. ring. Qed.

Lemma zsum_swap (n m : nat) (f : nat -> nat -> Z) :
  zsum n (fun j => zsum m (fun k => f j k))
  = zsum m (fun k => zsum n (fun j => f j k)).
Proof.
  induction n as [|n IH]; cbn [zsum].
  - symmetry. apply zsum_zero.
  - rewrite IH. symmetry. apply zsum_add.
Qed.

Lemma zsum_app (a b : nat) (f : nat -> Z) :
  zsum (a + b) f = zsum a f + zsum b (fun m => f (a + m)%nat).
Proof.
  induction b as [|b IH].
  - rewrite Nat.add_0_r. cbn [zsum]. ring.
  - rewrite Nat.add_succ_r. cbn [zsum]. rewrite IH. ring.
Qed.

Lemma zsum_even_odd (n : nat) (f : nat -> Z) :
  zsum (2 * n) f
  = zsum n (fun m => f (2 * m)%nat) + zsum n (fun m => f (2 * m + 1)%nat).
Proof.
  induction n as [|n IH]; [reflexivity|].
  replace (2 * S n)%nat with (S (S (2 * n))) by lia.
  cbn [zsum]. rewrite IH.
  replace (S (2 * n)) with (2 * n + 1)%nat by lia. ring.
Qed.

Lemma zsum_single (n k : nat) (f : nat -> Z) :
  (k < n)%nat -> zsum n (fun m => if (m =? k)%nat then f m else 0) = f k.
Proof.
  induction n as [|n IH]; intros H; [lia|]. cbn [zsum].
  destruct (Nat.eqb_spec n k) as [->|Hne].
  - rewrite (zsum_ext k _ (fun _ => 0)).
    + rewrite zsum_zero. ring.
    + intros m Hm. destruct (Nat.eqb_spec m k); [lia|reflexivity].
  - rewrite IH by lia. ring.
Qed.

(** ** Roots of unity of order a power of two *)

Lemma geometric_double (y : Z) (n : nat) :
  zsum (2 * n) (zpow y) = (1 + zpow y n) * zsum n (zpow y).
Proof.
  replace (2 * n)%nat with (n + n)%nat by lia. rewrite zsum_app.
  rewrite (zsum_ext n (fun m => zpow y (n + m)) (fun m => zpow y n * zpow y m))
    by (intros; apply zpow_add).
  rewrite zsum_scale. ring.
Qed.

Lemma pow2_S (s : nat) : (2 ^ S s = 2 * 2 ^ s)%nat.
Proof. reflexivity. Qed.

Lemma pow2_pos (s : nat) : (0 < 2 ^ s)%nat.
Proof. pose proof (Nat.pow_nonzero 2 s). lia. Qed.

(** The geometric sum over [2^s] terms vanishes when some [2^t]-th power
    of the ratio, [t < s], is [-1]. *)
Lemma geometric_zero (y : Z) (s t : nat) :
  (t < s)%nat -> cong (zpow y (2 ^ t)) (-1) ->
  cong (zsum (2 ^ s) (zpow y)) 0.
Proof.
  intros Ht Hy. induction s as [|s IH]; [lia|].
  rewrite pow2_S, geometric_double.
  destruct (Nat.eq_dec t s) as [->|Hne].
  - replace 0 with ((1 + -1) * zsum (2 ^ s) (zpow y)) by ring.
    apply cong_mul; [|reflexivity]. apply cong_add; [reflexivity|exact Hy].
  - replace 0 with ((1 + zpow y (2 ^ s)) * 0) by ring.
    apply cong_mul; [reflexivity|]. apply IH. lia.
Qed.

Lemma odd_part (d : nat) :
  (0 < d)%nat -> exists a o : nat, d = (2 ^ a * (2 * o + 1))%nat.
Proof.
  induction d as [d IH] using lt_wf_ind. intros Hd.
  destruct (Nat.eq_dec (d mod 2) 0) as [E|E].
  - pose proof (Nat.div_mod_eq d 2) as Hdm.
    destruct (IH (d / 2)%nat) as (a & o & Ho).
    + apply Nat.div_lt; lia.
    + lia.
    + exists (S a), o. rewrite pow2_S. rewrite <- Nat.mul_assoc, <- Ho. lia.
  - exists 0%nat, (d / 2)%nat. pose proof (Nat.div_mod_eq d 2) as Hdm.
    pose proof (Nat.mod_upper_bound d 2 ltac:(lia)). cbn [Nat.pow]. lia.
Qed.

(** Orthogonality: the powers [zeta^(j d)], [j < 2^s], of a root of unity
    with [zeta^(2^(s-1)) = -1] sum to zero unless [2^s] divides [d]. *)
Lemma root_orthogonal (zeta : Z) (s d : nat) :
  (1 <= s)%nat -> cong (zpow zeta (2 ^ (s - 1))) (-1) ->
  (d mod 2 ^ s)%nat <> 0%nat ->
  cong (zsum (2 ^ s) (fun j => zpow zeta (d * j))) 0.
Proof.
  intros Hs Hz Hd.
  assert (Hpos : (0 < d)%nat).
  { destruct d; [|lia]. exfalso. apply Hd. apply Nat.Div0.mod_0_l. }
  destruct (odd_part d Hpos) as (a & o & Ho).
  assert (Ha : (a < s)%nat).
  { destruct (Nat.lt_ge_cases a s) as [L|L]; [exact L|]. exfalso. apply Hd.
    rewrite Ho. replace a with (s + (a - s))%nat by lia.
    rewrite Nat.pow_add_r, <- Nat.mul_assoc, Nat.mul_comm.
    apply Nat.Div0.mod_mul. }
  rewrite (zsum_ext _ _ (zpow (zpow zeta d))) by (intros; apply zpow_mul).
  apply (geometric_zero _ s (s - 1 - a)); [lia|].
  rewrite <- zpow_mul.
  replace (d * 2 ^ (s - 1 - a))%nat with (2 ^ (s - 1) * (2 * o + 1))%nat.
  - rewrite zpow_mul, <- (zpow_opp1_odd o). apply zpow_cong. exact Hz.
  - rewrite Ho. replace (s - 1)%nat with (a + (s - 1 - a))%nat at 1 by lia.
    rewrite Nat.pow_add_r. lia.
Qed.

(** An element whose [2^(s-1)]-th power is [-1] has order [2^s]. *)
Lemma root_order (zeta : Z) (s : nat) :
  (1 <= s)%nat -> cong (zpow zeta (2 ^ (s - 1))) (-1) ->
  cong (zpow zeta (2 ^ s)) 1.
Proof.
  intros Hs Hz. replace s with (S (s - 1)) at 1 by lia.
  rewrite pow2_S, Nat.mul_comm, zpow_mul.
  replace 1 with (zpow (-1) 2) by reflexivity.
  apply zpow_cong. exact Hz.
Qed.

(** * The transform: vectors and the table of roots *)

Lemma length_vset (v : list Z) : forall (i : nat) (x : Z),
  length (vset v i x) = length v.
Proof.
  induction v as [|y t IH]; intros [|i] x; cbn [vset length]; try reflexivity.
  rewrite IH. reflexivity.
Qed.

Lemma vget_vset_eq (v : list Z) : forall (i : nat) (x : Z),
  (i < length v)%nat -> vget (vset v i x) i = x.
Proof.
  unfold vget. induction v as [|y t IH]; intros [|i] x H; cbn [length] in H;
    try lia; cbn [vset nth]; [reflexivity|].
  apply IH. lia.
Qed.

Lemma vget_vset_neq (v : list Z) : forall (i q : nat) (x : Z),
  i <> q -> vget (vset v i x) q = vget v q.
Proof.
  unfold vget. induction v as [|y t IH]; intros [|i] [|q] x H;
    cbn [vset nth]; try reflexivity; try lia.
  apply IH. lia.
Qed.

Lemma vget_vset (v : list Z) (i q : nat) (x : Z) :
  (i < length v)%nat ->
  vget (vset v i x) q = if (q =? i)%nat then x else vget v q.
Proof.
  intros H. destruct (Nat.eqb_spec q i) as [->|Hne].
  - apply vget_vset_eq. exact H.
  - apply vget_vset_neq. lia.
Qed.

Lemma vget_outside (v : list Z) (q : nat) : (length v <= q)%nat -> vget v q = 0.
Proof. intros H. unfold vget. apply nth_overflow. exact H. Qed.

Lemma below_vget (B : Z) (v : list Z) (q : nat) :
  below B v -> (q < length v)%nat -> 0 <= vget v q < B.
Proof.
  intros Hv Hq. unfold below in Hv. rewrite Forall_forall in Hv.
  apply Hv. unfold vget. apply nth_In. exact Hq.
Qed.

Lemma below_of_vget (B : Z) (v : list Z) :
  (forall q, (q < length v)%nat -> 0 <= vget v q < B) -> below B v.
Proof.
  intros H. unfold below. apply Forall_forall. intros x Hx.
  destruct (In_nth v x 0 Hx) as (q & Hq & <-). apply H. exact Hq.
Qed.

Lemma below_vset (B : Z) (v : list Z) (i : nat) (x : Z) :
  below B v -> 0 <= x < B -> below B (vset v i x).
Proof.
  intros Hv Hx. apply below_of_vget. rewrite length_vset. intros q Hq.
  destruct (Nat.eq_dec i q) as [->|Hne].
  - rewrite vget_vset_eq by exact Hq. exact Hx.
  - rewrite vget_vset_neq by exact Hne. apply below_vget; assumption.
Qed.

Lemma in_field_below (v : list Z) : in_field v <-> below mod_ v.
Proof. reflexivity. Qed.

Lemma limbs_ok_below (v : list Z) : limbs_ok v <-> below (2 ^ 32) v.
Proof. reflexivity. Qed.

Lemma below_weaken (B B' : Z) (v : list Z) : B <= B' -> below B v -> below B' v.
Proof.
  intros HB Hv. unfold below in *. rewrite Forall_forall in *.
  intros x Hx. specialize (Hv x Hx). lia.
Qed.

Lemma vget_ext (a b : list Z) :
  length a = length b ->
  (forall q, (q < length a)%nat -> vget a q = vget b q) -> a = b.
Proof.
  intros Hl H. apply (nth_ext a b 0 0 Hl). exact H.
Qed.

Lemma length_vswap (v : list Z) (i j : nat) : length (vswap v i j) = length v.
Proof. unfold vswap. rewrite !length_vset. reflexivity. Qed.

Lemma vget_vswap (v : list Z) (i j q : nat) :
  (i < length v)%nat -> (j < length v)%nat ->
  vget (vswap v i j) q
  = if (q =? j)%nat then vget v i
    else if (q =? i)%nat then vget v j else vget v q.
Proof.
  intros Hi Hj. unfold vswap.
  rewrite vget_vset by (rewrite length_vset; exact Hj).
  destruct (q =? j)%nat; [reflexivity|].
  apply vget_vset. exact Hi.
Qed.

(** ** The table [w] *)

Lemma length_w_fill (c : nat) : forall prev g : Z, length (w_fill c prev g) = c.
Proof.
  induction c as [|c IH]; intros prev g; cbn [w_fill length]; [reflexivity|].
  rewrite IH. reflexivity.
Qed.

Lemma w_fill_spec (c : nat) : forall (prev g : Z) (k : nat),
  0 <= prev < mod_ -> 0 <= g < 2 ^ 32 -> (k < c)%nat ->
  0 <= vget (w_fill c prev g) k < mod_
  /\ cong (vget (w_fill c prev g) k) (prev * zpow g (S k)).
Proof.
  pose proof mod_range as Hp.
  induction c as [|c IH]; intros prev g k Hprev Hg Hk; [lia|].
  cbn [w_fill]. rewrite wrap64_id by nia.
  destruct k as [|k].
  - unfold vget. cbn [nth]. split; [apply mod_field|].
    rewrite cong_mod, zpow_1. reflexivity.
  - unfold vget. cbn [nth].
    destruct (IH ((prev * g) mod mod_) g k (mod_field _) Hg ltac:(lia)) as [R C].
    split; [exact R|]. unfold vget in C. rewrite C.
    rewrite (zpow_S g (S k)), Z.mul_assoc.
    apply cong_mul; [apply cong_mod|reflexivity].
Qed.

Lemma length_w_init (n : nat) (g : Z) : length (w_init n g) = n.
Proof.
  destruct n as [|n]; [reflexivity|]. cbn [w_init length].
  rewrite length_w_fill. reflexivity.
Qed.

Lemma w_init_table (n : nat) (g : Z) :
  0 <= g < 2 ^ 32 -> is_table g (w_init n g).
Proof.
  pose proof mod_range as Hp.
  intros Hg k Hk. rewrite length_w_init in Hk.
  destruct n as [|n]; [lia|]. cbn [w_init].
  destruct k as [|k].
  - unfold vget. cbn [nth]. split; [lia|reflexivity].
  - unfold vget. cbn [nth].
    destruct (w_fill_spec n 1 g k ltac:(lia) Hg ltac:(lia)) as [R C].
    split; [exact R|]. unfold vget in C. rewrite C, Z.mul_1_l. reflexivity.
Qed.

Lemma length_w_reverse (w : list Z) : length (w_reverse w) = length w.
Proof.
  destruct w as [|x t]; [reflexivity|]. cbn [w_reverse length].
  rewrite length_rev. reflexivity.
Qed.

Lemma vget_w_reverse (w : list Z) (k : nat) :
  (1 <= k < length w)%nat -> vget (w_reverse w) k = vget w (length w - k).
Proof.
  intros Hk. destruct w as [|x t]; [cbn in Hk; lia|].
  cbn [length] in *. destruct k as [|k]; [lia|].
  unfold vget. cbn [w_reverse nth].
  rewrite rev_nth by lia.
  replace (S (length t) - S k)%nat with (S (length t - S k)) by lia.
  reflexivity.
Qed.

(** The reversed table holds the powers of the inverse root. *)
Lemma w_reverse_table (g : Z) (w : list Z) :
  is_table g w -> cong (zpow g (length w)) 1 ->
  is_table (zpow g (length w - 1)) (w_reverse w).
Proof.
  intros Ht Ho k Hk. rewrite length_w_reverse in Hk.
  destruct k as [|k].
  - destruct w as [|x t]; [cbn in Hk; lia|].
    destruct (Ht 0%nat Hk) as [R C]. split; [exact R|].
    unfold vget in *. cbn [w_reverse nth] in *.
    rewrite zpow_0 in C. rewrite zpow_0. exact C.
  - rewrite vget_w_reverse by lia.
    destruct (Ht (length w - S k)%nat ltac:(lia)) as [R C].
    split; [exact R|]. rewrite C, <- zpow_mul.
    replace ((length w - 1) * S k)%nat
      with ((length w - S k) + length w * k)%nat by nia.
    symmetry. apply zpow_order. exact Ho.
Qed.

(** * The transform: the bit-reversal permutation *)

Lemma brev_bound (t : nat) : forall m : nat, (brev t m < 2 ^ t)%nat.
Proof.
  induction t as [|t IH]; intros m; cbn [brev]; [cbn; lia|].
  specialize (IH (m / 2)%nat). rewrite pow2_S.
  pose proof (Nat.mod_upper_bound m 2 ltac:(lia)). nia.
Qed.

Lemma brev_even (t m : nat) : brev (S t) (2 * m) = brev t m.
Proof.
  cbn [brev]. rewrite Nat.mul_comm, Nat.div_mul, Nat.Div0.mod_mul by lia. lia.
Qed.

Lemma brev_odd (t m : nat) : brev (S t) (2 * m + 1) = (brev t m + 2 ^ t)%nat.
Proof.
  cbn [brev].
  replace (2 * m + 1)%nat with (1 + m * 2)%nat by lia.
  rewrite Nat.div_add, Nat.Div0.mod_add by lia.
  change (1 / 2)%nat with 0%nat. change (1 mod 2)%nat with 1%nat.
  rewrite Nat.add_0_l. lia.
Qed.

(** The reversal read from the top bit. *)
Lemma brev_top (t : nat) : forall m : nat,
  (m < 2 ^ S t)%nat -> brev (S t) m = (2 * brev t (m mod 2 ^ t) + m / 2 ^ t)%nat.
Proof.
  induction t as [|t IH]; intros m Hm.
  - cbn [brev Nat.pow]. cbn in Hm. rewrite Nat.div_1_r, Nat.mul_1_r.
    pose proof (Nat.div_mod_eq m 2). assert (m / 2 = 0)%nat by (apply Nat.div_small; lia).
    lia.
  - pose proof (Nat.div_mod_eq m 2) as Hdm.
    pose proof (Nat.mod_upper_bound m 2 ltac:(lia)) as Hb.
    rewrite pow2_S in Hm.
    assert (Hh : (m / 2 < 2 ^ S t)%nat) by (apply Nat.Div0.div_lt_upper_bound; lia).
    change (brev (S (S t)) m)
      with (brev (S t) (m / 2) + (m mod 2) * 2 ^ S t)%nat.
    rewrite (IH (m / 2)%nat Hh).
    change (brev (S t) (m mod 2 ^ S t))
      with (brev t (m mod 2 ^ S t / 2) + (m mod 2 ^ S t) mod 2 * 2 ^ t)%nat.
    assert (Hsplit : (m mod 2 ^ S t = m mod 2 + 2 * ((m / 2) mod 2 ^ t))%nat).
    { rewrite pow2_S. apply Nat.Div0.mod_mul_r. }
    assert (A1 : (m mod 2 ^ S t / 2 = (m / 2) mod 2 ^ t)%nat).
    { symmetry. apply (Nat.div_unique _ 2 _ (m mod 2)); lia. }
    assert (A2 : ((m mod 2 ^ S t) mod 2 = m mod 2)%nat).
    { symmetry. apply (Nat.mod_unique _ 2 ((m / 2) mod 2 ^ t)); lia. }
    assert (A3 : (m / 2 ^ S t = m / 2 / 2 ^ t)%nat).
    { rewrite pow2_S. symmetry. apply Nat.Div0.div_div. }
    rewrite A1, A2, A3, (pow2_S t). lia.
Qed.

Lemma brev_involutive (t : nat) : forall m : nat,
  (m < 2 ^ t)%nat -> brev t (brev t m) = m.
Proof.
  induction t as [|t IH]; intros m Hm; [cbn in *; lia|].
  pose proof (Nat.div_mod_eq m 2) as Hdm.
  pose proof (Nat.mod_upper_bound m 2 ltac:(lia)) as Hb.
  rewrite pow2_S in Hm.
  assert (Hh : (m / 2 < 2 ^ t)%nat) by (apply Nat.Div0.div_lt_upper_bound; lia).
  rewrite brev_top by apply brev_bound.
  change (brev (S t) m) with (brev t (m / 2) + (m mod 2) * 2 ^ t)%nat.
  pose proof (brev_bound t (m / 2)) as Hbb.
  pose proof (pow2_pos t) as Hp.
  rewrite Nat.Div0.mod_add, Nat.div_add by lia.
  rewrite (Nat.mod_small _ _ Hbb), (Nat.div_small _ _ Hbb), IH by exact Hh. lia.
Qed.

(** ** The reversed counter *)

Lemma lxor_pow2_low (j s : nat) : (j < 2 ^ s)%nat -> Nat.lxor j (2 ^ s) = (j + 2 ^ s)%nat.
Proof.
  intros H. symmetry. apply Nat.add_nocarry_lxor.
  apply Nat.bits_inj_0. intros n. rewrite Nat.land_spec, Nat.pow2_bits_eqb.
  destruct (Nat.eqb_spec s n) as [<-|Hne]; [|apply andb_false_r].
  rewrite andb_true_r.
  destruct (Nat.eq_dec j 0) as [->|Hj]; [apply Nat.bits_0|].
  apply Nat.bits_above_log2. apply Nat.log2_lt_pow2; lia.
Qed.

Lemma lxor_pow2_high (j s : nat) :
  (2 ^ s <= j < 2 ^ S s)%nat -> Nat.lxor j (2 ^ s) = (j - 2 ^ s)%nat.
Proof.
  intros H. rewrite pow2_S in H.
  replace j with ((j - 2 ^ s) + 2 ^ s)%nat at 1 by lia.
  rewrite <- lxor_pow2_low by lia.
  rewrite Nat.lxor_assoc, Nat.lxor_nilpotent, Nat.lxor_0_r. reflexivity.
Qed.

Lemma shiftr_pow2 (s : nat) : Nat.shiftr (2 ^ S s) 1 = (2 ^ s)%nat.
Proof.
  rewrite Nat.shiftr_div_pow2, pow2_S. change (2 ^ 1)%nat with 2%nat.
  rewrite Nat.mul_comm. apply Nat.div_mul. lia.
Qed.

(** The inner loop of the permutation steps the reversed counter. *)
Lemma rev_step_brev (s : nat) : forall fuel i : nat,
  (s + 2 <= fuel)%nat -> (i < 2 ^ s)%nat ->
  rev_step fuel (brev s i) (2 ^ s) = Some (brev s ((i + 1) mod 2 ^ s)).
Proof.
  induction s as [|s IH]; intros fuel i Hf Hi.
  - destruct fuel as [|[|fuel]]; try lia. reflexivity.
  - destruct fuel as [|fuel]; [lia|].
    pose proof (brev_bound (S s) i) as Hb.
    cbn [rev_step]. replace (brev (S s) i <? 2 ^ S s)%nat with true
      by (symmetry; apply Nat.ltb_lt; exact Hb).
    rewrite shiftr_pow2.
    pose proof (Nat.div_mod_eq i 2) as Hdm.
    pose proof (Nat.mod_upper_bound i 2 ltac:(lia)) as Hm2.
    pose proof (brev_bound s (i / 2)) as Hbh.
    pose proof (pow2_pos s) as Hp.
    rewrite pow2_S in Hi.
    assert (Hh : (i / 2 < 2 ^ s)%nat) by (apply Nat.Div0.div_lt_upper_bound; lia).
    destruct (Nat.eq_dec (i mod 2) 0) as [E|E].
    + (* the top bit of the counter is clear: set it and stop *)
      assert (Ej : brev (S s) i = brev s (i / 2)).
      { change (brev (S s) i) with (brev s (i / 2) + (i mod 2) * 2 ^ s)%nat.
        rewrite E. lia. }
      rewrite Ej, lxor_pow2_low by exact Hbh.
      destruct fuel as [|fuel]; [lia|]. cbn [rev_step].
      replace (brev s (i / 2) + 2 ^ s <? 2 ^ s)%nat with false
        by (symmetry; apply Nat.ltb_ge; lia).
      f_equal. rewrite Nat.mod_small by (rewrite pow2_S; lia).
      replace (i + 1)%nat with (2 * (i / 2) + 1)%nat by lia.
      rewrite brev_odd. reflexivity.
    + (* the top bit is set: clear it and go on below *)
      assert (Ej : brev (S s) i = (brev s (i / 2) + 2 ^ s)%nat).
      { change (brev (S s) i) with (brev s (i / 2) + (i mod 2) * 2 ^ s)%nat.
        replace (i mod 2)%nat with 1%nat by lia. lia. }
      rewrite Ej, lxor_pow2_high by (rewrite pow2_S; lia).
      replace (brev s (i / 2) + 2 ^ s - 2 ^ s)%nat with (brev s (i / 2)) by lia.
      rewrite IH by (try assumption; lia).
      f_equal. replace (i + 1)%nat with (2 * (i / 2 + 1))%nat by lia.
      rewrite pow2_S, Nat.Div0.mul_mod_distr_l, brev_even. reflexivity.
Qed.

(** ** The permutation loop *)

Lemma bitrev_loop_spec (s fuel : nat) (v0 : list Z) :
  (s + 2 <= fuel)%nat -> length v0 = (2 ^ s)%nat ->
  forall (count i : nat) (v : list Z),
    (i + count = 2 ^ s)%nat -> length v = (2 ^ s)%nat ->
    (forall q, (q < 2 ^ s)%nat ->
       vget v q = if (Nat.max q (brev s q) <? i)%nat
                  then vget v0 (brev s q) else vget v0 q) ->
    exists v', bitrev_loop fuel count i (brev s (i mod 2 ^ s)) (2 ^ s) v = Some v'
               /\ length v' = (2 ^ s)%nat
               /\ forall q, (q < 2 ^ s)%nat -> vget v' q = vget v0 (brev s q).
Proof.
  intros Hf Hl0. induction count as [|count IH]; intros i v Hi Hl Hv.
  - exists v. split; [reflexivity|]. split; [exact Hl|].
    intros q Hq. rewrite (Hv q Hq).
    pose proof (brev_bound s q).
    replace (Nat.max q (brev s q) <? i)%nat with true
      by (symmetry; apply Nat.ltb_lt; lia).
    reflexivity.
  - assert (Hin : (i < 2 ^ s)%nat) by lia.
    rewrite (Nat.mod_small i) by exact Hin.
    cbn [bitrev_loop].
    rewrite rev_step_brev by assumption.
    pose proof (brev_bound s i) as Hj.
    pose proof (brev_involutive s i Hin) as Hji.
    set (j := brev s i) in *.
    replace (i + 1)%nat with (S i) by lia.
    apply IH; [lia| |].
    + destruct (j <? i)%nat; [rewrite length_vswap|]; exact Hl.
    + intros q Hq. pose proof (brev_bound s q) as Hbq.
      pose proof (brev_involutive s q Hq) as Hqq.
      destruct (Nat.ltb_spec j i) as [Lt|Ge].
      * rewrite vget_vswap by lia.
        destruct (Nat.eqb_spec q j) as [->|Nj].
        -- rewrite Hji. rewrite (Hv i Hin). fold j.
           replace (Nat.max i j <? i)%nat with false
             by (symmetry; apply Nat.ltb_ge; lia).
           replace (Nat.max j i <? S i)%nat with true
             by (symmetry; apply Nat.ltb_lt; lia).
           reflexivity.
        -- destruct (Nat.eqb_spec q i) as [->|Ni].
           ++ fold j. rewrite (Hv j Hj), Hji.
              replace (Nat.max j i <? i)%nat with false
                by (symmetry; apply Nat.ltb_ge; lia).
              replace (Nat.max i j <? S i)%nat with true
                by (symmetry; apply Nat.ltb_lt; lia).
              reflexivity.
           ++ rewrite (Hv q Hq).
              assert (brev s q <> i).
              { intros E. apply Nj. rewrite <- Hqq, E. reflexivity. }
              destruct (Nat.ltb_spec (Nat.max q (brev s q)) i);
                destruct (Nat.ltb_spec (Nat.max q (brev s q)) (S i));
                try reflexivity; lia.
      * rewrite (Hv q Hq).
        destruct (Nat.ltb_spec (Nat.max q (brev s q)) i);
          destruct (Nat.ltb_spec (Nat.max q (brev s q)) (S i));
          try reflexivity; try lia.
        assert (q = i /\ brev s q = i) as [E1 E2].
        { destruct (Nat.eq_dec q i) as [->|Ni].
          - fold j in Hbq |- *. fold j in H0, H. lia.
          - assert (E : brev s q = i) by lia.
            assert (q = j) by (rewrite <- Hqq, E; reflexivity). lia. }
        rewrite E2, E1. reflexivity.
Qed.

(** * The transform: one pass of the butterfly loops *)

Lemma add_mod_cong (a z : Z) : cong (add_mod a z) (a + z).
Proof.
  unfold add_mod. destruct (a + z <? mod_); [reflexivity|].
  replace (a + z - mod_) with (a + z + -1 * mod_) by ring. apply cong_multiple.
Qed.

Lemma sub_mod_cong (a z : Z) : cong (sub_mod a z) (a - z).
Proof.
  unfold sub_mod. destruct (a <? z); [|reflexivity].
  replace (a + mod_ - z) with (a - z + 1 * mod_) by ring. apply cong_multiple.
Qed.

Lemma add_mod_below (B a z : Z) :
  mod_ <= B -> 0 <= a < B -> 0 <= z < mod_ -> 0 <= add_mod a z < B.
Proof.
  intros HB Ha Hz. unfold add_mod. destruct (Z.ltb_spec (a + z) mod_); lia.
Qed.

Lemma sub_mod_below (B a z : Z) :
  mod_ <= B -> 0 <= a < B -> 0 <= z < mod_ -> 0 <= sub_mod a z < B.
Proof.
  intros HB Ha Hz. unfold sub_mod. destruct (Z.ltb_spec a z); lia.
Qed.

(** The butterfly on the pair [(j + k, i + j + k)]. *)
Lemma butterfly_spec (w v : list Z) (i I j k : nat) :
  (1 <= i)%nat -> (i + j + k < length v)%nat ->
  0 <= vget v (j + k) < 2 ^ 32 -> 0 <= vget v (i + j + k) < 2 ^ 32 ->
  0 <= vget w (I * k) < mod_ ->
  length (butterfly w v i I j k) = length v
  /\ forall q : nat,
       vget (butterfly w v i I j k) q
       = if (q =? j + k)%nat
         then add_mod (vget v (j + k))
                      ((vget v (i + j + k) * vget w (I * k)) mod mod_)
         else if (q =? i + j + k)%nat
              then sub_mod (vget v (j + k))
                           ((vget v (i + j + k) * vget w (I * k)) mod mod_)
              else vget v q.
Proof.
  pose proof mod_range as Hp.
  intros Hi Hlen Ha Hb Hw. unfold butterfly.
  set (a := vget v (j + k)) in *. set (b := vget v (i + j + k)) in *.
  set (t := vget w (I * k)) in *.
  rewrite (wrap64_id (b * t)) by nia.
  pose proof (mod_field (b * t)) as Hz. set (z := (b * t) mod mod_) in *.
  set (v1 := if a <? z
             then vset v (i + j + k) (wrap32 (wrap64 (a + mod_ - z)))
             else vset v (i + j + k) (wrap32 (wrap64 (a - z)))).
  assert (E1 : v1 = vset v (i + j + k) (sub_mod a z)).
  { unfold v1, sub_mod. destruct (Z.ltb_spec a z) as [L|L].
    - rewrite wrap64_id, wrap32_id by lia. reflexivity.
    - rewrite wrap64_id, wrap32_id by lia. reflexivity. }
  assert (Ea : vget v1 (j + k) = a).
  { rewrite E1. rewrite vget_vset_neq by lia. reflexivity. }
  rewrite Ea. rewrite (wrap64_id (a + z)) by lia.
  assert (E2 : (if a + z <? mod_
                then vset v1 (j + k) (wrap32 (a + z))
                else vset v1 (j + k) (wrap32 (wrap64 (a + z - mod_))))
               = vset v1 (j + k) (add_mod a z)).
  { unfold add_mod. destruct (Z.ltb_spec (a + z) mod_) as [L|L].
    - rewrite wrap32_id by lia. reflexivity.
    - rewrite wrap64_id, wrap32_id by lia. reflexivity. }
  rewrite E2, E1. split; [rewrite !length_vset; reflexivity|].
  intros q. rewrite vget_vset by (rewrite length_vset; lia).
  destruct (q =? j + k)%nat; [reflexivity|].
  rewrite vget_vset by lia. reflexivity.
Qed.

(** The innermost loop on the block at [j]: the pairs [k .. k + c). *)
Lemma k_loop_spec (B : Z) (w : list Z) (i I j : nat) :
  mod_ <= B <= 2 ^ 32 ->
  forall (c k : nat) (v : list Z),
  (1 <= i)%nat -> (k + c <= i)%nat -> (j + 2 * i <= length v)%nat ->
  below B v ->
  (forall kk, (kk < i)%nat -> 0 <= vget w (I * kk) < mod_) ->
  length (k_loop c w i I j k v) = length v
  /\ below B (k_loop c w i I j k v)
  /\ (forall kk, (k <= kk < k + c)%nat ->
        vget (k_loop c w i I j k v) (j + kk)
        = add_mod (vget v (j + kk))
                  ((vget v (j + kk + i) * vget w (I * kk)) mod mod_)
        /\ vget (k_loop c w i I j k v) (j + kk + i)
           = sub_mod (vget v (j + kk))
                     ((vget v (j + kk + i) * vget w (I * kk)) mod mod_))
  /\ (forall q, (q < j + k \/ j + k + c <= q < j + i + k \/ j + i + k + c <= q)%nat ->
        vget (k_loop c w i I j k v) q = vget v q).
Proof.
  intros HB.
  induction c as [|c IH]; intros k v Hi Hk Hlen Hv Hw; cbn [k_loop].
  - split; [reflexivity|]. split; [exact Hv|]. split; [intros; lia|reflexivity].
  - pose proof (below_vget B v (j + k) Hv ltac:(lia)) as Ra.
    pose proof (below_vget B v (i + j + k) Hv ltac:(lia)) as Rb.
    destruct (butterfly_spec w v i I j k Hi ltac:(lia) ltac:(lia) ltac:(lia))
      as [B1 B2].
    { apply Hw. lia. }
    set (v1 := butterfly w v i I j k) in *.
    assert (Hv1 : below B v1).
    { apply below_of_vget. intros q Hq. rewrite B2.
      destruct (q =? j + k)%nat;
        [apply add_mod_below; [lia|exact Ra|apply mod_field]|].
      destruct (q =? i + j + k)%nat;
        [apply sub_mod_below; [lia|exact Ra|apply mod_field]|].
      apply below_vget; [exact Hv|lia]. }
    destruct (IH (S k) v1 Hi ltac:(lia) ltac:(lia) Hv1 Hw) as (L1 & L2 & L3 & L4).
    split; [lia|]. split; [exact L2|]. split.
    + intros kk Hkk. destruct (Nat.eq_dec kk k) as [->|Hne].
      * rewrite !L4 by lia. rewrite !B2.
        rewrite Nat.eqb_refl.
        replace (j + k + i =? j + k)%nat with false
          by (symmetry; apply Nat.eqb_neq; lia).
        replace (j + k + i =? i + j + k)%nat with true
          by (symmetry; apply Nat.eqb_eq; lia).
        replace (i + j + k)%nat with (j + k + i)%nat by lia. split; reflexivity.
      * destruct (L3 kk ltac:(lia)) as [M1 M2]. rewrite M1, M2. rewrite !B2.
        replace (j + kk =? j + k)%nat with false
          by (symmetry; apply Nat.eqb_neq; lia).
        replace (j + kk =? i + j + k)%nat with false
          by (symmetry; apply Nat.eqb_neq; lia).
        replace (j + kk + i =? j + k)%nat with false
          by (symmetry; apply Nat.eqb_neq; lia).
        replace (j + kk + i =? i + j + k)%nat with false
          by (symmetry; apply Nat.eqb_neq; lia).
        split; reflexivity.
    + intros q Hq. rewrite L4 by lia. rewrite B2.
      replace (q =? j + k)%nat with false by (symmetry; apply Nat.eqb_neq; lia).
      replace (q =? i + j + k)%nat with false by (symmetry; apply Nat.eqb_neq; lia).
      reflexivity.
Qed.

Lemma block_mod (i b r : nat) :
  (r < 2 * i)%nat -> ((2 * i * b + r) mod (2 * i) = r)%nat.
Proof.
  intros H. rewrite Nat.add_comm, Nat.mul_comm, Nat.Div0.mod_add.
  apply Nat.mod_small. exact H.
Qed.

(** The innermost loop run on a whole block is [stage_at] on the block. *)
Lemma k_loop_block (B : Z) (w : list Z) (i I b : nat) (v : list Z) :
  mod_ <= B <= 2 ^ 32 ->
  (1 <= i)%nat -> (2 * i * b + 2 * i <= length v)%nat -> below B v ->
  (forall kk, (kk < i)%nat -> 0 <= vget w (I * kk) < mod_) ->
  length (k_loop i w i I (2 * i * b) 0 v) = length v
  /\ below B (k_loop i w i I (2 * i * b) 0 v)
  /\ (forall q, (2 * i * b <= q < 2 * i * b + 2 * i)%nat ->
        vget (k_loop i w i I (2 * i * b) 0 v) q = stage_at w i I v q)
  /\ (forall q, (q < 2 * i * b \/ 2 * i * b + 2 * i <= q)%nat ->
        vget (k_loop i w i I (2 * i * b) 0 v) q = vget v q).
Proof.
  intros HB Hi Hlen Hv Hw.
  destruct (k_loop_spec B w i I (2 * i * b) HB i 0 v Hi ltac:(lia) Hlen Hv Hw)
    as (L1 & L2 & L3 & L4).
  split; [exact L1|]. split; [exact L2|]. split.
  - intros q Hq. unfold stage_at.
    assert (Hr : exists r, q = (2 * i * b + r)%nat /\ (r < 2 * i)%nat).
    { exists (q - 2 * i * b)%nat. lia. }
    destruct Hr as (r & -> & Hr).
    rewrite block_mod by exact Hr.
    destruct (Nat.ltb_spec r i) as [Lt|Ge].
    + destruct (L3 r ltac:(lia)) as [M1 _]. exact M1.
    + destruct (L3 (r - i)%nat ltac:(lia)) as [_ M2].
      replace (2 * i * b + (r - i) + i)%nat with (2 * i * b + r)%nat in M2 by lia.
      replace (2 * i * b + (r - i))%nat with (2 * i * b + r - i)%nat in M2 by lia.
      exact M2.
  - intros q Hq. apply L4. lia.
Qed.

Lemma stage_at_local (w : list Z) (i I b : nat) (v v' : list Z) (q : nat) :
  (1 <= i)%nat -> (2 * i * b <= q < 2 * i * b + 2 * i)%nat ->
  (forall q', (2 * i * b <= q' < 2 * i * b + 2 * i)%nat -> vget v' q' = vget v q') ->
  stage_at w i I v' q = stage_at w i I v q.
Proof.
  intros Hi Hq H. unfold stage_at.
  assert (Hr : exists r, q = (2 * i * b + r)%nat /\ (r < 2 * i)%nat).
  { exists (q - 2 * i * b)%nat. lia. }
  destruct Hr as (r & -> & Hr).
  rewrite block_mod by exact Hr. destruct (Nat.ltb_spec r i) as [Lt|Ge].
  - rewrite (H (2 * i * b + r)%nat), (H (2 * i * b + r + i)%nat) by lia.
    reflexivity.
  - rewrite (H (2 * i * b + r)%nat), (H (2 * i * b + r - i)%nat) by lia.
    reflexivity.
Qed.

(** The loop over the blocks. *)
Lemma j_loop_spec (B : Z) (w : list Z) (i I : nat) :
  mod_ <= B <= 2 ^ 32 ->
  forall (m fuel b : nat) (v : list Z),
  (1 <= i)%nat -> (m < fuel)%nat -> length v = (2 * i * (b + m))%nat ->
  below B v ->
  (forall kk, (kk < i)%nat -> 0 <= vget w (I * kk) < mod_) ->
  exists v', j_loop fuel w i I (2 * i * b) (2 * i * (b + m)) v = Some v'
             /\ length v' = length v /\ below B v'
             /\ (forall q, (q < 2 * i * b)%nat -> vget v' q = vget v q)
             /\ (forall q, (2 * i * b <= q < length v)%nat ->
                   vget v' q = stage_at w i I v q).
Proof.
  intros HB.
  induction m as [|m IH]; intros fuel b v Hi Hf Hlen Hv Hw.
  - destruct fuel as [|fuel]; [lia|]. cbn [j_loop].
    rewrite Nat.add_0_r, Nat.eqb_refl. exists v.
    split; [reflexivity|]. split; [reflexivity|]. split; [exact Hv|].
    split; [reflexivity|]. intros q Hq. rewrite Nat.add_0_r in Hlen. lia.
  - destruct fuel as [|fuel]; [lia|]. cbn [j_loop].
    replace (2 * i * b =? 2 * i * (b + S m))%nat with false
      by (symmetry; apply Nat.eqb_neq; nia).
    destruct (k_loop_block B w i I b v HB Hi ltac:(nia) Hv Hw)
      as (K1 & K2 & K3 & K4).
    set (v1 := k_loop i w i I (2 * i * b) 0 v) in *.
    replace (2 * i * b + Nat.shiftl i 1)%nat with (2 * i * S b)%nat
      by (rewrite Nat.shiftl_mul_pow2; change (2 ^ 1)%nat with 2%nat; lia).
    replace (b + S m)%nat with (S b + m)%nat by lia.
    destruct (IH fuel (S b) v1 Hi ltac:(lia) ltac:(rewrite K1, Hlen; f_equal; lia)
                K2 Hw) as (v' & J1 & J2 & J3 & J4 & J5).
    exists v'. split; [exact J1|]. split; [lia|]. split; [exact J3|]. split.
    + intros q Hq. rewrite J4 by lia. apply K4. lia.
    + intros q Hq. destruct (Nat.lt_ge_cases q (2 * i * S b)) as [Lt|Ge].
      * rewrite J4 by exact Lt. apply K3. lia.
      * rewrite J5 by lia.
        set (c := (q / (2 * i))%nat).
        pose proof (Nat.div_mod_eq q (2 * i)) as Hdm.
        pose proof (Nat.mod_upper_bound q (2 * i) ltac:(lia)) as Hmb.
        fold c in Hdm.
        assert (Hc : (S b <= c)%nat) by nia.
        apply (stage_at_local w i I c); [exact Hi|lia|].
        intros q' Hq'. apply K4. nia.
Qed.

(** One pass over a vector of [2 i m] entries. *)
Lemma stage_pass (B : Z) (w : list Z) (i I m fuel : nat) (v : list Z) :
  mod_ <= B <= 2 ^ 32 ->
  (1 <= i)%nat -> (m < fuel)%nat -> length v = (2 * i * m)%nat ->
  below B v ->
  (forall kk, (kk < i)%nat -> 0 <= vget w (I * kk) < mod_) ->
  exists v', j_loop fuel w i I 0 (length v) v = Some v'
             /\ length v' = length v /\ below B v'
             /\ (forall q, (q < length v)%nat -> vget v' q = stage_at w i I v q).
Proof.
  intros HB Hi Hf Hlen Hv Hw.
  destruct (j_loop_spec B w i I HB m fuel 0 v Hi Hf Hlen Hv Hw)
    as (v' & J1 & J2 & J3 & _ & J5).
  rewrite Nat.mul_0_r in J1, J5. cbn [Nat.add] in J1. rewrite <- Hlen in J1.
  exists v'. split; [exact J1|]. split; [exact J2|]. split; [exact J3|].
  intros q Hq. apply J5. lia.
Qed.

(** * The transform: the butterfly passes compute the Fourier sums *)

Lemma stage_root_sq (zeta : Z) (s t e : nat) :
  (t < s)%nat ->
  zpow (stage_root zeta s (S t)) (2 * e) = zpow (stage_root zeta s t) e.
Proof.
  intros H. unfold stage_root. rewrite <- !zpow_mul. f_equal.
  replace (s - t)%nat with (S (s - S t)) by lia. rewrite pow2_S. lia.
Qed.

Lemma stage_root_half (zeta : Z) (s t k : nat) :
  (t < s)%nat -> cong (zpow zeta (2 ^ (s - 1))) (-1) ->
  cong (zpow (stage_root zeta s (S t)) (2 ^ t + k))
       (- zpow (stage_root zeta s (S t)) k).
Proof.
  intros H Hz. rewrite zpow_add.
  replace (- zpow (stage_root zeta s (S t)) k)
    with (-1 * zpow (stage_root zeta s (S t)) k) by ring.
  apply cong_mul; [|reflexivity].
  unfold stage_root. rewrite <- zpow_mul, <- Nat.pow_add_r.
  replace (s - S t + t)%nat with (s - 1)%nat by lia. exact Hz.
Qed.

Lemma stage_root_period (zeta : Z) (s t e m : nat) :
  (t <= s)%nat -> cong (zpow zeta (2 ^ s)) 1 ->
  cong (zpow (stage_root zeta s t) ((2 ^ t + e) * m))
       (zpow (stage_root zeta s t) (e * m)).
Proof.
  intros H Hz. unfold stage_root. rewrite <- !zpow_mul.
  replace (2 ^ (s - t) * ((2 ^ t + e) * m))%nat
    with (2 ^ (s - t) * (e * m) + 2 ^ s * m)%nat.
  - apply zpow_order. exact Hz.
  - replace (2 ^ s)%nat with (2 ^ (s - t) * 2 ^ t)%nat
      by (rewrite <- Nat.pow_add_r; f_equal; lia).
    lia.
Qed.

Lemma block_dft_0 (zeta : Z) (s : nat) (x : nat -> Z) (b k : nat) :
  block_dft zeta s 0 x b k = x b.
Proof.
  unfold block_dft. cbn [Nat.pow zsum brev].
  rewrite Nat.mul_1_r, Nat.add_0_r, Nat.mul_0_r, zpow_0. ring.
Qed.

(** A block of [2^(t+1)] entries from its two halves. *)
Lemma block_dft_split (zeta : Z) (s t : nat) (x : nat -> Z) (b k : nat) :
  (t < s)%nat ->
  block_dft zeta s (S t) x b k
  = block_dft zeta s t x (2 * b) k
    + zpow (stage_root zeta s (S t)) k * block_dft zeta s t x (2 * b + 1) k.
Proof.
  intros H. unfold block_dft. rewrite pow2_S, zsum_even_odd. f_equal.
  - apply zsum_ext. intros m _. rewrite brev_even.
    replace (k * (2 * m))%nat with (2 * (k * m))%nat by lia.
    rewrite stage_root_sq by exact H. do 2 f_equal. lia.
  - rewrite <- zsum_scale. apply zsum_ext. intros m _. rewrite brev_odd.
    replace (k * (2 * m + 1))%nat with (k + 2 * (k * m))%nat by lia.
    rewrite zpow_add, stage_root_sq by exact H.
    replace (b * (2 * 2 ^ t) + (brev t m + 2 ^ t))%nat
      with ((2 * b + 1) * 2 ^ t + brev t m)%nat by lia.
    ring.
Qed.

Lemma block_dft_period (zeta : Z) (s t : nat) (x : nat -> Z) (b k : nat) :
  (t <= s)%nat -> cong (zpow zeta (2 ^ s)) 1 ->
  cong (block_dft zeta s t x b (2 ^ t + k)) (block_dft zeta s t x b k).
Proof.
  intros H Hz. unfold block_dft. apply zsum_cong. intros m _.
  apply cong_mul; [reflexivity|]. apply stage_root_period; assumption.
Qed.

Lemma pow2_split (s t : nat) : (t <= s)%nat -> (2 ^ s = 2 ^ (s - t) * 2 ^ t)%nat.
Proof. intros H. rewrite <- Nat.pow_add_r. f_equal. lia. Qed.

(** One pass takes the invariant from [t] to [t + 1]. *)
Lemma stage_step (B zeta : Z) (s t : nat) (x : nat -> Z) (w v v' : list Z) :
  (t < s)%nat -> cong (zpow zeta (2 ^ (s - 1))) (-1) ->
  is_table zeta w -> length w = (2 ^ s)%nat ->
  stage_inv B zeta s t x v ->
  length v' = length v -> below B v' ->
  (forall q, (q < length v)%nat ->
     vget v' q = stage_at w (2 ^ t) (2 ^ (s - S t)) v q) ->
  stage_inv B zeta s (S t) x v'.
Proof.
  intros Ht Hz Hw Hlw (Hl & Hf & Hinv) Hl' Hf' Hv'.
  assert (Ho : cong (zpow zeta (2 ^ s)) 1) by (apply root_order; [lia|exact Hz]).
  split; [lia|]. split; [exact Hf'|].
  intros b k Hb Hk. rewrite pow2_S in Hk.
  pose proof (pow2_pos t) as Pt. pose proof (pow2_pos (s - S t)) as Pst.
  assert (Hs1 : (2 ^ s = 2 * 2 ^ t * 2 ^ (s - S t))%nat).
  { rewrite (pow2_split s (S t)) by lia. rewrite pow2_S. lia. }
  assert (Hs2 : (2 ^ (s - t) = 2 * 2 ^ (s - S t))%nat).
  { replace (s - t)%nat with (S (s - S t)) by lia. apply pow2_S. }
  assert (Hq : (2 * 2 ^ t * b + k < length v)%nat) by (rewrite Hl, Hs1; nia).
  rewrite pow2_S.
  replace (b * (2 * 2 ^ t) + k)%nat with (2 * 2 ^ t * b + k)%nat by lia.
  rewrite (Hv' _ Hq). unfold stage_at. rewrite block_mod by exact Hk.
  rewrite block_dft_split by exact Ht.
  destruct (Nat.ltb_spec k (2 ^ t)) as [Lt|Ge].
  - rewrite add_mod_cong, cong_mod. apply cong_add.
    + replace (2 * 2 ^ t * b + k)%nat with (2 * b * 2 ^ t + k)%nat by lia.
      apply Hinv; lia.
    + rewrite Z.mul_comm. apply cong_mul.
      * destruct (Hw (2 ^ (s - S t) * k)%nat) as [_ C]; [rewrite Hlw, Hs1; nia|].
        rewrite C. unfold stage_root. rewrite zpow_mul. reflexivity.
      * replace (2 * 2 ^ t * b + k + 2 ^ t)%nat
          with ((2 * b + 1) * 2 ^ t + k)%nat by lia.
        apply Hinv; lia.
  - assert (Hk0 : exists k0, k = (2 ^ t + k0)%nat /\ (k0 < 2 ^ t)%nat).
    { exists (k - 2 ^ t)%nat. lia. }
    destruct Hk0 as (k0 & -> & Hk0).
    rewrite sub_mod_cong, cong_mod.
    replace (2 ^ t + k0 - 2 ^ t)%nat with k0 by lia.
    rewrite (block_dft_period zeta s t x (2 * b) k0) by (try assumption; lia).
    rewrite (block_dft_period zeta s t x (2 * b + 1) k0) by (try assumption; lia).
    rewrite (stage_root_half zeta s t k0 Ht Hz).
    replace (block_dft zeta s t x (2 * b) k0
             + - zpow (stage_root zeta s (S t)) k0
               * block_dft zeta s t x (2 * b + 1) k0)
      with (block_dft zeta s t x (2 * b) k0
            - block_dft zeta s t x (2 * b + 1) k0
              * zpow (stage_root zeta s (S t)) k0) by ring.
    apply cong_sub.
    + replace (2 * 2 ^ t * b + (2 ^ t + k0) - 2 ^ t)%nat
        with (2 * b * 2 ^ t + k0)%nat by lia.
      apply Hinv; lia.
    + apply cong_mul.
      * replace (2 * 2 ^ t * b + (2 ^ t + k0))%nat
          with ((2 * b + 1) * 2 ^ t + k0)%nat by lia.
        apply Hinv; lia.
      * destruct (Hw (2 ^ (s - S t) * k0)%nat) as [_ C]; [rewrite Hlw, Hs1; nia|].
        rewrite C. unfold stage_root. rewrite zpow_mul. reflexivity.
Qed.

(** ** The loop over the passes *)

Lemma stride_pos (s t : nat) : (t < s)%nat -> (2 ^ s / 2 ^ S t = 2 ^ (s - S t))%nat.
Proof.
  intros H. rewrite (pow2_split s (S t)) by lia.
  apply Nat.div_mul. apply Nat.pow_nonzero. lia.
Qed.

Lemma stage_loop_spec (B zeta : Z) (s bound : nat) (x : nat -> Z) (w : list Z) :
  mod_ <= B <= 2 ^ 32 ->
  cong (zpow zeta (2 ^ (s - 1))) (-1) ->
  is_table zeta w -> length w = (2 ^ s)%nat -> (2 ^ s <= bound)%nat ->
  forall (d t fuel : nat) (v : list Z),
    (t + d = s)%nat -> (d < fuel)%nat -> stage_inv B zeta s t x v ->
    exists v', stage_loop bound fuel w (2 ^ t) (2 ^ s / 2 ^ S t) (2 ^ s) v = Some v'
               /\ stage_inv B zeta s s x v'.
Proof.
  intros HB Hz Hw Hlw Hbound. induction d as [|d IH]; intros t fuel v Htd Hf Hinv.
  - destruct fuel as [|fuel]; [lia|]. cbn [stage_loop].
    assert (t = s) by lia. subst t.
    rewrite Nat.div_small by (rewrite pow2_S; pose proof (pow2_pos s); lia).
    cbn [Nat.eqb]. exists v. split; [reflexivity|exact Hinv].
  - destruct fuel as [|fuel]; [lia|]. cbn [stage_loop].
    assert (Ht : (t < s)%nat) by lia.
    rewrite (stride_pos s t Ht).
    pose proof (pow2_pos (s - S t)) as Pst. pose proof (pow2_pos t) as Pt.
    replace (2 ^ (s - S t) =? 0)%nat with false
      by (symmetry; apply Nat.eqb_neq; lia).
    destruct Hinv as (Hl & Hfld & Hinv).
    assert (Hs1 : (2 ^ s = 2 * 2 ^ t * 2 ^ (s - S t))%nat).
    { rewrite (pow2_split s (S t)) by lia. rewrite pow2_S. lia. }
    assert (Hm : (2 ^ (s - S t) < bound)%nat) by nia.
    assert (Hrange : forall kk, (kk < 2 ^ t)%nat ->
                       0 <= vget w (2 ^ (s - S t) * kk) < mod_).
    { intros kk Hkk. apply Hw. rewrite Hlw, Hs1. nia. }
    destruct (stage_pass B w (2 ^ t) (2 ^ (s - S t)) (2 ^ (s - S t)) bound v
                HB ltac:(lia) Hm ltac:(lia) Hfld Hrange)
      as (v1 & J1 & J2 & J3 & J4).
    rewrite Hl in J1. rewrite J1.
    assert (Hinv1 : stage_inv B zeta s (S t) x v1).
    { apply (stage_step B zeta s t x w v v1); try assumption.
      split; [exact Hl|]. split; assumption. }
    replace (Nat.shiftl (2 ^ t) 1) with (2 ^ S t)%nat
      by (rewrite Nat.shiftl_mul_pow2, pow2_S; change (2 ^ 1)%nat with 2%nat; lia).
    replace (Nat.shiftr (2 ^ (s - S t)) 1) with (2 ^ s / 2 ^ S (S t))%nat.
    + apply IH; [lia|lia|exact Hinv1].
    + rewrite Nat.shiftr_div_pow2. change (2 ^ 1)%nat with 2%nat.
      rewrite <- (stride_pos s t Ht), Nat.Div0.div_div.
      f_equal. rewrite (pow2_S (S t)). lia.
Qed.

(** * The transform as a whole *)

Lemma brev_0 (s : nat) : brev s 0 = 0%nat.
Proof.
  induction s as [|s IH]; [reflexivity|].
  change (brev (S s) 0) with (brev s (0 / 2) + (0 mod 2) * 2 ^ s)%nat.
  change (0 / 2)%nat with 0%nat. change (0 mod 2)%nat with 0%nat.
  rewrite IH. reflexivity.
Qed.

Lemma pow2_gt (s : nat) : (s < 2 ^ s)%nat.
Proof. apply Nat.pow_gt_lin_r. lia. Qed.

(** The permutation and the butterfly passes: on [2^s] entries below [B]
    and a table of the powers of [zeta], with [zeta^(2^(s-1)) = -1], the
    result holds the Fourier sums at [zeta] up to congruence. *)
Lemma ntt_core (B zeta : Z) (s fuel : nat) (w v : list Z) :
  mod_ <= B <= 2 ^ 32 -> (1 <= s)%nat ->
  cong (zpow zeta (2 ^ (s - 1))) (-1) ->
  is_table zeta w -> length w = (2 ^ s)%nat ->
  length v = (2 ^ s)%nat -> below B v ->
  (2 ^ s + 2 <= fuel)%nat ->
  exists v1 v2,
    bitrev_loop fuel (2 ^ s) 0 0 (2 ^ s) v = Some v1
    /\ stage_loop fuel fuel w 1 (Nat.shiftr (2 ^ s) 1) (2 ^ s) v1 = Some v2
    /\ length v2 = (2 ^ s)%nat /\ below B v2
    /\ forall k, (k < 2 ^ s)%nat ->
         cong (vget v2 k)
              (zsum (2 ^ s) (fun m => vget v m * zpow zeta (k * m))).
Proof.
  intros HB Hs Hz Hw Hlw Hl Hv Hf.
  pose proof (pow2_gt s) as Hlin.
  destruct (bitrev_loop_spec s fuel v ltac:(lia) Hl (2 ^ s)%nat 0%nat v
              ltac:(lia) Hl) as (v1 & R1 & R2 & R3).
  { intros q Hq. reflexivity. }
  rewrite Nat.Div0.mod_0_l, brev_0 in R1.
  assert (Hv1 : below B v1).
  { apply below_of_vget. rewrite R2. intros q Hq. rewrite (R3 q Hq).
    apply below_vget; [exact Hv|]. rewrite Hl. apply brev_bound. }
  assert (Hinv0 : stage_inv B zeta s 0 (vget v1) v1).
  { split; [exact R2|]. split; [exact Hv1|].
    intros b k Hb Hk. change (2 ^ 0)%nat with 1%nat in *.
    replace k with 0%nat by lia.
    rewrite block_dft_0, Nat.mul_1_r, Nat.add_0_r. reflexivity. }
  destruct (stage_loop_spec B zeta s fuel (vget v1) w HB Hz Hw Hlw ltac:(lia)
              s 0%nat fuel v1 ltac:(lia) ltac:(lia) Hinv0)
    as (v2 & S1 & S2 & S3 & S4).
  exists v1, v2. split; [exact R1|]. split.
  { rewrite Nat.shiftr_div_pow2. exact S1. }
  split; [exact S2|]. split; [exact S3|].
  intros k Hk. specialize (S4 0%nat k).
  rewrite Nat.sub_diag in S4. specialize (S4 ltac:(cbn; lia) Hk).
  cbn [Nat.mul Nat.add] in S4. rewrite S4. unfold block_dft.
  apply zsum_cong. intros m Hm. cbn [Nat.mul Nat.add].
  unfold stage_root. rewrite Nat.sub_diag. change (2 ^ 0)%nat with 1%nat.
  rewrite zpow_1, (R3 _ (brev_bound s m)), brev_involutive by exact Hm.
  reflexivity.
Qed.

(** ** The root of unity and the scaling factor *)

Lemma half_order_val : half_order = 1610612736.
Proof. reflexivity. Qed.

Lemma root_half_checked : modpow_loop 32 1 root half_order = Some (mod_ - 1).
Proof. vm_compute. reflexivity. Qed.

Opaque half_order.

Lemma power_read (X : Z) :
  Some (mod_ - 1) = Some ((1 * X) mod mod_) -> cong X (-1).
Proof.
  intros E0.
  assert (E : mod_ - 1 = (1 * X) mod mod_) by congruence.
  rewrite Z.mul_1_l in E. apply cong_def. rewrite <- E.
  pose proof mod_range. apply (Z.mod_unique (-1) mod_ (-1)); lia.
Qed.

Lemma root_half_run :
  modpow_loop 32 1 root half_order = Some ((1 * root ^ half_order) mod mod_).
Proof.
  pose proof mod_range as Hp. apply modpow_loop_spec.
  - lia.
  - lia.
  - unfold root. lia.
  - rewrite half_order_val. change (2 ^ Z.of_nat 32) with 4294967296. lia.
Qed.

Lemma root_half : cong (root ^ half_order) (-1).
Proof.
  exact (power_read (root ^ half_order)
           (eq_trans (eq_sym root_half_checked) root_half_run)).
Qed.

Lemma shift_range (s : nat) : 0 <= Z.shiftr mod_ (Z.of_nat s) < 2 ^ 32.
Proof.
  pose proof mod_range as Hp. rewrite Z.shiftr_div_pow2 by lia.
  assert (0 < 2 ^ Z.of_nat s) by (apply Z.pow_pos_nonneg; lia).
  split; [apply Z.div_pos; lia|].
  apply Z.le_lt_trans with mod_; [|lia].
  apply Z.div_le_upper_bound; nia.
Qed.

Lemma shift_checked :
  forallb (fun s => Z.shiftr mod_ (Z.of_nat s) * 2 ^ (Z.of_nat s - 1) =? half_order)
          (seq 1 30) = true.
Proof. vm_compute. reflexivity. Qed.

Lemma shift_half (s : nat) :
  (1 <= s <= 30)%nat ->
  Z.shiftr mod_ (Z.of_nat s) * Z.of_nat (2 ^ (s - 1)) = half_order.
Proof.
  intros H. pose proof shift_checked as C. rewrite forallb_forall in C.
  specialize (C s). rewrite in_seq in C. specialize (C ltac:(lia)).
  apply Z.eqb_eq in C. rewrite <- C. f_equal.
  rewrite Nat2Z.inj_pow. f_equal. lia.
Qed.

Lemma modpow_run (s fuel : nat) :
  (32 <= fuel)%nat ->
  modpow_ fuel root (Z.shiftr mod_ (Z.of_nat s))
  = Some ((1 * root ^ Z.shiftr mod_ (Z.of_nat s)) mod mod_).
Proof.
  intros Hf. pose proof mod_range as Hp. pose proof (shift_range s) as He.
  unfold modpow_. apply modpow_loop_spec.
  - lia.
  - lia.
  - unfold root. lia.
  - split; [lia|]. apply Z.lt_le_trans with (2 ^ 32); [lia|].
    apply Z.pow_le_mono_r; lia.
Qed.

Lemma unit_root_val (s : nat) :
  unit_root s = (1 * root ^ Z.shiftr mod_ (Z.of_nat s)) mod mod_.
Proof. unfold unit_root. rewrite (modpow_run s 32) by lia. reflexivity. Qed.

Lemma unit_root_run (s fuel : nat) :
  (32 <= fuel)%nat ->
  modpow_ fuel root (Z.shiftr mod_ (Z.of_nat s)) = Some (unit_root s).
Proof. intros Hf. rewrite unit_root_val. apply modpow_run. exact Hf. Qed.

Lemma unit_root_range (s : nat) : 0 <= unit_root s < mod_.
Proof. rewrite unit_root_val. apply mod_field. Qed.

(** The root computed for [2^s] entries has order [2^s]. *)
Lemma unit_root_half (s : nat) :
  (1 <= s <= 30)%nat -> cong (zpow (unit_root s) (2 ^ (s - 1))) (-1).
Proof.
  intros H. pose proof (shift_range s) as He.
  rewrite (zpow_cong _ (root ^ Z.shiftr mod_ (Z.of_nat s))).
  - unfold zpow. rewrite <- Z.pow_mul_r by lia.
    rewrite (shift_half s H). exact root_half.
  - rewrite unit_root_val, Z.mul_1_l. apply cong_mod.
Qed.

Lemma scale_checked :
  forallb (fun s => match modinv_loop 3 0 1 1 0 (2 ^ Z.of_nat s) mod_
                            (Z.rem (2 ^ Z.of_nat s) mod_)
                            (Z.quot (2 ^ Z.of_nat s) mod_) with
                    | Some x => (0 <=? x + mod_) && (x + mod_ <? mod_)
                                && (((x + mod_) * 2 ^ Z.of_nat s) mod mod_ =? 1)
                    | None => false
                    end)
          (seq 1 30) = true.
Proof. vm_compute. reflexivity. Qed.

Lemma scale_run (s fuel : nat) :
  (1 <= s <= 30)%nat -> (3 <= fuel)%nat ->
  modinv_ fuel (2 ^ Z.of_nat s) mod_ = Some (scale_factor s)
  /\ 0 <= scale_factor s < mod_
  /\ cong (scale_factor s * 2 ^ Z.of_nat s) 1.
Proof.
  intros H Hf. pose proof mod_range as Hp.
  pose proof scale_checked as C. rewrite forallb_forall in C.
  specialize (C s). rewrite in_seq in C. specialize (C ltac:(lia)).
  unfold scale_factor, modinv_.
  destruct (modinv_loop 3 0 1 1 0 (2 ^ Z.of_nat s) mod_
              (Z.rem (2 ^ Z.of_nat s) mod_) (Z.quot (2 ^ Z.of_nat s) mod_))
    as [x|] eqn:E; [|discriminate].
  rewrite (modinv_loop_more_fuel 3 fuel 0 1 1 0 (2 ^ Z.of_nat s) mod_
             (Z.rem (2 ^ Z.of_nat s) mod_) (Z.quot (2 ^ Z.of_nat s) mod_) x E Hf).
  apply andb_prop in C. destruct C as [C C3].
  apply andb_prop in C. destruct C as [C1 C2].
  apply Z.leb_le in C1. apply Z.ltb_lt in C2. apply Z.eqb_eq in C3.
  rewrite wrap64_id by lia.
  split; [reflexivity|]. split; [lia|].
  apply cong_def. rewrite C3. symmetry. apply Z.mod_small. lia.
Qed.

(** * The transform and its inverse *)

Lemma vget_map_seq (f : nat -> Z) (n k : nat) :
  (k < n)%nat -> vget (map f (seq 0 n)) k = f k.
Proof.
  intros H. unfold vget.
  rewrite (nth_indep _ 0 (f 0%nat)) by (rewrite length_map, length_seq; exact H).
  rewrite map_nth, seq_nth by exact H. reflexivity.
Qed.

(** [NTT_(logN, false)]: the Fourier sums at [unit_root logN], up to
    congruence; the entries stay below the bound of the input. *)
Lemma NTT_forward_spec (B : Z) (s fuel : nat) (v : list Z) :
  mod_ <= B <= 2 ^ 32 -> (1 <= s <= 30)%nat ->
  length v = (2 ^ s)%nat -> below B v -> (2 ^ s + 32 <= fuel)%nat ->
  exists V, NTT_ fuel s false v = Some V
            /\ length V = (2 ^ s)%nat /\ below B V
            /\ forall k, (k < 2 ^ s)%nat ->
                 cong (vget V k)
                      (zsum (2 ^ s)
                            (fun m => vget v m * zpow (unit_root s) (k * m))).
Proof.
  intros HB Hs Hl Hv Hf. pose proof mod_range as Hp.
  pose proof (unit_root_range s) as Hg.
  unfold NTT_. rewrite (unit_root_run s fuel) by lia. rewrite Hl.
  destruct (ntt_core B (unit_root s) s fuel (w_init (2 ^ s) (unit_root s)) v
              HB ltac:(lia) (unit_root_half s Hs)
              (w_init_table (2 ^ s) (unit_root s) ltac:(lia))
              (length_w_init (2 ^ s) (unit_root s)) Hl Hv ltac:(lia))
    as (v1 & v2 & E1 & E2 & E3 & E4 & E5).
  cbv beta iota zeta. rewrite E1, E2.
  exists v2. split; [reflexivity|]. split; [exact E3|]. split; [exact E4|exact E5].
Qed.

Lemma inverse_root_half (g : Z) (s : nat) :
  (1 <= s)%nat -> cong (zpow g (2 ^ (s - 1))) (-1) ->
  cong (zpow (zpow g (2 ^ s - 1)) (2 ^ (s - 1))) (-1).
Proof.
  intros Hs Hg. pose proof (pow2_pos (s - 1)) as Hh.
  rewrite <- zpow_mul.
  replace ((2 ^ s - 1) * 2 ^ (s - 1))%nat
    with (2 ^ (s - 1) * (2 * (2 ^ (s - 1) - 1) + 1))%nat.
  - rewrite zpow_mul, <- (zpow_opp1_odd (2 ^ (s - 1) - 1)). apply zpow_cong. exact Hg.
  - replace (2 ^ s)%nat with (2 * 2 ^ (s - 1))%nat
      by (rewrite <- pow2_S; f_equal; lia).
    nia.
Qed.

Lemma vget_map (f : Z -> Z) (v : list Z) : forall m : nat,
  (m < length v)%nat -> vget (map f v) m = f (vget v m).
Proof.
  unfold vget. induction v as [|x t IH]; intros [|m] H; cbn [length] in H;
    try lia; cbn [map nth]; [reflexivity|].
  apply IH. lia.
Qed.

Lemma scaled_spec (inv : Z) (v : list Z) :
  0 <= inv < mod_ -> below (2 ^ 32) v ->
  let vs := map (fun x => wrap32 (wrap64 (x * inv) mod mod_)) v in
  length vs = length v /\ below mod_ vs
  /\ forall m, (m < length v)%nat -> vget vs m = (vget v m * inv) mod mod_.
Proof.
  intros Hi Hv vs. pose proof mod_range as Hp.
  assert (Hm : forall m, (m < length v)%nat -> vget vs m = (vget v m * inv) mod mod_).
  { intros m Hm. unfold vs. rewrite vget_map by exact Hm.
    pose proof (below_vget _ v m Hv Hm) as Hx.
    rewrite wrap64_id by nia.
    pose proof (mod_field (vget v m * inv)). rewrite wrap32_id by lia.
    reflexivity. }
  split; [apply length_map|]. split; [|exact Hm].
  apply below_of_vget. unfold vs at 1. rewrite length_map. intros q Hq.
  rewrite (Hm q Hq). apply mod_field.
Qed.

(** [NTT_(logN, true)]: the Fourier sums at the inverse root, scaled. *)
Lemma NTT_inverse_spec (s fuel : nat) (v : list Z) :
  (1 <= s <= 30)%nat -> length v = (2 ^ s)%nat -> below (2 ^ 32) v ->
  (2 ^ s + 32 <= fuel)%nat ->
  exists V, NTT_ fuel s true v = Some V
            /\ length V = (2 ^ s)%nat /\ in_field V
            /\ forall k, (k < 2 ^ s)%nat ->
                 cong (vget V k)
                      (scale_factor s
                       * zsum (2 ^ s)
                           (fun m => vget v m
                                     * zpow (zpow (unit_root s) (2 ^ s - 1)) (k * m))).
Proof.
  intros Hs Hl Hv Hf. pose proof mod_range as Hp.
  pose proof (unit_root_range s) as Hg.
  destruct (scale_run s fuel Hs ltac:(lia)) as (I1 & I2 & I3).
  unfold NTT_. rewrite (unit_root_run s fuel) by lia. rewrite Hl.
  rewrite Nat2Z.inj_pow. change (Z.of_nat 2) with 2. rewrite I1.
  destruct (scaled_spec (scale_factor s) v I2 Hv) as (V1 & V2 & V3).
  set (vs := map (fun x => wrap32 (wrap64 (x * scale_factor s) mod mod_)) v) in *.
  assert (Ht : is_table (zpow (unit_root s) (2 ^ s - 1))
                        (w_reverse (w_init (2 ^ s) (unit_root s)))).
  { pose proof (w_reverse_table (unit_root s) (w_init (2 ^ s) (unit_root s))
                  (w_init_table (2 ^ s) (unit_root s) ltac:(lia))) as T.
    rewrite length_w_init in T. apply T.
    apply root_order; [lia|apply unit_root_half; exact Hs]. }
  destruct (ntt_core mod_ (zpow (unit_root s) (2 ^ s - 1)) s fuel
              (w_reverse (w_init (2 ^ s) (unit_root s))) vs
              ltac:(lia) ltac:(lia)
              (inverse_root_half _ s ltac:(lia) (unit_root_half s Hs))
              Ht ltac:(rewrite length_w_reverse; apply length_w_init)
              ltac:(lia) V2 ltac:(lia))
    as (v1 & v2 & E1 & E2 & E3 & E4 & E5).
  cbv beta iota zeta. fold vs. rewrite E1, E2.
  exists v2. split; [reflexivity|]. split; [exact E3|]. split; [exact E4|].
  intros k Hk. rewrite (E5 k Hk), <- zsum_scale.
  apply zsum_cong. intros m Hm. rewrite V3 by lia. rewrite cong_mod. 
  replace (vget v m * scale_factor s * zpow (zpow (unit_root s) (2 ^ s - 1)) (k * m))
    with (scale_factor s
          * (vget v m * zpow (zpow (unit_root s) (2 ^ s - 1)) (k * m))) by ring.
  reflexivity.
Qed.

(** ** Orthogonality of the two roots *)

Lemma zsum_const (n : nat) (c : Z) : zsum n (fun _ => c) = Z.of_nat n * c.
Proof.
  induction n as [|n IH]; cbn [zsum]; [lia|]. rewrite IH. lia.
Qed.

Lemma root_sum (g : Z) (s m k : nat) :
  (1 <= s)%nat -> cong (zpow g (2 ^ (s - 1))) (-1) ->
  (m < 2 ^ s)%nat -> (k < 2 ^ s)%nat ->
  cong (zsum (2 ^ s) (fun j => zpow g ((m + (2 ^ s - 1) * k) * j)))
       (if (m =? k)%nat then Z.of_nat (2 ^ s) else 0).
Proof.
  intros Hs Hg Hm Hk.
  assert (Ho : cong (zpow g (2 ^ s)) 1) by (apply root_order; assumption).
  destruct (Nat.eqb_spec m k) as [->|Hne].
  - rewrite <- (Z.mul_1_r (Z.of_nat (2 ^ s))), <- zsum_const.
    apply zsum_cong. intros j _.
    replace ((k + (2 ^ s - 1) * k) * j)%nat with (0 + 2 ^ s * (k * j))%nat by nia.
    rewrite (zpow_order g (2 ^ s) 0 (k * j) Ho). reflexivity.
  - apply root_orthogonal; try assumption.
    intros E. apply Hne. apply Nat.Div0.div_exact in E.
    set (c := ((m + (2 ^ s - 1) * k) / 2 ^ s)%nat) in *.
    destruct (Nat.lt_trichotomy c k) as [L|[L|L]]; nia.
Qed.


(** * The transform: what [NTT_] computes *)

(** ** X25 *)



(** ** X26 *)

(** X26: for [1 <= logN <= 30] and every vector of [2^logN] entries below
    [mod], [NTT_(logN, false)] followed by [NTT_(logN, true)] returns the
    vector itself; both calls return on every loop bound of at least
    [2^logN + 32]. *)
Theorem X26_NTT_round_trip (s fuel : nat) (v : list Z) :
  (1 <= s <= 30)%nat -> length v = (2 ^ s)%nat -> in_field v ->
  (2 ^ s + 32 <= fuel)%nat ->
  exists V, NTT_ fuel s false v = Some V /\ NTT_ fuel s true V = Some v.
Proof.
  intros Hs Hl Hv Hf. pose proof mod_range as Hp.
  destruct (NTT_forward_spec mod_ s fuel v ltac:(lia) Hs Hl Hv Hf)
    as (V & F1 & F2 & F3 & F4).
  destruct (NTT_inverse_spec s fuel V Hs F2
              (below_weaken mod_ (2 ^ 32) V ltac:(lia) F3) Hf)
    as (W & I1 & I2 & I3 & I4).
  destruct (scale_run s 3 Hs ltac:(lia)) as (_ & S2 & S3).
  exists V. split; [exact F1|]. rewrite I1. f_equal.
  apply vget_ext; [lia|]. rewrite I2. intros k Hk.
  apply cong_field_eq.
  - apply below_vget; [exact I3|lia].
  - apply below_vget; [exact Hv|lia].
  - rewrite (I4 k Hk).
    set (g := unit_root s) in *.
    assert (Hsum : cong (zsum (2 ^ s)
                           (fun j => vget V j * zpow (zpow g (2 ^ s - 1)) (k * j)))
                        (vget v k * Z.of_nat (2 ^ s))).
    { rewrite (zsum_cong (2 ^ s) _
                 (fun j => zsum (2 ^ s)
                             (fun m => vget v m
                                       * zpow g ((m + (2 ^ s - 1) * k) * j)))).
      2:{ intros j Hj. rewrite (F4 j Hj). rewrite Z.mul_comm, <- zsum_scale.
          apply zsum_cong. intros m _.
          replace ((m + (2 ^ s - 1) * k) * j)%nat
            with (j * m + (2 ^ s - 1) * (k * j))%nat by nia.
          rewrite zpow_add, (zpow_mul g (2 ^ s - 1) (k * j)).
          apply cong_def. f_equal. ring. }
      rewrite zsum_swap.
      rewrite (zsum_cong (2 ^ s) _
                 (fun m => if (m =? k)%nat then vget v m * Z.of_nat (2 ^ s) else 0)).
      2:{ intros m Hm. rewrite zsum_scale.
          rewrite (root_sum g s m k ltac:(lia) (unit_root_half s Hs) Hm Hk).
          destruct (m =? k)%nat; [reflexivity|rewrite Z.mul_0_r; reflexivity]. }
      rewrite zsum_single by exact Hk. reflexivity. }
    rewrite Hsum.
    replace (scale_factor s * (vget v k * Z.of_nat (2 ^ s)))
      with (vget v k * (scale_factor s * Z.of_nat (2 ^ s))) by ring.
    rewrite Nat2Z.inj_pow. change (Z.of_nat 2) with 2.
    rewrite S3, Z.mul_1_r. reflexivity.
Qed.

Lemma X26_witness :
  let v := [7; 0; 3221225472; 12] in
  (1 <= 2 <= 30)%nat /\ length v = (2 ^ 2)%nat /\ in_field v
  /\ (2 ^ 2 + 32 <= 36)%nat
  /\ exists V, NTT_ 36 2 false v = Some V /\ NTT_ 36 2 true V = Some v.
Proof.
  intros v.
  assert (H1 : (1 <= 2 <= 30)%nat) by lia.
  assert (H2 : length v = (2 ^ 2)%nat) by reflexivity.
  assert (H3 : in_field v).
  { unfold in_field, v. repeat (apply Forall_cons; [rewrite mod_val; lia|]).
    apply Forall_nil. }
  assert (H4 : (2 ^ 2 + 32 <= 36)%nat) by (cbn; lia).
  split; [exact H1|]. split; [exact H2|]. split; [exact H3|]. split; [exact H4|].
  exact (X26_NTT_round_trip 2 36 v H1 H2 H3 H4).
Defined.

(** * Multiplication: what [operator*=] computes *)

Lemma logN_loop_spec (size : nat) : forall (fuel l : nat),
  (1 <= size)%nat -> (2 * size <= 2 ^ (l + fuel - 1))%nat -> (1 <= fuel)%nat ->
  (l = 0%nat \/ 2 ^ (l - 1) < 2 * size)%nat ->
  exists L, logN_loop fuel size l = Some L
            /\ (l <= L <= l + fuel - 1)%nat /\ (2 * size <= 2 ^ L)%nat
            /\ (L = 0%nat \/ 2 ^ (L - 1) < 2 * size)%nat.
Proof.
  intros fuel. induction fuel as [|fuel IH]; intros l Hs Hb Hf Hl; [lia|].
  cbn [logN_loop]. rewrite !Nat.shiftl_mul_pow2, Nat.mul_1_l.
  change (2 ^ 1)%nat with 2%nat.
  destruct (Nat.ltb_spec (2 ^ l) (size * 2)) as [Lt|Ge].
  - assert (Hfuel : (1 <= fuel)%nat).
    { destruct fuel; [|lia]. replace (l + 1 - 1)%nat with l in Hb by lia. lia. }
    destruct (IH (S l) Hs) as (L & E & R1 & R2 & R3).
    + replace (S l + fuel - 1)%nat with (l + S fuel - 1)%nat by lia. exact Hb.
    + exact Hfuel.
    + right. replace (S l - 1)%nat with l by lia. lia.
    + exists L. split; [exact E|]. split; [lia|]. split; assumption.
  - exists l. split; [reflexivity|]. split; [lia|]. split; [lia|exact Hl].
Qed.

Lemma vget_resize_grow (v : list Z) (n m : nat) :
  (length v <= n)%nat -> vget (resize v n) m = vget v m.
Proof.
  intros H. unfold resize, vget. rewrite firstn_all2 by exact H.
  destruct (Nat.lt_ge_cases m (length v)) as [L|L].
  - apply app_nth1. exact L.
  - rewrite app_nth2 by exact L. rewrite (nth_overflow v) by exact L.
    destruct (Nat.lt_ge_cases (m - length v) (n - length v)) as [L'|L'].
    + apply nth_repeat_lt. exact L'.
    + apply nth_overflow. rewrite repeat_length. exact L'.
Qed.

Lemma pointwise_spec (l : list Z) : forall r : list Z,
  length r = length l -> below (2 ^ 32) l -> below (2 ^ 32) r ->
  length (pointwise l r) = length l
  /\ in_field (pointwise l r)
  /\ forall j, (j < length l)%nat ->
       vget (pointwise l r) j = (vget l j * vget r j) mod mod_.
Proof.
  pose proof mod_range as Hp.
  induction l as [|x l IH]; intros [|y r] Hl Hbl Hbr; try discriminate.
  - split; [reflexivity|]. split; [constructor|]. intros j Hj. cbn in Hj. lia.
  - inversion Hbl as [|? ? Hx Hbl']; subst. inversion Hbr as [|? ? Hy Hbr']; subst.
    cbn [length] in Hl. injection Hl as Hl.
    destruct (IH r Hl Hbl' Hbr') as (I1 & I2 & I3).
    cbn [pointwise]. rewrite wrap64_id by nia.
    pose proof (mod_field (x * y)) as Hm. rewrite wrap32_id by lia.
    split; [cbn [length]; lia|]. split; [constructor; assumption|].
    intros [|j] Hj; [reflexivity|]. cbn [length] in Hj.
    unfold vget in *. cbn [nth]. apply I3. lia.
Qed.

(** ** The convolution theorem *)

Lemma zsum_product (n n' : nat) (f h : nat -> Z) (c : Z) :
  zsum n f * zsum n' h * c
  = zsum n (fun m => zsum n' (fun l => f m * h l * c)).
Proof.
  rewrite (zsum_ext n (fun m => zsum n' (fun l => f m * h l * c))
                      (fun m => (zsum n' h * c) * f m)).
  - rewrite zsum_scale. ring.
  - intros m _. rewrite (zsum_ext n' (fun l => f m * h l * c)
                                     (fun l => (f m * c) * h l)).
    + rewrite zsum_scale. ring.
    + intros l _. ring.
Qed.

Lemma conv_inner (n m k : nat) (F : nat -> Z) (N : Z) :
  (k < n)%nat ->
  zsum n (fun l => F l * (if (m + l =? k)%nat then N else 0))
  = if (m <=? k)%nat then F (k - m)%nat * N else 0.
Proof.
  intros Hk. destruct (Nat.leb_spec m k) as [Le|Gt].
  - rewrite (zsum_ext n _ (fun l => if (l =? k - m)%nat then F l * N else 0)).
    + apply zsum_single. lia.
    + intros l _. destruct (Nat.eqb_spec (m + l) k); destruct (Nat.eqb_spec l (k - m));
        try lia; ring.
  - rewrite (zsum_ext n _ (fun _ => 0)); [apply zsum_zero|].
    intros l _. destruct (Nat.eqb_spec (m + l) k); [lia|ring].
Qed.

Lemma conv_outer (n k : nat) (F : nat -> Z) :
  (k < n)%nat ->
  zsum n (fun m => if (m <=? k)%nat then F m else 0) = zsum (S k) F.
Proof.
  intros Hk. replace n with (S k + (n - S k))%nat by lia.
  rewrite zsum_app.
  rewrite (zsum_ext (n - S k) _ (fun _ => 0)).
  - rewrite zsum_zero, Z.add_0_r. apply zsum_ext. intros m Hm.
    destruct (Nat.leb_spec m k); [reflexivity|lia].
  - intros m _. destruct (Nat.leb_spec (S k + m) k); [lia|reflexivity].
Qed.

Lemma convolution (g : Z) (s h : nat) (a b : nat -> Z) (k : nat) :
  (1 <= s)%nat -> cong (zpow g (2 ^ (s - 1))) (-1) ->
  (2 * h <= 2 ^ s)%nat ->
  (forall m, (h <= m)%nat -> a m = 0) -> (forall l, (h <= l)%nat -> b l = 0) ->
  (k < 2 ^ s)%nat ->
  cong (zsum (2 ^ s)
          (fun j => zsum (2 ^ s) (fun m => a m * zpow g (j * m))
                    * zsum (2 ^ s) (fun l => b l * zpow g (j * l))
                    * zpow (zpow g (2 ^ s - 1)) (k * j)))
       (Z.of_nat (2 ^ s) * zsum (S k) (fun m => a m * b (k - m)%nat)).
Proof.
  intros Hs Hg Hh Ha Hb Hk.
  rewrite (zsum_ext (2 ^ s) _
             (fun j => zsum (2 ^ s) (fun m => zsum (2 ^ s) (fun l =>
                a m * b l * zpow g ((m + l + (2 ^ s - 1) * k) * j))))).
  2:{ intros j _. rewrite zsum_product. apply zsum_ext. intros m _.
      apply zsum_ext. intros l _.
      replace ((m + l + (2 ^ s - 1) * k) * j)%nat
        with (j * m + j * l + (2 ^ s - 1) * (k * j))%nat by nia.
      rewrite !zpow_add, (zpow_mul g (2 ^ s - 1) (k * j)). ring. }
  rewrite zsum_swap.
  rewrite (zsum_cong (2 ^ s) _
             (fun m => if (m <=? k)%nat
                       then a m * b (k - m)%nat * Z.of_nat (2 ^ s) else 0)).
  - rewrite conv_outer by exact Hk. rewrite <- zsum_scale.
    apply cong_def. f_equal. apply zsum_ext. intros; ring.
  - intros m Hm. rewrite zsum_swap.
    rewrite <- (conv_inner (2 ^ s) m k (fun l => a m * b l) (Z.of_nat (2 ^ s)) Hk).
    apply zsum_cong. intros l Hl. rewrite zsum_scale.
    destruct (Nat.lt_ge_cases (m + l) (2 ^ s)) as [Lt|Ge].
    + rewrite (root_sum g s (m + l) k Hs Hg Lt Hk). reflexivity.
    + assert (Z0 : a m * b l = 0).
      { destruct (Nat.lt_ge_cases m h) as [Lm|Gm].
        - rewrite (Hb l) by lia. ring.
        - rewrite (Ha m) by lia. ring. }
      rewrite Z0, !Z.mul_0_l. reflexivity.
Qed.

(** ** [operator*=] *)

Lemma operator_mul_assign_spec (fuel : nat) (past : Z) (lhs rhs : BigInteger) :
  limbs_ok (value lhs) -> limbs_ok (value rhs) ->
  (1 <= Nat.max (length (value lhs)) (length (value rhs)))%nat ->
  2 * Z.of_nat (Nat.max (length (value lhs)) (length (value rhs))) <= 2 ^ 30 ->
  (4 * Nat.max (length (value lhs)) (length (value rhs)) + 32 <= fuel)%nat ->
  exists C,
    operator_mul_assign fuel past lhs rhs
    = Some (trimLeadingZeros_ past (mkBig C (negative lhs)))
    /\ (2 * Nat.max (length (value lhs)) (length (value rhs)) <= length C
        < 4 * Nat.max (length (value lhs)) (length (value rhs)))%nat
    /\ in_field C
    /\ forall k, (k < length C)%nat ->
         vget C k = conv (value lhs) (value rhs) k mod mod_.
Proof.
  intros Ha Hb Hs1 Hz30 Hf. pose proof mod_range as Hp.
  set (size := Nat.max (length (value lhs)) (length (value rhs))) in *.
  assert (Hs30 : (2 * size <= 2 ^ 30)%nat).
  { apply Nat2Z.inj_le. rewrite Nat2Z.inj_mul, Nat2Z.inj_pow.
    change (Z.of_nat 2) with 2. change (Z.of_nat 30) with 30. exact Hz30. }
  destruct (logN_loop_spec size fuel 0 Hs1) as (L & E & R1 & R2 & R3).
  { apply Nat.le_trans with (2 ^ 30)%nat; [exact Hs30|].
    apply Nat.pow_le_mono_r; lia. }
  { lia. }
  { left. reflexivity. }
  assert (HL1 : (1 <= L)%nat).
  { destruct L; [cbn in R2; lia|lia]. }
  destruct R3 as [R3|R3]; [lia|].
  assert (HL30 : (L <= 30)%nat).
  { assert (L - 1 < 30)%nat; [|lia].
    apply (Nat.pow_lt_mono_r_iff 2); lia. }
  assert (Hn : (2 ^ L = 2 * 2 ^ (L - 1))%nat).
  { rewrite <- pow2_S. f_equal. lia. }
  unfold operator_mul_assign. fold size. rewrite E.
  rewrite Nat.shiftl_mul_pow2, Nat.mul_1_l.
  set (a := resize (value lhs) (2 ^ L)). set (b := resize (value rhs) (2 ^ L)).
  destruct (NTT_forward_spec (2 ^ 32) L fuel a ltac:(lia) ltac:(lia)
              (length_resize _ _) (limbs_ok_resize _ _ Ha) ltac:(lia))
    as (A & A1 & A2 & A3 & A4).
  destruct (NTT_forward_spec (2 ^ 32) L fuel b ltac:(lia) ltac:(lia)
              (length_resize _ _) (limbs_ok_resize _ _ Hb) ltac:(lia))
    as (B & B1 & B2 & B3 & B4).
  rewrite A1, B1.
  destruct (pointwise_spec A B ltac:(lia) A3 B3) as (P1 & P2 & P3).
  destruct (NTT_inverse_spec L fuel (pointwise A B) ltac:(lia) ltac:(lia)
              (below_weaken mod_ (2 ^ 32) _ ltac:(lia) P2) ltac:(lia))
    as (C & C1 & C2 & C3 & C4).
  rewrite C1. exists C. split; [reflexivity|]. split; [lia|]. split; [exact C3|].
  rewrite C2. intros k Hk.
  destruct (scale_run L 3 ltac:(lia) ltac:(lia)) as (_ & S2 & S3).
  assert (Hc : cong (vget C k) (conv (value lhs) (value rhs) k)).
  { rewrite (C4 k Hk).
    rewrite (zsum_cong (2 ^ L) _
               (fun j => zsum (2 ^ L) (fun m => vget a m * zpow (unit_root L) (j * m))
                         * zsum (2 ^ L) (fun l => vget b l * zpow (unit_root L) (j * l))
                         * zpow (zpow (unit_root L) (2 ^ L - 1)) (k * j))).
    2:{ intros j Hj. rewrite P3 by lia. rewrite cong_mod.
        rewrite (A4 j Hj), (B4 j Hj). reflexivity. }
    rewrite (convolution (unit_root L) L size (vget a) (vget b) k
                HL1 (unit_root_half L ltac:(lia)) ltac:(lia)).
    - rewrite Z.mul_assoc, Nat2Z.inj_pow. change (Z.of_nat 2) with 2.
      rewrite S3, Z.mul_1_l. unfold conv.
      apply cong_def. f_equal. apply zsum_ext. intros m _.
      unfold a, b. rewrite !vget_resize_grow by lia. reflexivity.
    - intros m Hm. unfold a. rewrite vget_resize_grow by lia.
      apply vget_outside. lia.
    - intros l Hl. unfold b. rewrite vget_resize_grow by lia.
      apply vget_outside. lia.
    - exact Hk. }
  rewrite <- (cong_mod_eq _ _ Hc). symmetry. apply Z.mod_small.
  apply below_vget; [exact C3|lia].
Qed.

(** ** X27 *)

(** X27: for operands with limbs in range and at most [2^29] limbs,
    [a *= b] returns (on every loop bound of at least four times the
    larger size plus 32) the vector [C] of the inverse transform, cut by
    [trimLeadingZeros_], under the sign flag of [a]: limb [k] of [C] is the
    coefficient [a[0] b[k] + a[1] b[k-1] + ... + a[k] b[0]] of the product
    polynomial reduced modulo [mod = 3221225473].  No carry is propagated
    between limbs, a coefficient at or above [mod] loses its upper part,
    and the sign flag of [b] is never read. *)
Theorem X27_operator_mul_assign_is_convolution_mod
        (fuel : nat) (past : Z) (lhs rhs : BigInteger) :
  limbs_ok (value lhs) -> limbs_ok (value rhs) ->
  (1 <= Nat.max (length (value lhs)) (length (value rhs)))%nat ->
  2 * Z.of_nat (Nat.max (length (value lhs)) (length (value rhs))) <= 2 ^ 30 ->
  (4 * Nat.max (length (value lhs)) (length (value rhs)) + 32 <= fuel)%nat ->
  exists C,
    operator_mul_assign fuel past lhs rhs
    = Some (trimLeadingZeros_ past (mkBig C (negative lhs)))
    /\ (2 * Nat.max (length (value lhs)) (length (value rhs)) <= length C
        < 4 * Nat.max (length (value lhs)) (length (value rhs)))%nat
    /\ in_field C
    /\ forall k, (k < length C)%nat ->
         vget C k = conv (value lhs) (value rhs) k mod mod_.
Proof. apply operator_mul_assign_spec. Qed.

Lemma X27_witness :
  let lhs := mkBig [4294967295; 5] true in
  let rhs := mkBig [7] true in
  limbs_ok (value lhs) /\ limbs_ok (value rhs)
  /\ (1 <= Nat.max (length (value lhs)) (length (value rhs)))%nat
  /\ 2 * Z.of_nat (Nat.max (length (value lhs)) (length (value rhs))) <= 2 ^ 30
  /\ (4 * Nat.max (length (value lhs)) (length (value rhs)) + 32 <= 40)%nat
  /\ exists C,
       operator_mul_assign 40 0 lhs rhs
       = Some (trimLeadingZeros_ 0 (mkBig C (negative lhs)))
       /\ (2 * Nat.max (length (value lhs)) (length (value rhs)) <= length C
           < 4 * Nat.max (length (value lhs)) (length (value rhs)))%nat
       /\ in_field C
       /\ forall k, (k < length C)%nat ->
            vget C k = conv (value lhs) (value rhs) k mod mod_.
Proof.
  intros lhs rhs.
  assert (H1 : limbs_ok (value lhs)) by (repeat constructor; unfold limb_ok; lia).
  assert (H2 : limbs_ok (value rhs)) by (repeat constructor; unfold limb_ok; lia).
  assert (H3 : (1 <= Nat.max (length (value lhs)) (length (value rhs)))%nat)
    by (cbn; lia).
  assert (H4 : 2 * Z.of_nat (Nat.max (length (value lhs)) (length (value rhs))) <= 2 ^ 30)
    by (cbn; lia).
  assert (H5 : (4 * Nat.max (length (value lhs)) (length (value rhs)) + 32 <= 40)%nat)
    by (cbn; lia).
  split; [exact H1|]. split; [exact H2|]. split; [exact H3|]. split; [exact H4|].
  split; [exact H5|].
  exact (X27_operator_mul_assign_is_convolution_mod 40 0 lhs rhs H1 H2 H3 H4 H5).
Defined.

(** * Multiplication: when the product is exact *)

Lemma zsum_shift (n : nat) (f : nat -> Z) :
  zsum (S n) f = f 0%nat + zsum n (fun k => f (S k)).
Proof.
  induction n as [|n IH]; [cbn [zsum]; ring|].
  change (zsum (S (S n)) f) with (zsum (S n) f + f (S n)).
  rewrite IH. cbn [zsum]. ring.
Qed.

Lemma vget_nil (k : nat) : vget [] k = 0.
Proof. unfold vget. destruct k; reflexivity. Qed.

Lemma limb_weight_S (k : nat) :
  2 ^ (32 * Z.of_nat (S k)) = 2 ^ 32 * 2 ^ (32 * Z.of_nat k).
Proof. apply pow32_succ. Qed.

Lemma limb_weight_add (m l : nat) :
  2 ^ (32 * Z.of_nat (m + l)) = 2 ^ (32 * Z.of_nat m) * 2 ^ (32 * Z.of_nat l).
Proof.
  rewrite Nat2Z.inj_add, Z.mul_add_distr_l. apply Z.pow_add_r; lia.
Qed.

(** The magnitude as a sum over the limbs. *)
Lemma magnitude_zsum (v : list Z) : forall n : nat,
  (length v <= n)%nat ->
  magnitude v = zsum n (fun k => vget v k * 2 ^ (32 * Z.of_nat k)).
Proof.
  induction v as [|x t IH]; intros n Hn.
  - cbn [magnitude]. rewrite (zsum_ext n _ (fun _ => 0)); [symmetry; apply zsum_zero|].
    intros k _. rewrite vget_nil. ring.
  - destruct n as [|n]; [cbn in Hn; lia|]. cbn [length] in Hn.
    rewrite zsum_shift. cbn [magnitude].
    rewrite (IH n ltac:(lia)), <- zsum_scale.
    unfold vget. cbn [nth]. change (Z.of_nat 0) with 0.
    rewrite Z.mul_0_r, Z.pow_0_r. f_equal; [ring|].
    apply zsum_ext. intros k _. rewrite limb_weight_S. ring.
Qed.

(** The product of two magnitudes as the sum of the coefficients of the
    product polynomial. *)
Lemma cauchy_product (a b : list Z) (n : nat) :
  (length a + length b <= n)%nat ->
  magnitude a * magnitude b
  = zsum n (fun k => conv a b k * 2 ^ (32 * Z.of_nat k)).
Proof.
  intros Hn.
  set (T := zsum n (fun m => zsum n (fun l =>
              vget a m * vget b l
              * (if (m + l <? n)%nat then 2 ^ (32 * Z.of_nat (m + l)) else 0)))).
  transitivity T.
  - rewrite (magnitude_zsum a n), (magnitude_zsum b n) by lia.
    rewrite <- (Z.mul_1_r (_ * _)), zsum_product.
    apply zsum_ext. intros m _. apply zsum_ext. intros l _.
    destruct (Nat.ltb_spec (m + l) n) as [Lt|Ge].
    + rewrite limb_weight_add. ring.
    + assert (Z0 : vget a m * vget b l = 0).
      { destruct (Nat.lt_ge_cases m (length a)) as [Lm|Gm].
        - rewrite (vget_outside b l) by lia. ring.
        - rewrite (vget_outside a m) by lia. ring. }
      replace (vget a m * 2 ^ (32 * Z.of_nat m)
               * (vget b l * 2 ^ (32 * Z.of_nat l)) * 1)
        with (vget a m * vget b l
              * (2 ^ (32 * Z.of_nat m) * 2 ^ (32 * Z.of_nat l))) by ring.
      rewrite Z0. ring.
  - symmetry.
    rewrite (zsum_ext n _
               (fun k => zsum n (fun m => zsum n (fun l =>
                  vget a m * vget b l
                  * (if (m + l =? k)%nat then 2 ^ (32 * Z.of_nat k) else 0))))).
    2:{ intros k Hk. unfold conv.
        rewrite (zsum_ext n
                   (fun m => zsum n (fun l =>
                      vget a m * vget b l
                      * (if (m + l =? k)%nat then 2 ^ (32 * Z.of_nat k) else 0)))
                   (fun m => if (m <=? k)%nat
                             then vget a m * vget b (k - m) * 2 ^ (32 * Z.of_nat k)
                             else 0)).
        - rewrite (conv_outer n k
                     (fun m => vget a m * vget b (k - m) * 2 ^ (32 * Z.of_nat k)) Hk).
          rewrite Z.mul_comm, <- zsum_scale. apply zsum_ext. intros; ring.
        - intros m _.
          apply (conv_inner n m k (fun l => vget a m * vget b l)
                   (2 ^ (32 * Z.of_nat k)) Hk). }
    rewrite zsum_swap. unfold T. apply zsum_ext. intros m _.
    rewrite zsum_swap. apply zsum_ext. intros l _.
    rewrite zsum_scale. f_equal.
    destruct (Nat.ltb_spec (m + l) n) as [Lt|Ge].
    + rewrite (zsum_ext n _ (fun k => if (k =? m + l)%nat
                                     then 2 ^ (32 * Z.of_nat k) else 0)).
      * apply (zsum_single n (m + l) (fun k => 2 ^ (32 * Z.of_nat k)) Lt).
      * intros k _. destruct (Nat.eqb_spec (m + l) k); destruct (Nat.eqb_spec k (m + l));
          try lia; reflexivity.
    + rewrite (zsum_ext n _ (fun _ => 0)); [apply zsum_zero|].
      intros k Hk. destruct (Nat.eqb_spec (m + l) k); [lia|reflexivity].
Qed.

Lemma conv_nonneg (a b : list Z) (k : nat) :
  limbs_ok a -> limbs_ok b -> 0 <= conv a b k.
Proof.
  intros Ha Hb. unfold conv.
  assert (Hv : forall (v : list Z) (q : nat), limbs_ok v -> 0 <= vget v q).
  { intros v q Hv. destruct (Nat.lt_ge_cases q (length v)) as [L|L].
    - pose proof (below_vget (2 ^ 32) v q Hv L). lia.
    - rewrite vget_outside by exact L. lia. }
  generalize (S k). intros n. induction n as [|n IH]; cbn [zsum]; [lia|].
  pose proof (Hv a n Ha). pose proof (Hv b (k - n)%nat Hb). nia.
Qed.

Lemma conv_outside (a b : list Z) (k : nat) :
  (length a + length b <= k)%nat -> conv a b k = 0.
Proof.
  intros H. unfold conv. rewrite (zsum_ext _ _ (fun _ => 0)); [apply zsum_zero|].
  intros m _. destruct (Nat.lt_ge_cases m (length a)) as [L|L].
  - rewrite (vget_outside b) by lia. ring.
  - rewrite (vget_outside a) by lia. ring.
Qed.

(** ** X28 *)

(** X28: when, in addition, every coefficient
    [a[0] b[k] + ... + a[k] b[0]] of the product polynomial is below
    [mod = 3221225473], [a *= b] stands for the integer [a * |b|]: the
    magnitude is the exact product of the magnitudes, and the sign is the
    sign of [a] alone, so the product is right for every non-negative [b].
    With a zero word behind the storage the result is normalized. *)
Theorem X28_small_coefficients_give_the_exact_product
        (fuel : nat) (past : Z) (lhs rhs : BigInteger) :
  limbs_ok (value lhs) -> limbs_ok (value rhs) ->
  (1 <= Nat.max (length (value lhs)) (length (value rhs)))%nat ->
  2 * Z.of_nat (Nat.max (length (value lhs)) (length (value rhs))) <= 2 ^ 30 ->
  (4 * Nat.max (length (value lhs)) (length (value rhs)) + 32 <= fuel)%nat ->
  forallb (fun k => conv (value lhs) (value rhs) k <? mod_)
          (seq 0 (length (value lhs) + length (value rhs))) = true ->
  exists r, operator_mul_assign fuel past lhs rhs = Some r
            /\ to_Z r = to_Z lhs * magnitude (value rhs)
            /\ limbs_ok (value r) /\ value r <> []
            /\ (past = 0 -> normalized r = true).
Proof.
  intros Ha Hb Hs1 Hs30 Hf Hc. pose proof mod_range as Hp.
  destruct (operator_mul_assign_spec fuel past lhs rhs Ha Hb Hs1 Hs30 Hf)
    as (C & E & L & F & V).
  rewrite forallb_forall in Hc.
  assert (Hcoef : forall k, (k < length C)%nat ->
                    vget C k = conv (value lhs) (value rhs) k).
  { intros k Hk. rewrite (V k Hk). apply Z.mod_small.
    split; [apply conv_nonneg; assumption|].
    destruct (Nat.lt_ge_cases k (length (value lhs) + length (value rhs))) as [Lt|Ge].
    - apply Z.ltb_lt. apply Hc. apply in_seq. lia.
    - rewrite conv_outside by exact Ge. lia. }
  assert (HM : magnitude C = magnitude (value lhs) * magnitude (value rhs)).
  { rewrite (magnitude_zsum C (length C) ltac:(lia)).
    rewrite (cauchy_product (value lhs) (value rhs) (length C)) by lia.
    apply zsum_ext. intros k Hk. rewrite (Hcoef k Hk). reflexivity. }
  destruct (trimLeadingZeros_spec past (mkBig C (negative lhs)))
    as (T1 & T2 & T3 & T4).
  exists (trimLeadingZeros_ past (mkBig C (negative lhs))).
  split; [exact E|]. split.
  { rewrite T2. unfold to_Z. cbn [value negative]. rewrite HM.
    destruct (negative lhs); ring. }
  split.
  { apply T3. cbn [value]. apply (below_weaken mod_ (2 ^ 32)); [lia|exact F]. }
  split; [exact T1|].
  intros Hpast. apply T4; [exact Hpast|]. cbn [value].
  intros E0. rewrite E0 in L. cbn [length] in L. lia.
Qed.

Lemma X28_witness :
  let lhs := mkBig [40000; 3] true in
  let rhs := mkBig [50000; 2] false in
  limbs_ok (value lhs) /\ limbs_ok (value rhs)
  /\ (1 <= Nat.max (length (value lhs)) (length (value rhs)))%nat
  /\ 2 * Z.of_nat (Nat.max (length (value lhs)) (length (value rhs))) <= 2 ^ 30
  /\ (4 * Nat.max (length (value lhs)) (length (value rhs)) + 32 <= 40)%nat
  /\ forallb (fun k => conv (value lhs) (value rhs) k <? mod_)
             (seq 0 (length (value lhs) + length (value rhs))) = true
  /\ exists r, operator_mul_assign 40 7 lhs rhs = Some r
               /\ to_Z r = to_Z lhs * magnitude (value rhs)
               /\ limbs_ok (value r) /\ value r <> []
               /\ (7 = 0 -> normalized r = true).
Proof.
  intros lhs rhs.
  assert (H1 : limbs_ok (value lhs)) by (repeat constructor; unfold limb_ok; lia).
  assert (H2 : limbs_ok (value rhs)) by (repeat constructor; unfold limb_ok; lia).
  assert (H3 : (1 <= Nat.max (length (value lhs)) (length (value rhs)))%nat)
    by (cbn; lia).
  assert (H4 : 2 * Z.of_nat (Nat.max (length (value lhs)) (length (value rhs))) <= 2 ^ 30)
    by (cbn; lia).
  assert (H5 : (4 * Nat.max (length (value lhs)) (length (value rhs)) + 32 <= 40)%nat)
    by (cbn; lia).
  assert (H6 : forallb (fun k => conv (value lhs) (value rhs) k <? mod_)
                       (seq 0 (length (value lhs) + length (value rhs))) = true)
    by (vm_compute; reflexivity).
  split; [exact H1|]. split; [exact H2|]. split; [exact H3|]. split; [exact H4|].
  split; [exact H5|]. split; [exact H6|].
  exact (X28_small_coefficients_give_the_exact_product 40 7 lhs rhs
           H1 H2 H3 H4 H5 H6).
Defined.
